(** * Auditable dark pool: ring arithmetic, RLWE audit encryption,
      threshold decryption and the Merkle accumulator

    A shallow embedding of the TypeScript sources
      - [demo-frontend/app/lib/rlwe.ts]      (encryption side),
      - the Shamir / RLWE decryption module  (decryption side),
      - the Poseidon / identity / Merkle tree module,
    together with the properties stated about them.

    Conventions of the embedding.
      - A JavaScript [bigint] is a [Z].  On [bigint], [/] truncates towards
        zero and [%] takes the sign of the dividend: they are [Z.quot] and
        [Z.rem], not [Z.div] and [Z.modulo].
      - A JavaScript [number] that holds an index or a length is a [nat];
        one that holds a small signed integer (a noise sample, a byte, a
        share abscissa) is a [Z].
      - An array is a [list]; [a[i]] is the lookup [a !! i : option _].
        Reading past the end yields [undefined] in JavaScript, and every
        arithmetic use of [undefined] next to a [bigint] raises a
        [TypeError]: such a read is the failure [None] of the error monad
        [option].  The one place where the source compares a possibly
        undefined value with [0n] before using it ([negacyclicMulModQ],
        [negacyclicMulInt]) is modelled case by case.
      - A loop [for (let i = 0; i < n; i++)] that threads a state is
        [forM body (seq 0 n)]; a loop that pushes one value per iteration
        onto a fresh array is [mapM body (seq 0 n)].
      - [async] functions are modelled by their result; the public key that
        [loadRlwePk] fetches and the noise that [smallNoise] samples are
        inputs of the model. *)

From Stdlib Require Import ZArith Lia List Znumtheory Zpow_facts.
From Stdlib Require Import Zmod.ZmodInv.
From stdpp Require Import base numbers option list.

Local Open Scope Z_scope.

(** ** Constants *)

Definition N : nat := 1024.
Definition RLWE_Q : Z := 167772161.
Definition PLAINTEXT_MOD : Z := 256.
Definition DELTA : Z := RLWE_Q ÷ PLAINTEXT_MOD.
Definition MSG_SLOTS : nat := 64.
Definition BN254_P : Z :=
  21888242871839275222246405745257275088548364400416034343698204186575808495617.

(** ** The error monad of array reads *)

(** A counted loop threading the state [s] through [body], stopping at the
    first exception. *)
Fixpoint forM {S : Type} (body : nat -> S -> option S) (idxs : list nat)
    (s : S) : option S :=
  match idxs with
  | [] => Some s
  | i :: idxs' => s' ← body i s; forM body idxs' s'
  end.

(** The idiom [((v % q) + q) % q] of the sources (the local [mod] of
    [rlweEncrypt]). *)
Definition jsmod (v q : Z) : Z := Z.rem (Z.rem v q + q) q.

(** ** Field and ring arithmetic *)

(** The loop of [modPow].  Each iteration looks at the lowest bit of [exp]
    ([exp & 1n]), shifts it out ([exp >>= 1n]) and squares [base]; the
    recursion follows the binary digits of the positive exponent. *)
Fixpoint modPow_loop (result base : Z) (exp : positive) (mod_ : Z) : Z :=
  match exp with
  | xH => Z.rem (result * base) mod_
  | xO e => modPow_loop result (Z.rem (base * base) mod_) e mod_
  | xI e =>
      modPow_loop (Z.rem (result * base) mod_) (Z.rem (base * base) mod_) e mod_
  end.

Definition modPow (base exp mod_ : Z) : Z :=
  let base := Z.rem (Z.rem base mod_ + mod_) mod_ in
  match exp with
  | Zpos e => modPow_loop 1 base e mod_
  | _ => 1
  end.

(** [centeredMod]: reduce into [[0, q)], then shift the upper half down. *)
Definition centeredMod (v q : Z) : Z :=
  let v := Z.rem (Z.rem v q + q) q in
  if q ÷ 2 <? v then v - q else v.

(** One step [result[idx] = ...] of the two convolution loops. *)
Definition mulModQ_step (x y : Z) (i j n : nat) (q : Z) (result : list Z)
  : option (list Z) :=
  let idx := (i + j)%nat in
  let prod := x * y in
  if (idx <? n)%nat then
    r ← result !! idx;
    Some (<[idx := Z.rem (Z.rem (r + prod) q + q) q]> result)
  else
    r ← result !! (idx - n)%nat;
    Some (<[(idx - n)%nat := Z.rem (Z.rem (r - prod) q + q) q]> result).

(** [negacyclicMulModQ].  [a[i] === 0n] and [b[j] === 0n] skip an
    iteration; an undefined [a[i]] or [b[j]] is not [0n], and the product
    with it raises. *)
Definition negacyclicMulModQ (a b : list Z) (n : nat) (q : Z)
  : option (list Z) :=
  forM (fun i result =>
          match a !! i with
          | Some 0 => Some result
          | ai =>
              forM (fun j result =>
                      match b !! j with
                      | Some 0 => Some result
                      | bj =>
                          x ← ai; y ← bj; mulModQ_step x y i j n q result
                      end)
                   (seq 0 n) result
          end)
       (seq 0 n) (replicate n 0).

Definition mulInt_step (x y : Z) (i j n : nat) (result : list Z)
  : option (list Z) :=
  let idx := (i + j)%nat in
  let prod := x * y in
  if (idx <? n)%nat then
    r ← result !! idx; Some (<[idx := r + prod]> result)
  else
    r ← result !! (idx - n)%nat; Some (<[(idx - n)%nat := r - prod]> result).

(** [negacyclicMulInt]: the same convolution over the integers. *)
Definition negacyclicMulInt (a b : list Z) (n : nat) : option (list Z) :=
  forM (fun i result =>
          match a !! i with
          | Some 0 => Some result
          | ai =>
              forM (fun j result =>
                      match b !! j with
                      | Some 0 => Some result
                      | bj => x ← ai; y ← bj; mulInt_step x y i j n result
                      end)
                   (seq 0 n) result
          end)
       (seq 0 n) (replicate n 0).

(** [negacyclicMatrixRowModQ]: row [k] of the negacyclic matrix of [poly].
    [idx = k - j] is non-negative exactly when [j <= k]. *)
Definition negacyclicMatrixRowModQ (poly : list Z) (k n : nat) (q : Z)
  : option (list Z) :=
  mapM (fun j =>
          if (j <=? k)%nat then
            p ← poly !! (k - j)%nat; Some (jsmod p q)
          else
            p ← poly !! (k + n - j)%nat; Some (jsmod (- p) q))
       (seq 0 n).

(** [innerProductInt]: inner product over the integers. *)
Definition innerProductInt (row r : list Z) : option Z :=
  forM (fun i sum => x ← row !! i; y ← r !! i; Some (sum + x * y))
       (seq 0 (length row)) 0.

(** [encodeFieldToBytes]: the [numBytes] low bytes, little-endian. *)
Definition encodeFieldToBytes (value : Z) (numBytes : nat) : list Z :=
  map (fun i => Z.land (Z.shiftr value (Z.of_nat (i * 8))) 255)
      (seq 0 numBytes).

(** [signedToBn254]. *)
Definition signedToBn254 (v : Z) : Z := jsmod v BN254_P.

(** ** RLWE audit encryption *)

Record RlwePk := { pk_a : list Z; pk_b : list Z }.

Record RlweEncryptResult := {
  c0Sparse : list Z;
  c1 : list Z;
  rSigned : list Z;
  e1Signed : list Z;
  e2Signed : list Z;
  msg : list Z
}.

(** The message slots of [rlweEncrypt]: an array of [MSG_SLOTS] zeros
    overwritten with the 32 byte slots of [ownerX], then with those of
    [ownerY] from slot 32 on. *)
Definition encodeMsg (ownerX ownerY : Z) : list Z :=
  let msg0 := replicate MSG_SLOTS 0 in
  let slotsX := encodeFieldToBytes ownerX 32 in
  let msg1 :=
    fold_left (fun m i => <[i := nth i slotsX 0]> m) (seq 0 32) msg0 in
  let slotsY := encodeFieldToBytes ownerY 32 in
  fold_left (fun m i => <[(32 + i)%nat := nth i slotsY 0]> m) (seq 0 32) msg1.

(** The inner loop [ip = ((ip + row[j] * rModQ[j]) % Q + Q) % Q]. *)
Definition innerProductModQ (row rModQ : list Z) : option Z :=
  forM (fun j ip =>
          x ← row !! j; y ← rModQ !! j; Some (jsmod (ip + x * y) RLWE_Q))
       (seq 0 N) 0.

(** [rlweEncrypt], with the cached public key [pk] and the three noise
    vectors as inputs. *)
Definition rlweEncrypt (pk : RlwePk) (ownerX ownerY : Z)
    (rSigned e1Signed e2Signed : list Z) : option RlweEncryptResult :=
  let msg := encodeMsg ownerX ownerY in
  let rModQ := map (fun v => jsmod v RLWE_Q) rSigned in
  let e1ModQ := map (fun v => jsmod v RLWE_Q) e1Signed in
  let e2ModQ := map (fun v => jsmod v RLWE_Q) e2Signed in
  c0Sparse ← mapM (fun i =>
      row ← negacyclicMatrixRowModQ (pk_b pk) i N RLWE_Q;
      ip ← innerProductModQ row rModQ;
      e ← e1ModQ !! i;
      m ← msg !! i;
      Some (jsmod (ip + e + DELTA * m) RLWE_Q)) (seq 0 MSG_SLOTS);
  c1 ← mapM (fun i =>
      row ← negacyclicMatrixRowModQ (pk_a pk) i N RLWE_Q;
      ip ← innerProductModQ row rModQ;
      e ← e2ModQ !! i;
      Some (jsmod (ip + e) RLWE_Q)) (seq 0 N);
  Some {| c0Sparse := c0Sparse; c1 := c1; rSigned := rSigned;
          e1Signed := e1Signed; e2Signed := e2Signed; msg := msg |}.

Record QuotientResult := { k0 : list Z; k1 : list Z }.

(** The exact integer [fullVal] of slot [i] of [c0] and of [c1]. *)
Definition fullVal0 (pk : RlwePk) (rSigned e1Signed msg : list Z) (i : nat)
  : option Z :=
  row ← negacyclicMatrixRowModQ (pk_b pk) i N RLWE_Q;
  ipInt ← innerProductInt row rSigned;
  e ← e1Signed !! i;
  m ← msg !! i;
  Some (ipInt + e + DELTA * m).

Definition fullVal1 (pk : RlwePk) (rSigned e2Signed : list Z) (i : nat)
  : option Z :=
  row ← negacyclicMatrixRowModQ (pk_a pk) i N RLWE_Q;
  ipInt ← innerProductInt row rSigned;
  e ← e2Signed !! i;
  Some (ipInt + e).

(** [computeQuotients]: [k = (fullVal - c) / Q], a truncating division
    whose remainder is not looked at. *)
Definition computeQuotients (pk : RlwePk) (c0Sparse c1 : list Z)
    (rSigned e1Signed e2Signed msg : list Z) : option QuotientResult :=
  k0 ← mapM (fun i =>
      fullVal ← fullVal0 pk rSigned e1Signed msg i;
      c0Val ← c0Sparse !! i;
      Some ((fullVal - c0Val) ÷ RLWE_Q)) (seq 0 MSG_SLOTS);
  k1 ← mapM (fun i =>
      fullVal ← fullVal1 pk rSigned e2Signed i;
      c1Val ← c1 !! i;
      Some ((fullVal - c1Val) ÷ RLWE_Q)) (seq 0 N);
  Some {| k0 := k0; k1 := k1 |}.

(** ** Threshold decryption *)

Record ShareCoefficient := { x : Z; y : Z }.

Record ShareFile := {
  share_index : nat;
  threshold : nat;
  num_shares : nat;
  coefficients : list ShareCoefficient
}.

(** [shamirReconstructField]: Lagrange interpolation at 0 over the first
    [threshold] shares.  [num = ys[i]] may be undefined, and is then used
    by the product or by the final sum of the same iteration. *)
Definition shamirReconstructField (shares : list (Z * Z)) (threshold : nat)
  : option Z :=
  let xs := map fst (take threshold shares) in
  let ys := map snd (take threshold shares) in
  forM (fun i secret =>
          num ← ys !! i;
          num ← forM (fun j num =>
                  if decide (i = j) then Some num
                  else
                    xj ← xs !! j;
                    xi ← xs !! i;
                    let num :=
                      Z.rem (num * (Z.rem (- xj) BN254_P + BN254_P)) BN254_P in
                    let inv :=
                      modPow (Z.rem (Z.rem (xi - xj) BN254_P + BN254_P) BN254_P)
                             (BN254_P - 2) BN254_P in
                    Some (Z.rem (num * inv) BN254_P))
                (seq 0 threshold) num;
          Some (Z.rem (secret + num) BN254_P))
       (seq 0 threshold) 0.

(** [reconstructSk]: one interpolation per ring position, over the two
    share files, with the threshold the first file declares. *)
Definition reconstructSk (share1Data share2Data : ShareFile)
  : option (list Z) :=
  let threshold := threshold share1Data in
  mapM (fun coeffIdx =>
          c1 ← coefficients share1Data !! coeffIdx;
          c2 ← coefficients share2Data !! coeffIdx;
          let s1 := (x c1, y c1) in
          let s2 := (x c2, y c2) in
          val ← shamirReconstructField [s1; s2] threshold;
          let signed := centeredMod val BN254_P in
          Some (Z.rem (Z.rem signed RLWE_Q + RLWE_Q) RLWE_Q))
       (seq 0 N).

(** The slot recovered from [noisy]: centre, divide by [DELTA] rounding to
    the nearest integer (in tenths, truncating), reduce to a byte. *)
Definition recoverSlot (noisy : Z) : Z :=
  let noisyCentered := centeredMod noisy RLWE_Q in
  let val :=
    Z.rem
      (((noisyCentered * 10) ÷ DELTA
        + (if 0 <=? noisyCentered then 5 else -5)) ÷ 10)
      PLAINTEXT_MOD in
  Z.rem (Z.rem val 256 + 256) 256.

(** The loop [acc += BigInt(bytes[off + i] & 0xff) << BigInt(i * 8)]. *)
Definition assembleBytes (bytes : list Z) (off : nat) : option Z :=
  forM (fun i acc =>
          b ← bytes !! (off + i)%nat;
          Some (acc + Z.shiftl (Z.land b 255) (Z.of_nat (i * 8))))
       (seq 0 32) 0.

(** [rlweDecrypt]. *)
Definition rlweDecrypt (c0Sparse c1 skModQ : list Z) : option (Z * Z) :=
  skC1 ← negacyclicMulModQ skModQ c1 N RLWE_Q;
  msgRecovered ← mapM (fun i =>
      c ← c0Sparse !! i;
      s ← skC1 !! i;
      let noisy := Z.rem (c + s) RLWE_Q in
      Some (recoverSlot noisy)) (seq 0 MSG_SLOTS);
  ownerX ← assembleBytes msgRecovered 0;
  ownerY ← assembleBytes msgRecovered 32;
  Some (ownerX, ownerY).

(** ** Identity keypair *)

Definition BABYJUBJUB_P : Z :=
  21888242871839275222246405745257275088548364400416034343698204186575808495617.
Definition BABYJUBJUB_N : Z :=
  21888242871839275222246405745257275088696311157297823662689037894645226208583.

Definition MAX_128_BIT : Z := Z.shiftl 1 128 - 1.

Record IdentityKeypair := {
  secretKey : Z;
  publicKey : Z * Z
}.

Section Identity.
(** The curve of [@noble/curves]: its points, the generator
    [BabyJubJubCurve.BASE], scalar multiplication (which throws on a
    scalar it rejects) and the affine coordinates [x], [y]. *)
Variable Point : Type.
Variable BASE : Point.
Variable multiply : Point -> Z -> option Point.
Variable point_x point_y : Point -> Z.

(** [generateIdentityKeypair]. *)
Definition generateIdentityKeypair (secretKey : Z) : option IdentityKeypair :=
  let sk := Z.rem secretKey (MAX_128_BIT + 1) in
  pk ← multiply BASE sk;
  Some {| secretKey := sk; publicKey := (point_x pk, point_y pk) |}.
End Identity.

(** A one-dimensional stand-in for the curve, used to instantiate the
    section above: the additive group of integers modulo [BABYJUBJUB_N]
    with generator 1, and the scalar range check of the library. *)
Definition toy_multiply (p k : Z) : option Z :=
  if decide (1 <= k < BABYJUBJUB_N) then Some ((p * k) mod BABYJUBJUB_N)
  else None.

(** ** Merkle accumulator *)

Definition TREE_DEPTH : nat := 16.

Record ShieldedPoolMerkleTree := {
  leaves : list Z;
  defaultHashes : list Z
}.

(** The indices [j = 0, 2, 4, ...] below [width] of the pairing loop. *)
Definition evenIndices (width : nat) : list nat :=
  map (fun k => (2 * k)%nat) (seq 0 (Nat.div2 (S width))).

Section Merkle.
(** The Poseidon hash of two field elements, an external primitive. *)
Variable poseidonHash2 : Z -> Z -> Z.

(** The constructor: [defaultHashes[0] = 0n], and each further entry
    hashes the previous one with itself; no leaves. *)
Definition newTree : ShieldedPoolMerkleTree :=
  {| leaves := [];
     defaultHashes :=
       fold_left (fun dh i =>
                    let prev := nth (i - 1) dh 0 in
                    dh ++ [poseidonHash2 prev prev])
                 (seq 1 TREE_DEPTH) [0] |}.

(** [insert]: append, and return the index of the new leaf. *)
Definition insert (t : ShieldedPoolMerkleTree) (commitment : Z)
  : ShieldedPoolMerkleTree * nat :=
  ({| leaves := leaves t ++ [commitment];
      defaultHashes := defaultHashes t |},
   length (leaves t)).

(** The tree after inserting the commitments [cs] in order. *)
Definition treeOf (cs : list Z) : ShieldedPoolMerkleTree :=
  fold_left (fun t c => fst (insert t c)) cs newTree.

(** The pairing loop shared by [getRoot] and [getProof]: the next level
    up, [width] being [Math.pow(2, TREE_DEPTH - i)] and [dflt] the
    default hash [defaultHashes[i]] that [??] substitutes for a missing
    entry. *)
Definition nextLevelOf (dflt : Z) (width : nat) (currentLevel : list Z)
  : list Z :=
  map (fun j =>
         let left := default dflt (currentLevel !! j) in
         let right := default dflt (currentLevel !! (j + 1)%nat) in
         poseidonHash2 left right)
      (evenIndices width).

(** [getRoot]; the result is [currentLevel[0]], [None] if undefined. *)
Definition getRoot (t : ShieldedPoolMerkleTree) : option Z :=
  let currentLevel :=
    fold_left (fun currentLevel i =>
                 nextLevelOf (nth i (defaultHashes t) 0)
                             (2 ^ (TREE_DEPTH - i))%nat currentLevel)
              (seq 0 TREE_DEPTH) (leaves t) in
  currentLevel !! 0%nat.

(** [calculateRootAtLevel]. *)
Fixpoint calculateRootAtLevel (t : ShieldedPoolMerkleTree)
    (level index : nat) : Z :=
  match level with
  | O => default 0 (leaves t !! index)
  | S level' =>
      let left := calculateRootAtLevel t level' (index * 2)%nat in
      let right := calculateRootAtLevel t level' (index * 2 + 1)%nat in
      poseidonHash2 left right
  end.

(** [getRootOptimized]. *)
Definition getRootOptimized (t : ShieldedPoolMerkleTree) : Z :=
  calculateRootAtLevel t TREE_DEPTH 0.

(** [getProof]: the loop state is [(proof, currentIdx, currentLevel)]. *)
Definition getProof (t : ShieldedPoolMerkleTree) (index : nat) : list Z :=
  let '(proof, _, _) :=
    fold_left (fun '(proof, currentIdx, currentLevel) i =>
                 let isRight := (currentIdx mod 2 =? 1)%nat in
                 let siblingIdx :=
                   if isRight then (currentIdx - 1)%nat
                   else (currentIdx + 1)%nat in
                 let sibling :=
                   default (nth i (defaultHashes t) 0)
                           (currentLevel !! siblingIdx) in
                 (proof ++ [sibling],
                  (currentIdx / 2)%nat,
                  nextLevelOf (nth i (defaultHashes t) 0)
                              (2 ^ (TREE_DEPTH - i))%nat currentLevel))
              (seq 0 TREE_DEPTH) ([], index, leaves t) in
  proof.

(** The verifier's side of a membership proof: fold the path upward from
    the leaf, the bits of the index choosing the side of each sibling. *)
Fixpoint recombine (node : Z) (index : nat) (proof : list Z) : Z :=
  match proof with
  | [] => node
  | sibling :: proof' =>
      recombine (if (index mod 2 =? 1)%nat
                 then poseidonHash2 sibling node
                 else poseidonHash2 node sibling)
                (index / 2)%nat proof'
  end.

(** The invariant of the bottom-up loops, for a tree of depth [D]: entry
    [k] of level [i], after the default substitution, is the hash of the
    subtree number [k] of height [i]. *)
Definition levelInv (D : nat) (t : ShieldedPoolMerkleTree) (i : nat)
    (cur : list Z) : Prop :=
  forall k, (k < 2 ^ (D - i))%nat ->
            default (nth i (defaultHashes t) 0) (cur !! k)
            = calculateRootAtLevel t i k.
End Merkle.

(** ** Mathematical counterparts

    The ring [Z_Q[X]/(X^n + 1)] written with finite sums, against which the
    loops above are characterised. *)

(** [sumZ n f] is the sum of [f i] over [0 <= i < n]. *)
Fixpoint sumZ (n : nat) (f : nat -> Z) : Z :=
  match n with
  | O => 0
  | S m => sumZ m f + f m
  end.

(** Coefficient [i] of a ring element given as an array, 0 past its end. *)
Definition coef (a : list Z) (i : nat) : Z := default 0 (a !! i).

(** The sign with which [X^t] contributes to [X^k] modulo [X^n + 1], for
    [t < 2n] and [k < n]. *)
Definition wrapSign (n t k : nat) : Z :=
  if (t =? k)%nat then 1 else if (t =? k + n)%nat then -1 else 0.

(** Coefficient [k] of the negacyclic product of [a] and [b]. *)
Definition nconv (n : nat) (a b : nat -> Z) (k : nat) : Z :=
  sumZ n (fun i => sumZ n (fun j => wrapSign n (i + j) k * (a i * b j))).

(** Entry [(k, j)] of the negacyclic matrix of [a], before reduction. *)
Definition nrow (n : nat) (a : nat -> Z) (k j : nat) : Z :=
  if (j <=? k)%nat then a (k - j)%nat else - a (k + n - j)%nat.

(** The inner product of two coefficient sequences over [0 <= j < n]. *)
Definition dot (n : nat) (u v : nat -> Z) : Z :=
  sumZ n (fun j => u j * v j).

(** An array of [n] coefficients reduced modulo [q]. *)
Definition ringOf (n : nat) (q : Z) (g : nat -> Z) : list Z :=
  map (fun k => g k mod q) (seq 0 n).

(** The value of 32 little-endian bytes starting at [off]. *)
Definition bytesValue (bytes : nat -> Z) (off : nat) : Z :=
  sumZ 32 (fun i => bytes (off + i)%nat * 2 ^ Z.of_nat (i * 8)).

(** Slot [i] of the two ciphertext components, from the key, the noise
    and the message taken as coefficient sequences. *)
Definition encC0 (b r e1 m : nat -> Z) (i : nat) : Z :=
  (nconv N b r i + e1 i + DELTA * m i) mod RLWE_Q.

Definition encC1 (a r e2 : nat -> Z) (i : nat) : Z :=
  (nconv N a r i + e2 i) mod RLWE_Q.

(** The exact integers that [computeQuotients] divides. *)
Definition full0 (b r e1 m : nat -> Z) (i : nat) : Z :=
  dot N (fun j => nrow N b i j mod RLWE_Q) r + e1 i + DELTA * m i.

Definition full1 (a r e2 : nat -> Z) (i : nat) : Z :=
  dot N (fun j => nrow N a i j mod RLWE_Q) r + e2 i.

(** Byte [i] of an integer, little-endian. *)
Definition byteOf (v : Z) (i : nat) : Z :=
  Z.land (Z.shiftr v (Z.of_nat (i * 8))) 255.

(** The message slots as a sequence: the bytes of [ownerX], then those of
    [ownerY]. *)
Definition msgOf (ownerX ownerY : Z) (i : nat) : Z :=
  if (i <? 32)%nat then byteOf ownerX i else byteOf ownerY (i - 32).

(** One Lagrange term of [shamirReconstructField] for two shares: the
    share [(xi, yi)] against the other abscissa [xj]. *)
Definition lagrangeTerm (xi yi xj : Z) : Z :=
  Z.rem
    (Z.rem (yi * (Z.rem (- xj) BN254_P + BN254_P)) BN254_P
     * modPow (Z.rem (Z.rem (xi - xj) BN254_P + BN254_P) BN254_P)
              (BN254_P - 2) BN254_P)
    BN254_P.

(** The value [shamirReconstructField [s1; s2] 2] computes. *)
Definition shamirTwo (x1 y1 x2 y2 : Z) : Z :=
  Z.rem (Z.rem (0 + lagrangeTerm x1 y1 x2) BN254_P + lagrangeTerm x2 y2 x1)
        BN254_P.

(** Coefficient [k] of a share file, a zero share past its end. *)
Definition shareAt (s : ShareFile) (k : nat) : ShareCoefficient :=
  default {| x := 0; y := 0 |} (coefficients s !! k).

(** The ring coefficient [reconstructSk] derives at position [k] from two
    share files with threshold 2. *)
Definition skCoef (s1 s2 : ShareFile) (k : nat) : Z :=
  let c1 := shareAt s1 k in
  let c2 := shareAt s2 k in
  jsmod (centeredMod (shamirTwo (x c1) (y c1) (x c2) (y c2)) BN254_P) RLWE_Q.

(** At every ring position, the share [s] is a point of the line
    [c0 + c1 * X] over the field. *)
Definition onLine (c0 c1 : nat -> Z) (s : ShareFile) : Prop :=
  forall k, (k < N)%nat ->
    y (shareAt s k) mod BN254_P
    = (c0 k + c1 k * x (shareAt s k)) mod BN254_P.

(** At every ring position, the two shares have distinct abscissas in the
    field. *)
Definition distinctX (s1 s2 : ShareFile) : Prop :=
  forall k, (k < N)%nat ->
    (x (shareAt s1 k) - x (shareAt s2 k)) mod BN254_P <> 0.

(** The sign with which [X^t] contributes to [X^k] modulo [X^n + 1], for
    [t < 3n] and [k < n]: products of three ring elements. *)
Definition wrapSign3 (n t k : nat) : Z :=
  if (t =? k)%nat then 1
  else if (t =? k + n)%nat then -1
  else if (t =? k + 2 * n)%nat then 1
  else 0.

(** Slot [i] as [rlweDecrypt] recovers it from the ciphertext and the
    secret key, taken as coefficient sequences. *)
Definition decSlot (c0 c1 sk : nat -> Z) (i : nat) : Z :=
  recoverSlot (Z.rem (c0 i + nconv N sk c1 i mod RLWE_Q) RLWE_Q).

(** The centred representative of coefficient [k] of the secret key. *)
Definition secretCoef (skModQ : list Z) (k : nat) : Z :=
  centeredMod (coef skModQ k) RLWE_Q.

(** The centred representative of coefficient [k] of [b + a * s] in
    [Z_Q[X]/(X^N + 1)]: the noise of the public key [(a, b)] under the
    secret key [s]. *)
Definition keyNoise (pk : RlwePk) (skModQ : list Z) (k : nat) : Z :=
  centeredMod
    (coef (pk_b pk) k + nconv N (coef (pk_a pk)) (coef skModQ) k) RLWE_Q.

(** ** Primality certificates

    [modPow] inverts modulo [BN254_P] only because [BN254_P] is prime.
    Small primes are checked by trial division, large ones by Pocklington's
    criterion on a partial factorisation of [n - 1]. *)

(** No [k >= d] with [k * k <= n] divides [n]. *)
Fixpoint noDivisorFrom (n d : Z) (fuel : nat) : bool :=
  match fuel with
  | O => false
  | S fuel' =>
      if n <? d * d then true
      else if n mod d =? 0 then false
      else noDivisorFrom n (d + 1) fuel'
  end.

Definition trialPrime (n : Z) : bool :=
  (1 <? n) && noDivisorFrom n 2 (S (Z.to_nat (Z.sqrt n))).

(** A certificate is a list of [(q, e, a)]: the prime power [q ^ e] divides
    [n - 1], and [a] witnesses it. *)
Definition certF (cert : list (Z * nat * Z)) : Z :=
  fold_right (fun '(q, e, _) acc => q ^ Z.of_nat e * acc) 1 cert.

Fixpoint pockItems (n : Z) (cert : list (Z * nat * Z)) : bool :=
  match cert with
  | [] => true
  | (q, e, a) :: rest =>
      (0 <? e)%nat
      && ((n - 1) mod q ^ Z.of_nat e =? 0)
      && (Zpow_mod a (n - 1) n =? 1)
      && (Z.gcd (Zpow_mod a ((n - 1) / q) n - 1) n =? 1)
      && (Z.gcd (q ^ Z.of_nat e) (certF rest) =? 1)
      && pockItems n rest
  end.

Definition pockCheck (n : Z) (cert : list (Z * nat * Z)) : bool :=
  (1 <? n) && (n <? certF cert * certF cert) && pockItems n cert.

Definition cert_12048837557 : list (Z * nat * Z) :=
  [(2, 2%nat, 2); (7, 2%nat, 2); (661, 1%nat, 2)].
Definition cert_5156902474397 : list (Z * nat * Z) :=
  [(2, 2%nat, 2); (107, 1%nat, 2); (12048837557, 1%nat, 2)].
Definition cert_1670836401704629 : list (Z * nat * Z) :=
  [(2, 2%nat, 2); (3, 4%nat, 2); (5156902474397, 1%nat, 2)].
Definition cert_BN254_P : list (Z * nat * Z) :=
  [(2, 28%nat, 5); (3, 2%nat, 3); (13, 1%nat, 5); (29, 1%nat, 2);
   (983, 1%nat, 2); (11003, 1%nat, 2); (237073, 1%nat, 2);
   (405928799, 1%nat, 2); (1670836401704629, 1%nat, 2)].

(** ** Noise sampling and the decryption flow *)

(** [smallNoise], with the random byte [arr[0]] that
    [crypto.getRandomValues] wrote as its input. *)
Definition smallNoise (byte : Z) : Z := Z.rem byte 7 - 3.

(** The sampling [Array.from({ length }, () => smallNoise())]: one random
    byte per sample, taken in order from the stream [rand]; the rest of
    the stream is returned. *)
Definition sampleNoise (length : nat) (rand : list Z) : list Z * list Z :=
  (map smallNoise (take length rand), drop length rand).

(** [rlweEncrypt] with its own sampling: [rSigned], [e1Signed] and
    [e2Signed] are drawn, in this order, from the random bytes [rand]. *)
Definition rlweEncryptSampled (pk : RlwePk) (ownerX ownerY : Z)
    (rand : list Z) : option RlweEncryptResult :=
  let '(rSigned, rand) := sampleNoise N rand in
  let '(e1Signed, rand) := sampleNoise MSG_SLOTS rand in
  let '(e2Signed, _) := sampleNoise N rand in
  rlweEncrypt pk ownerX ownerY rSigned e1Signed e2Signed.

(** [decryptFromShares], with the two share files that
    [loadBundledShares] fetches as inputs. *)
Definition decryptFromShares (share1 share2 : ShareFile)
    (c0Sparse c1 : list Z) : option (Z * Z) :=
  skModQ ← reconstructSk share1 share2;
  rlweDecrypt c0Sparse c1 skModQ.

(** ** Field elements as text

    A JavaScript string is a sequence of UTF-16 code units, here a
    [list Z]: 34 is the double quote, 45 the minus sign, 48 to 57 the
    digits [0] to [9], 97 to 102 the letters [a] to [f], 120 is [x]. *)

(** The digit character of [BigInt.prototype.toString(16)]. *)
Definition hexDigit (d : Z) : Z := if d <? 10 then 48 + d else 87 + d.

(** The digits of a non-negative [v], most significant first, pushed in
    front of [acc]; [fuel] bounds the number of digits. *)
Fixpoint hexLoop (fuel : nat) (v : Z) (acc : list Z) : list Z :=
  match fuel with
  | O => acc
  | S fuel' =>
      if v <? 16 then hexDigit v :: acc
      else hexLoop fuel' (v / 16) (hexDigit (v mod 16) :: acc)
  end.

(** [v.toString(16)] on a [bigint]: no leading zeros, [0] for zero, a
    minus sign in front of the digits of a negative value. *)
Definition toString16 (v : Z) : list Z :=
  if v <? 0 then 45 :: hexLoop (S (Z.to_nat (Z.log2 (- v)))) (- v) []
  else hexLoop (S (Z.to_nat (Z.log2 v))) v [].

(** [s.padStart(targetLength, c)] for a one-character pad [c]. *)
Definition padStart (s : list Z) (targetLength : nat) (c : Z) : list Z :=
  replicate (targetLength - length s) c ++ s.

(** [formatField]. *)
Definition formatField (v : Z) : list Z :=
  let mod_ := Z.rem (Z.rem v BN254_P + BN254_P) BN254_P in
  if mod_ =? 0 then [34; 48; 34]
  else [34; 48; 120] ++ padStart (toString16 mod_) 64 48 ++ [34].

(** The number that a sequence of hexadecimal digits denotes. *)
Definition hexValue (digits : list Z) : Z :=
  fold_left (fun a d => 16 * a + d) digits 0.

(** ** Further mathematical counterparts *)

(** An array of [n] integer coefficients, not reduced. *)
Definition intRingOf (n : nat) (g : nat -> Z) : list Z := map g (seq 0 n).

(** The ring's unit as an array of [n] coefficients: 1 at position 0. *)
Definition unitPoly (n : nat) : list Z := 1 :: replicate (n - 1) 0.

(** The monomial [X] as an array of [n >= 2] coefficients. *)
Definition xPoly (n : nat) : list Z := 0 :: 1 :: replicate (n - 2) 0.

(** * Basic facts on the arithmetic idioms *)

Lemma jsmod_mod (v q : Z) : 0 < q -> jsmod v q = v mod q.
Proof.
  intros Hq. unfold jsmod.
  assert (Hr : - q < Z.rem v q < q).
  { pose proof (Z.rem_bound_abs v q). lia. }
  rewrite Z.rem_mod_nonneg by lia.
  rewrite Z.add_mod by lia.
  rewrite Z.mod_same by lia. rewrite Z.add_0_r.
  rewrite Z.mod_mod by lia.
  destruct (Z_le_gt_dec 0 v) as [Hv | Hv].
  - rewrite Z.rem_mod_nonneg by lia. apply Z.mod_mod; lia.
  - assert (Hrem : Z.rem v q = - ((- v) mod q)).
    { rewrite <- (Z.rem_mod_nonneg (- v) q) by lia.
      pose proof (Z.rem_opp_l' v q). lia. }
    rewrite Hrem.
    rewrite <- (Z.opp_involutive v) at 2.
    destruct (Z.eq_dec ((- v) mod q) 0) as [E | E].
    + rewrite E. simpl. rewrite Z.mod_0_l by lia.
      symmetry. apply Z.mod_opp_l_z; lia.
    + rewrite (Z.mod_opp_l_nz (- v) q) by lia.
      pose proof (Z.mod_pos_bound (- v) q Hq).
      rewrite (Z.mod_opp_l_nz _ q); rewrite ?Z.mod_mod by lia; try lia.
Qed.

Lemma jsmod_bound (v q : Z) : 0 < q -> 0 <= jsmod v q < q.
Proof. intros Hq. rewrite jsmod_mod by lia. apply Z.mod_pos_bound; lia. Qed.

Lemma RLWE_Q_pos : 0 < RLWE_Q.
Proof. reflexivity. Qed.

Lemma BN254_P_pos : 0 < BN254_P.
Proof. reflexivity. Qed.

Lemma DELTA_value : DELTA = 655360.
Proof. reflexivity. Qed.

Lemma centeredMod_eq (v q : Z) :
  0 < q ->
  centeredMod v q = if q / 2 <? v mod q then v mod q - q else v mod q.
Proof.
  intros Hq. unfold centeredMod. fold (jsmod v q).
  rewrite jsmod_mod by lia.
  rewrite Z.quot_div_nonneg by lia. reflexivity.
Qed.

(** C8. For every integer [v] and every positive modulus [q],
    [centeredMod v q] is congruent to [v] modulo [q] and lies in the
    interval (-q/2, q/2]; for odd [q] that is
    [-(q-1)/2 <= centeredMod v q <= (q-1)/2]. *)
Theorem centeredMod_spec (v q : Z) :
  0 < q ->
  (centeredMod v q) mod q = v mod q /\
  - q < 2 * centeredMod v q <= q /\
  (Z.odd q = true ->
   - ((q - 1) / 2) <= centeredMod v q <= (q - 1) / 2).
Proof.
  intros Hq. rewrite centeredMod_eq by lia.
  pose proof (Z.mod_pos_bound v q Hq) as Hb.
  pose proof (Z.div_mod q 2 ltac:(lia)) as Hd.
  pose proof (Z.mod_pos_bound q 2 ltac:(lia)) as Hd2.
  assert (Hhalf : Z.odd q = true -> (q - 1) / 2 = q / 2).
  { intros Hodd. apply Z.odd_spec in Hodd. destruct Hodd as [m Hm].
    transitivity m; [symmetry |].
    - apply Z.div_unique with (r := 0); lia.
    - apply Z.div_unique with (r := 1); lia. }
  destruct (Z.ltb_spec (q / 2) (v mod q)) as [Hlt | Hge].
  - split; [| split].
    + replace (v mod q - q) with (v mod q + (-1) * q) by lia.
      rewrite Z.mod_add by lia. apply Z.mod_mod; lia.
    + lia.
    + intros Hodd. rewrite (Hhalf Hodd). lia.
  - split; [| split].
    + apply Z.mod_mod; lia.
    + lia.
    + intros Hodd. rewrite (Hhalf Hodd). lia.
Qed.

Lemma centeredMod_spec_witness :
  (centeredMod (-200) 7) mod 7 = (-200) mod 7 /\
  - 7 < 2 * centeredMod (-200) 7 <= 7 /\
  (Z.odd 7 = true -> - ((7 - 1) / 2) <= centeredMod (-200) 7 <= (7 - 1) / 2).
Proof. apply (centeredMod_spec (-200) 7). lia. Defined.

(** * Identity keypair *)

Section IdentityProperties.
Variable Point : Type.
Variable BASE : Point.
Variable multiply : Point -> Z -> option Point.
Variable point_x point_y : Point -> Z.

(** The contract of the curve library: scalar multiplication accepts
    exactly the scalars [1 <= k < n], and throws on every other one. *)
Hypothesis multiply_range :
  forall (p : Point) (k : Z),
    is_Some (multiply p k) <-> 1 <= k < BABYJUBJUB_N.

(** C10. [generateIdentityKeypair] is partial on field-element seeds: on
    a multiple of 2^128 the reduced scalar is 0, the scalar
    multiplication throws, and no keypair is returned; on every other
    seed it returns [secretKey = seed mod 2^128], which is below 2^128,
    and [publicKey = secretKey * G]. *)
Theorem generateIdentityKeypair_partial (seed : Z) :
  0 <= seed ->
  (seed mod 2 ^ 128 = 0 ->
   generateIdentityKeypair Point BASE multiply point_x point_y seed = None)
  /\
  (seed mod 2 ^ 128 <> 0 ->
   exists pk : Point,
     multiply BASE (seed mod 2 ^ 128) = Some pk /\
     generateIdentityKeypair Point BASE multiply point_x point_y seed
     = Some {| secretKey := seed mod 2 ^ 128;
               publicKey := (point_x pk, point_y pk) |} /\
     0 < seed mod 2 ^ 128 < 2 ^ 128).
Proof.
  intros Hseed. unfold generateIdentityKeypair.
  replace (MAX_128_BIT + 1) with (2 ^ 128) by reflexivity.
  rewrite Z.rem_mod_nonneg by lia.
  pose proof (Z.mod_pos_bound seed (2 ^ 128) ltac:(lia)) as Hb.
  split.
  - intros H0. rewrite H0.
    destruct (multiply BASE 0) as [pk |] eqn:E; [| reflexivity].
    assert (Hs : is_Some (multiply BASE 0)) by (rewrite E; eauto).
    apply multiply_range in Hs. lia.
  - intros Hnz.
    assert (Hs : is_Some (multiply BASE (seed mod 2 ^ 128))).
    { apply multiply_range. unfold BABYJUBJUB_N. lia. }
    destruct Hs as [pk Hpk]. exists pk. rewrite Hpk.
    split; [reflexivity |]. split; [reflexivity | lia].
Qed.
End IdentityProperties.

Lemma toy_multiply_range (p k : Z) :
  is_Some (toy_multiply p k) <-> 1 <= k < BABYJUBJUB_N.
Proof.
  unfold toy_multiply. destruct (decide (1 <= k < BABYJUBJUB_N)) as [Hk | Hk].
  - split; [intros _; exact Hk | intros _; eauto].
  - split; [intros [pk Hpk]; discriminate | intros Hk'; contradiction].
Qed.

Lemma generateIdentityKeypair_partial_witness :
  let seed := 3 * 2 ^ 128 + 5 in
  (seed mod 2 ^ 128 = 0 ->
   generateIdentityKeypair Z 1 toy_multiply id id seed = None)
  /\
  (seed mod 2 ^ 128 <> 0 ->
   exists pk : Z,
     toy_multiply 1 (seed mod 2 ^ 128) = Some pk /\
     generateIdentityKeypair Z 1 toy_multiply id id seed
     = Some {| secretKey := seed mod 2 ^ 128; publicKey := (id pk, id pk) |} /\
     0 < seed mod 2 ^ 128 < 2 ^ 128).
Proof.
  apply (generateIdentityKeypair_partial Z 1 toy_multiply id id
           toy_multiply_range (3 * 2 ^ 128 + 5)).
  lia.
Defined.

(** * The Merkle accumulator *)

Section MerkleProperties.
Variable H : Z -> Z -> Z.

Local Abbreviation node t := (calculateRootAtLevel H t).
Local Abbreviation dh t i := (nth i (defaultHashes t) 0).
Local Abbreviation levelInv := (levelInv H).

Lemma evenIndices_double (m : nat) :
  evenIndices (2 * m) = map (fun k => (2 * k)%nat) (seq 0 m).
Proof.
  unfold evenIndices. f_equal. f_equal.
  apply Nat.div2_succ_double.
Qed.

Lemma nextLevelOf_nodes D t i cur :
  (i < D)%nat ->
  levelInv D t i cur ->
  nextLevelOf H (dh t i) (2 ^ (D - i)) cur
  = map (node t (S i)) (seq 0 (2 ^ (D - S i))).
Proof.
  intros Hi Hinv. unfold nextLevelOf.
  replace (D - i)%nat with (S (D - S i)) by lia.
  rewrite Nat.pow_succ_r'. rewrite evenIndices_double.
  rewrite map_map. apply map_ext_in. intros k Hk.
  apply in_seq in Hk. cbn [calculateRootAtLevel].
  assert (Hw : (2 ^ (D - i) = 2 * 2 ^ (D - S i))%nat).
  { replace (D - i)%nat with (S (D - S i)) by lia.
    apply Nat.pow_succ_r'. }
  rewrite !Hinv by lia.
  f_equal; f_equal; lia.
Qed.

Lemma levelInv_nodes D t i :
  levelInv D t i (map (node t i) (seq 0 (2 ^ (D - i)))).
Proof.
  intros k Hk. rewrite list_lookup_fmap.
  rewrite lookup_seq_lt by lia. reflexivity.
Qed.

Lemma levels_fold D t m : forall i cur,
  (i + m <= D)%nat ->
  levelInv D t i cur ->
  let cur' :=
    fold_left (fun c j => nextLevelOf H (dh t j) (2 ^ (D - j)) c)
              (seq i m) cur in
  levelInv D t (i + m) cur' /\
  ((0 < m)%nat -> cur' = map (node t (i + m)) (seq 0 (2 ^ (D - (i + m))))).
Proof.
  induction m as [| m IH]; intros i cur Hle Hinv; cbn [seq fold_left].
  - rewrite Nat.add_0_r. split; [exact Hinv | lia].
  - pose proof (nextLevelOf_nodes D t i cur ltac:(lia) Hinv) as Hstep.
    rewrite Hstep.
    destruct (IH (S i) (map (node t (S i)) (seq 0 (2 ^ (D - S i))))
                 ltac:(lia) (levelInv_nodes D t (S i))) as [IHinv IHeq].
    replace (i + S m)%nat with (S i + m)%nat by lia.
    split; [exact IHinv |]. intros _.
    destruct m as [| m'].
    + cbn [seq fold_left]. rewrite Nat.add_0_r. reflexivity.
    + apply IHeq. lia.
Qed.

Lemma defaultHashes_head (l : list nat) : forall tl : list Z,
  nth 0 (fold_left (fun dh i =>
                      let prev := nth (i - 1) dh 0 in
                      dh ++ [H prev prev]) l (0 :: tl)) 0 = 0.
Proof.
  induction l as [| i l IH]; intros tl; cbn [fold_left]; [reflexivity |].
  cbv zeta. rewrite <- app_comm_cons. apply IH.
Qed.

Lemma newTree_default0 : dh (newTree H) 0 = 0.
Proof. unfold newTree; cbn [defaultHashes]. apply defaultHashes_head. Qed.

Lemma treeOf_fold (cs : list Z) : forall t,
  leaves (fold_left (fun t c => fst (insert t c)) cs t) = leaves t ++ cs /\
  defaultHashes (fold_left (fun t c => fst (insert t c)) cs t)
  = defaultHashes t.
Proof.
  induction cs as [| c cs IH]; intros t; cbn [fold_left].
  - rewrite app_nil_r. auto.
  - destruct (IH (fst (insert t c))) as [Hl Hd].
    rewrite Hl, Hd. cbn. rewrite <- app_assoc. auto.
Qed.

Lemma treeOf_leaves (cs : list Z) : leaves (treeOf H cs) = cs.
Proof. unfold treeOf. rewrite (proj1 (treeOf_fold cs _)). reflexivity. Qed.

Lemma treeOf_default0 (cs : list Z) : dh (treeOf H cs) 0 = 0.
Proof.
  unfold treeOf. rewrite (proj2 (treeOf_fold cs _)). apply newTree_default0.
Qed.

Lemma levelInv_leaves D t :
  dh t 0 = 0 -> levelInv D t 0 (leaves t).
Proof. intros Hd k _. rewrite Hd. reflexivity. Qed.

Lemma getRoot_node (t : ShieldedPoolMerkleTree) :
  dh t 0 = 0 -> getRoot H t = Some (getRootOptimized H t).
Proof.
  intros Hd. unfold getRoot, getRootOptimized.
  destruct (levels_fold TREE_DEPTH t TREE_DEPTH 0 (leaves t)
              ltac:(lia) (levelInv_leaves _ t Hd)) as [_ Heq].
  cbv zeta in Heq. rewrite Heq by (unfold TREE_DEPTH; lia).
  rewrite Nat.add_0_l, Nat.sub_diag. reflexivity.
Qed.

(** C4. For every sequence of inserted commitments (in particular every
    one of at most 2^16), [getRoot] and [getRootOptimized] return the same
    value. *)
Theorem getRoot_eq_getRootOptimized (cs : list Z) :
  getRoot H (treeOf H cs) = Some (getRootOptimized H (treeOf H cs)).
Proof. apply getRoot_node, treeOf_default0. Qed.

(** The loop of [getProof], from level [i] on. *)
Lemma proof_fold D t m : forall i proof idx cur,
  (i + m <= D)%nat ->
  levelInv D t i cur ->
  (idx < 2 ^ (D - i))%nat ->
  exists path idx' cur',
    fold_left (fun '(proof, currentIdx, currentLevel) j =>
                 (proof ++ [default (dh t j)
                              (currentLevel !!
                                 (if (currentIdx mod 2 =? 1)%nat
                                  then (currentIdx - 1)%nat
                                  else (currentIdx + 1)%nat))],
                  (currentIdx / 2)%nat,
                  nextLevelOf H (dh t j) (2 ^ (D - j)) currentLevel))
              (seq i m) (proof, idx, cur)
    = (proof ++ path, idx', cur') /\
    length path = m /\
    (idx' < 2 ^ (D - (i + m)))%nat /\
    recombine H (node t i idx) idx path = node t (i + m) idx'.
Proof.
  induction m as [| m IH]; intros i proof idx cur Hle Hinv Hidx;
    cbn [seq fold_left].
  - exists [], idx, cur. rewrite app_nil_r, Nat.add_0_r. auto.
  - assert (Hw : (2 ^ (D - i) = 2 * 2 ^ (D - S i))%nat).
    { replace (D - i)%nat with (S (D - S i)) by lia.
      apply Nat.pow_succ_r'. }
    pose proof (Nat.div_mod idx 2 ltac:(lia)) as Hdm.
    pose proof (Nat.mod_upper_bound idx 2 ltac:(lia)) as Hm2.
    set (sib := if (idx mod 2 =? 1)%nat then (idx - 1)%nat
                else (idx + 1)%nat).
    assert (Hsib : (sib < 2 ^ (D - i))%nat).
    { subst sib. destruct (Nat.eqb_spec (idx mod 2) 1); lia. }
    rewrite (Hinv sib Hsib).
    rewrite (nextLevelOf_nodes D t i cur ltac:(lia) Hinv).
    destruct (IH (S i) (proof ++ [node t i sib]) (idx / 2)%nat
                 (map (node t (S i)) (seq 0 (2 ^ (D - S i))))
                 ltac:(lia) (levelInv_nodes D t (S i)) ltac:(lia))
      as (path & idx' & cur' & Hfold & Hlen & Hlt & Hrec).
    exists (node t i sib :: path), idx', cur'.
    rewrite Hfold. rewrite <- app_assoc. cbn [app length recombine].
    replace (i + S m)%nat with (S i + m)%nat by lia.
    repeat split; [congruence | exact Hlt |].
    rewrite <- Hrec. f_equal. cbn [calculateRootAtLevel].
    subst sib. destruct (Nat.eqb_spec (idx mod 2) 1) as [Hodd | Heven].
    + f_equal; f_equal; lia.
    + f_equal; f_equal; lia.
Qed.

(** C7. In a tree holding [n <= 2^16] leaves, for every leaf index
    [j < n], [getProof j] is a path of exactly 16 siblings, and folding
    the leaf upward along it with [poseidonHash2], sides chosen by the
    bits of [j], gives the value [getRoot] returns. *)
Theorem getProof_recombines (cs : list Z) (j : nat) (leaf : Z) :
  (length cs <= 2 ^ 16)%nat ->
  cs !! j = Some leaf ->
  length (getProof H (treeOf H cs) j) = 16%nat /\
  getRoot H (treeOf H cs)
  = Some (recombine H leaf j (getProof H (treeOf H cs) j)).
Proof.
  intros Hn Hj.
  pose proof (lookup_lt_Some _ _ _ Hj) as Hlt.
  set (t := treeOf H cs).
  assert (Hd : dh t 0 = 0) by apply treeOf_default0.
  destruct (proof_fold TREE_DEPTH t TREE_DEPTH 0 [] j (leaves t)
              ltac:(lia) (levelInv_leaves _ t Hd))
    as (path & idx' & cur' & Hfold & Hlen & Hidx & Hrec).
  { rewrite Nat.sub_0_r. unfold TREE_DEPTH. lia. }
  unfold getProof. rewrite Hfold. cbn [app].
  split; [exact Hlen |].
  rewrite getRoot_node by exact Hd. f_equal.
  rewrite Nat.add_0_l, Nat.sub_diag in Hidx. cbn in Hidx.
  assert (idx' = 0%nat) by lia. subst idx'.
  rewrite Nat.add_0_l in Hrec.
  unfold getRootOptimized. rewrite <- Hrec.
  cbn [calculateRootAtLevel]. subst t. rewrite treeOf_leaves, Hj.
  reflexivity.
Qed.
End MerkleProperties.

Lemma getProof_recombines_witness :
  length (getProof Z.add (treeOf Z.add [5; 7; 11]) 1) = 16%nat /\
  getRoot Z.add (treeOf Z.add [5; 7; 11])
  = Some (recombine Z.add 7 1 (getProof Z.add (treeOf Z.add [5; 7; 11]) 1)).
Proof.
  apply (getProof_recombines Z.add [5; 7; 11] 1 7).
  - cbn [length]. apply Nat.lt_le_incl, (Nat.lt_le_trans _ 16).
    + lia.
    + apply Nat.lt_le_incl, Nat.pow_gt_lin_r. lia.
  - reflexivity.
Defined.

(** * Finite sums *)

Lemma sumZ_ext (n : nat) (f g : nat -> Z) :
  (forall i, (i < n)%nat -> f i = g i) -> sumZ n f = sumZ n g.
Proof.
  induction n as [| n IH]; intros Hfg; cbn [sumZ]; [reflexivity |].
  rewrite IH by (intros i Hi; apply Hfg; lia).
  rewrite (Hfg n) by lia. reflexivity.
Qed.

Lemma sumZ_zero (n : nat) (f : nat -> Z) :
  (forall i, (i < n)%nat -> f i = 0) -> sumZ n f = 0.
Proof.
  induction n as [| n IH]; intros Hf; cbn [sumZ]; [reflexivity |].
  rewrite IH by (intros i Hi; apply Hf; lia).
  rewrite (Hf n) by lia. reflexivity.
Qed.

Lemma sumZ_add (n : nat) (f g : nat -> Z) :
  sumZ n (fun i => f i + g i) = sumZ n f + sumZ n g.
Proof. induction n as [| n IH]; cbn [sumZ]; [reflexivity | rewrite IH; lia]. Qed.

Lemma sumZ_scale_l (n : nat) (c : Z) (f : nat -> Z) :
  sumZ n (fun i => c * f i) = c * sumZ n f.
Proof. induction n as [| n IH]; cbn [sumZ]; [lia | rewrite IH; lia]. Qed.

Lemma sumZ_scale_r (n : nat) (c : Z) (f : nat -> Z) :
  sumZ n (fun i => f i * c) = sumZ n f * c.
Proof. induction n as [| n IH]; cbn [sumZ]; [lia | rewrite IH; lia]. Qed.

Lemma sumZ_swap (n m : nat) (f : nat -> nat -> Z) :
  sumZ n (fun i => sumZ m (fun j => f i j))
  = sumZ m (fun j => sumZ n (fun i => f i j)).
Proof.
  induction n as [| n IH]; cbn [sumZ].
  - symmetry. apply sumZ_zero. reflexivity.
  - rewrite IH. rewrite <- sumZ_add. reflexivity.
Qed.

Lemma sumZ_single (n : nat) (f : nat -> Z) (j0 : nat) :
  (j0 < n)%nat ->
  (forall j, (j < n)%nat -> j <> j0 -> f j = 0) ->
  sumZ n f = f j0.
Proof.
  induction n as [| n IH]; intros Hj0 Hf; [lia |]. cbn [sumZ].
  destruct (decide (j0 = n)) as [-> | Hne].
  - rewrite sumZ_zero; [lia |]. intros i Hi. apply Hf; lia.
  - rewrite IH by (try lia; intros j Hj Hjn; apply Hf; lia).
    rewrite (Hf n) by lia. lia.
Qed.

Lemma sumZ_mod (n : nat) (q : Z) (f : nat -> Z) :
  sumZ n (fun i => f i mod q) mod q = sumZ n f mod q.
Proof.
  induction n as [| n IH]; cbn [sumZ]; [reflexivity |].
  rewrite Zplus_mod, IH, Zmod_mod. symmetry. apply Zplus_mod.
Qed.

Lemma sumZ_mod_ext (n : nat) (q : Z) (f g : nat -> Z) :
  (forall i, (i < n)%nat -> f i mod q = g i mod q) ->
  sumZ n f mod q = sumZ n g mod q.
Proof.
  intros Hfg. rewrite <- (sumZ_mod n q f), <- (sumZ_mod n q g).
  f_equal. apply sumZ_ext. exact Hfg.
Qed.

Lemma sumZ_abs_bound (n : nat) (B : Z) (f : nat -> Z) :
  (forall i, (i < n)%nat -> Z.abs (f i) <= B) ->
  Z.abs (sumZ n f) <= Z.of_nat n * B.
Proof.
  induction n as [| n IH]; intros Hf; cbn [sumZ]; [simpl; lia |].
  pose proof (IH ltac:(intros i Hi; apply Hf; lia)) as H1.
  pose proof (Hf n ltac:(lia)) as H2.
  pose proof (Z.abs_triangle (sumZ n f) (f n)). lia.
Qed.

(** * Loops in the error monad *)

Lemma forM_app {S : Type} (body : nat -> S -> option S) (l1 l2 : list nat)
    (s : S) :
  forM body (l1 ++ l2) s = forM body l1 s ≫= forM body l2.
Proof.
  revert s. induction l1 as [| i l1 IH]; intros s; cbn; [reflexivity |].
  destruct (body i s) as [s' |]; cbn; [apply IH | reflexivity].
Qed.

Lemma forM_snoc {S : Type} (body : nat -> S -> option S) (n : nat) (s : S) :
  forM body (seq 0 (Datatypes.S n)) s = forM body (seq 0 n) s ≫= body n.
Proof.
  rewrite seq_S, forM_app. cbn.
  destruct (forM body (seq 0 n) s) as [s' |]; cbn; [| reflexivity].
  destruct (body n s'); reflexivity.
Qed.

(** A property that every iteration preserves holds of the final state. *)
Lemma forM_invariant {S : Type} (P : S -> Prop)
    (body : nat -> S -> option S) (l : list nat) :
  (forall i s s', P s -> body i s = Some s' -> P s') ->
  forall s s', P s -> forM body l s = Some s' -> P s'.
Proof.
  intros Hbody. induction l as [| i l IH]; intros s s' Hs Hrun; cbn in Hrun.
  - congruence.
  - destruct (body i s) as [s1 |] eqn:E; cbn in Hrun; [| discriminate].
    eapply IH; [| exact Hrun]. eapply Hbody; eauto.
Qed.

Lemma mapM_seq_Some {B : Type} (f : nat -> option B) (g : nat -> B)
    (l : list nat) :
  (forall i, In i l -> f i = Some (g i)) -> mapM f l = Some (map g l).
Proof.
  induction l as [| i l IH]; intros Hf; cbn; [reflexivity |].
  rewrite (Hf i) by (left; reflexivity). cbn.
  rewrite IH by (intros j Hj; apply Hf; right; exact Hj). reflexivity.
Qed.

Lemma length_map_seq {A : Type} (f : nat -> A) (n : nat) :
  length (map f (seq 0 n)) = n.
Proof. rewrite length_map. apply length_seq. Qed.

Lemma coef_lookup (a : list Z) (i : nat) :
  (i < length a)%nat -> a !! i = Some (coef a i).
Proof.
  intros Hi. unfold coef.
  destruct (lookup_lt_is_Some_2 a i Hi) as [v Hv]. rewrite Hv. reflexivity.
Qed.

Lemma coef_map (f : nat -> Z) (n i : nat) :
  (i < n)%nat -> coef (map f (seq 0 n)) i = f i.
Proof.
  intros Hi. unfold coef. rewrite list_lookup_fmap.
  rewrite lookup_seq_lt by lia. reflexivity.
Qed.

Lemma coef_ringOf (n : nat) (q : Z) (g : nat -> Z) (i : nat) :
  (i < n)%nat -> coef (ringOf n q g) i = g i mod q.
Proof. apply coef_map. Qed.

Lemma length_ringOf (n : nat) (q : Z) (g : nat -> Z) :
  length (ringOf n q g) = n.
Proof. unfold ringOf. rewrite length_map. apply length_seq. Qed.

Lemma ringOf_ext (n : nat) (q : Z) (g g' : nat -> Z) :
  (forall k, (k < n)%nat -> g k mod q = g' k mod q) ->
  ringOf n q g = ringOf n q g'.
Proof.
  intros Hg. unfold ringOf. apply map_ext_in. intros k Hk.
  apply in_seq in Hk. apply Hg. lia.
Qed.

Lemma ringOf_lookup (n : nat) (q : Z) (g : nat -> Z) (k : nat) :
  (k < n)%nat -> ringOf n q g !! k = Some (g k mod q).
Proof.
  intros Hk. unfold ringOf. rewrite list_lookup_fmap.
  rewrite lookup_seq_lt by lia. reflexivity.
Qed.

Lemma ringOf_zero (n : nat) (q : Z) : replicate n 0 = ringOf n q (fun _ => 0).
Proof.
  apply list_eq. intros k. destruct (decide (k < n)%nat) as [Hk | Hk].
  - rewrite ringOf_lookup by lia. rewrite lookup_replicate_2 by lia.
    rewrite Zmod_0_l. reflexivity.
  - rewrite !lookup_ge_None_2; [reflexivity | |].
    + rewrite length_ringOf. lia.
    + rewrite length_replicate. lia.
Qed.

(** Overwriting one entry of a reduced array. *)
Lemma ringOf_insert (n : nat) (q : Z) (g g' : nat -> Z) (k0 : nat) (v : Z) :
  (k0 < n)%nat ->
  v = g' k0 mod q ->
  (forall k, (k < n)%nat -> k <> k0 -> g' k mod q = g k mod q) ->
  <[k0 := v]> (ringOf n q g) = ringOf n q g'.
Proof.
  intros Hk0 Hv Hother. apply list_eq. intros k.
  destruct (decide (k < n)%nat) as [Hk | Hk].
  - rewrite (ringOf_lookup n q g') by lia.
    destruct (decide (k = k0)) as [-> | Hne].
    + rewrite list_lookup_insert_eq by (rewrite length_ringOf; lia).
      congruence.
    + rewrite list_lookup_insert_ne by congruence.
      rewrite ringOf_lookup by lia. rewrite Hother by lia. reflexivity.
  - rewrite !lookup_ge_None_2; [reflexivity | |].
    + rewrite length_ringOf. lia.
    + rewrite length_insert, length_ringOf. lia.
Qed.

(** A loop whose iteration [j] adds [d j k] to every entry [k]. *)
Lemma forM_accum (n : nat) (q : Z) (body : nat -> list Z -> option (list Z))
    (d : nat -> nat -> Z) (m : nat) :
  (forall j g, (j < m)%nat ->
     body j (ringOf n q g) = Some (ringOf n q (fun k => g k + d j k))) ->
  forall g,
    forM body (seq 0 m) (ringOf n q g)
    = Some (ringOf n q (fun k => g k + sumZ m (fun j => d j k))).
Proof.
  induction m as [| m IH]; intros Hbody g.
  - cbn. f_equal. apply ringOf_ext. intros k _. f_equal. lia.
  - rewrite forM_snoc. rewrite IH by (intros j g' Hj; apply Hbody; lia).
    cbn. rewrite Hbody by lia. f_equal.
    apply ringOf_ext. intros k _. f_equal. lia.
Qed.

(** ** The convolution loops *)

Lemma mulModQ_step_spec (x y : Z) (i j n : nat) (q : Z) (g : nat -> Z) :
  0 < q -> (i < n)%nat -> (j < n)%nat ->
  mulModQ_step x y i j n q (ringOf n q g)
  = Some (ringOf n q (fun k => g k + wrapSign n (i + j) k * (x * y))).
Proof.
  intros Hq Hi Hj. unfold mulModQ_step.
  destruct (Nat.ltb_spec (i + j) n) as [Hlt | Hge].
  - rewrite ringOf_lookup by lia. cbn. f_equal.
    apply ringOf_insert; [lia | |].
    + fold (jsmod (g (i + j)%nat mod q + x * y) q).
      rewrite jsmod_mod by lia. unfold wrapSign.
      rewrite Nat.eqb_refl. rewrite Zplus_mod_idemp_l. f_equal; lia.
    + intros k Hk Hne. unfold wrapSign.
      destruct (Nat.eqb_spec (i + j) k); [lia |].
      destruct (Nat.eqb_spec (i + j) (k + n)); [lia |].
      f_equal; lia.
  - rewrite ringOf_lookup by lia. cbn. f_equal.
    apply ringOf_insert; [lia | |].
    + fold (jsmod (g (i + j - n)%nat mod q - x * y) q).
      rewrite jsmod_mod by lia. unfold wrapSign.
      destruct (Nat.eqb_spec (i + j) (i + j - n)); [lia |].
      destruct (Nat.eqb_spec (i + j) (i + j - n + n)); [| lia].
      rewrite Zminus_mod_idemp_l. f_equal; lia.
    + intros k Hk Hne. unfold wrapSign.
      destruct (Nat.eqb_spec (i + j) k); [lia |].
      destruct (Nat.eqb_spec (i + j) (k + n)); [lia |].
      f_equal; lia.
Qed.

Lemma negacyclicMulModQ_spec (a b : list Z) (n : nat) (q : Z) :
  0 < q -> (n <= length a)%nat -> (n <= length b)%nat ->
  negacyclicMulModQ a b n q = Some (ringOf n q (nconv n (coef a) (coef b))).
Proof.
  intros Hq Ha Hb. unfold negacyclicMulModQ.
  rewrite (ringOf_zero n q).
  rewrite (forM_accum n q _
             (fun i k =>
                sumZ n (fun j =>
                          wrapSign n (i + j) k * (coef a i * coef b j)))).
  - apply f_equal. apply ringOf_ext. intros k _. reflexivity.
  - intros i g Hi. rewrite (coef_lookup a i) by lia.
    assert (Hinner :
      forM (fun j result =>
              match b !! j with
              | Some 0 => Some result
              | bj => x ← Some (coef a i); y ← bj;
                      mulModQ_step x y i j n q result
              end) (seq 0 n) (ringOf n q g)
      = Some (ringOf n q (fun k =>
                g k + sumZ n (fun j =>
                   wrapSign n (i + j) k * (coef a i * coef b j))))).
    { apply (forM_accum n q _
               (fun j k => wrapSign n (i + j) k * (coef a i * coef b j))).
      intros j g' Hj. rewrite (coef_lookup b j) by lia.
      destruct (coef b j) eqn:Eb; cbn.
      - f_equal. apply ringOf_ext. intros k _. f_equal. lia.
      - apply mulModQ_step_spec; lia.
      - apply mulModQ_step_spec; lia. }
    destruct (coef a i) eqn:Ea.
    + f_equal. apply ringOf_ext. intros k _. f_equal.
      rewrite sumZ_zero; [lia |]. intros j _. lia.
    + exact Hinner.
    + exact Hinner.
Qed.

Lemma mulModQ_step_range (x y : Z) (i j n : nat) (q : Z) (res res' : list Z) :
  0 < q ->
  mulModQ_step x y i j n q res = Some res' ->
  length res = n /\ Forall (fun c => 0 <= c < q) res ->
  length res' = n /\ Forall (fun c => 0 <= c < q) res'.
Proof.
  intros Hq Hstep [Hlen Hall]. unfold mulModQ_step in Hstep.
  destruct (i + j <? n)%nat.
  - destruct (res !! (i + j)%nat) as [r |]; cbn in Hstep; [| discriminate].
    injection Hstep as <-. rewrite length_insert. split; [exact Hlen |].
    apply Forall_insert; [exact Hall |]. apply (jsmod_bound _ q Hq).
  - destruct (res !! (i + j - n)%nat) as [r |]; cbn in Hstep;
      [| discriminate].
    injection Hstep as <-. rewrite length_insert. split; [exact Hlen |].
    apply Forall_insert; [exact Hall |]. apply (jsmod_bound _ q Hq).
Qed.

(** Whatever the arrays, a product that [negacyclicMulModQ] returns has
    [n] coefficients, all reduced. *)
Lemma negacyclicMulModQ_range (a b : list Z) (n : nat) (q : Z) (res : list Z) :
  0 < q ->
  negacyclicMulModQ a b n q = Some res ->
  length res = n /\ Forall (fun c => 0 <= c < q) res.
Proof.
  intros Hq Hrun. unfold negacyclicMulModQ in Hrun.
  revert Hrun.
  apply (forM_invariant
           (fun res => length res = n /\ Forall (fun c => 0 <= c < q) res)).
  - intros i s s' Hs Hbody.
    assert (Hinner : forall ai,
      forM (fun j result =>
              match b !! j with
              | Some 0 => Some result
              | bj => x ← ai; y ← bj; mulModQ_step x y i j n q result
              end) (seq 0 n) s = Some s' ->
      length s' = n /\ Forall (fun c => 0 <= c < q) s').
    { intros ai.
      apply (forM_invariant
               (fun res => length res = n /\ Forall (fun c => 0 <= c < q) res));
        [| exact Hs].
      intros j r r' Hr Hstep.
      destruct (b !! j) as [[| py | py] |]; destruct ai as [xv |];
        cbn in Hstep; try discriminate; try (injection Hstep as <-; exact Hr);
        eapply mulModQ_step_range; eauto. }
    destruct (a !! i) as [[| px | px] |].
    + injection Hbody as <-. exact Hs.
    + eapply Hinner; eauto.
    + eapply Hinner; eauto.
    + eapply Hinner; eauto.
  - rewrite length_replicate. split; [reflexivity |].
    apply Forall_replicate. lia.
Qed.

(** ** The matrix-row form of the product *)

Lemma nconv_rows (n : nat) (a b : nat -> Z) (k : nat) :
  (k < n)%nat -> nconv n a b k = dot n (nrow n a k) b.
Proof.
  intros Hk. unfold nconv, dot. rewrite sumZ_swap.
  apply sumZ_ext. intros j Hj. unfold nrow.
  destruct (Nat.leb_spec j k) as [Hle | Hgt].
  - rewrite (sumZ_single n _ (k - j)%nat); [| lia |].
    + unfold wrapSign. replace (k - j + j)%nat with k by lia.
      rewrite Nat.eqb_refl. lia.
    + intros i Hi Hne. unfold wrapSign.
      destruct (Nat.eqb_spec (i + j) k); [lia |].
      destruct (Nat.eqb_spec (i + j) (k + n)); [lia |]. lia.
  - rewrite (sumZ_single n _ (k + n - j)%nat); [| lia |].
    + unfold wrapSign.
      destruct (Nat.eqb_spec (k + n - j + j) k); [lia |].
      destruct (Nat.eqb_spec (k + n - j + j) (k + n)); [| lia]. lia.
    + intros i Hi Hne. unfold wrapSign.
      destruct (Nat.eqb_spec (i + j) k); [lia |].
      destruct (Nat.eqb_spec (i + j) (k + n)); [lia |]. lia.
Qed.

Lemma negacyclicMatrixRowModQ_spec (poly : list Z) (k n : nat) (q : Z) :
  0 < q -> (n <= length poly)%nat -> (k < n)%nat ->
  negacyclicMatrixRowModQ poly k n q
  = Some (ringOf n q (nrow n (coef poly) k)).
Proof.
  intros Hq Hlen Hk. unfold negacyclicMatrixRowModQ, ringOf.
  apply mapM_seq_Some. intros j Hj. apply in_seq in Hj. unfold nrow.
  destruct (Nat.leb_spec j k) as [Hle | Hgt].
  - rewrite coef_lookup by lia. cbn. rewrite jsmod_mod by lia. reflexivity.
  - rewrite coef_lookup by lia. cbn. rewrite jsmod_mod by lia. reflexivity.
Qed.

Lemma innerProductInt_loop (row r : list Z) (m : nat) :
  (m <= length row)%nat -> (m <= length r)%nat ->
  forM (fun i sum => x ← row !! i; y ← r !! i; Some (sum + x * y))
       (seq 0 m) 0
  = Some (dot m (coef row) (coef r)).
Proof.
  intros Hrow Hr. induction m as [| m IH]; [reflexivity |].
  rewrite forM_snoc, IH by lia. cbn.
  rewrite (coef_lookup row m), (coef_lookup r m) by lia. reflexivity.
Qed.

Lemma innerProductInt_spec (row r : list Z) :
  (length row <= length r)%nat ->
  innerProductInt row r = Some (dot (length row) (coef row) (coef r)).
Proof. intros Hr. apply innerProductInt_loop; lia. Qed.

Lemma innerProductModQ_loop (row r : list Z) (m : nat) :
  (m <= length row)%nat -> (m <= length r)%nat ->
  forM (fun j ip =>
          x ← row !! j; y ← r !! j; Some (jsmod (ip + x * y) RLWE_Q))
       (seq 0 m) 0
  = Some (dot m (coef row) (coef r) mod RLWE_Q).
Proof.
  intros Hrow Hr. induction m as [| m IH]; [reflexivity |].
  rewrite forM_snoc, IH by lia. cbn.
  rewrite (coef_lookup row m), (coef_lookup r m) by lia. cbn.
  rewrite jsmod_mod by apply RLWE_Q_pos.
  rewrite Zplus_mod_idemp_l. reflexivity.
Qed.

Lemma innerProductModQ_spec (row r : list Z) :
  (N <= length row)%nat -> (N <= length r)%nat ->
  innerProductModQ row r = Some (dot N (coef row) (coef r) mod RLWE_Q).
Proof. apply innerProductModQ_loop. Qed.

(** Reducing the row, or the vector, does not change the inner product
    modulo [q]. *)
Lemma dot_mod_l (n : nat) (q : Z) (u v : nat -> Z) :
  dot n (fun j => u j mod q) v mod q = dot n u v mod q.
Proof.
  unfold dot. apply sumZ_mod_ext. intros j _.
  rewrite Zmult_mod_idemp_l. reflexivity.
Qed.

Lemma dot_mod_r (n : nat) (q : Z) (u v : nat -> Z) :
  dot n u (fun j => v j mod q) mod q = dot n u v mod q.
Proof.
  unfold dot. apply sumZ_mod_ext. intros j _.
  rewrite Zmult_mod_idemp_r. reflexivity.
Qed.

Lemma dot_ext (n : nat) (u u' v v' : nat -> Z) :
  (forall j, (j < n)%nat -> u j = u' j) ->
  (forall j, (j < n)%nat -> v j = v' j) ->
  dot n u v = dot n u' v'.
Proof.
  intros Hu Hv. unfold dot. apply sumZ_ext. intros j Hj.
  rewrite Hu, Hv by lia. reflexivity.
Qed.

(** The inner product of row [i] of the matrix of [poly] with [x] is
    coefficient [i] of the product, in any dimension and modulus. *)
Lemma matrix_row_product (poly x : list Z) (n : nat) (q : Z) (i : nat) :
  0 < q -> length poly = n -> length x = n -> (i < n)%nat ->
  exists row ip res,
    negacyclicMatrixRowModQ poly i n q = Some row /\
    innerProductInt row x = Some ip /\
    negacyclicMulModQ poly x n q = Some res /\
    res !! i = Some (ip mod q).
Proof.
  intros Hq Hp Hx Hi.
  exists (ringOf n q (nrow n (coef poly) i)).
  exists (dot n (coef (ringOf n q (nrow n (coef poly) i))) (coef x)).
  exists (ringOf n q (nconv n (coef poly) (coef x))).
  split; [apply negacyclicMatrixRowModQ_spec; lia |].
  split.
  { rewrite innerProductInt_spec by (rewrite length_ringOf; lia).
    rewrite length_ringOf. reflexivity. }
  split; [apply negacyclicMulModQ_spec; lia |].
  rewrite ringOf_lookup by lia. f_equal.
  rewrite nconv_rows by lia.
  rewrite <- (dot_mod_l n q (nrow n (coef poly) i)).
  f_equal. apply dot_ext; [| reflexivity].
  intros j Hj. rewrite coef_ringOf by lia. reflexivity.
Qed.

(** C3. For every polynomial [poly] of length [N = 1024], every index
    [i < N] and every ring element [x] with coefficients in [[0, Q)], the
    inner product of [negacyclicMatrixRowModQ poly i N Q] with [x],
    reduced modulo [Q], is coefficient [i] of
    [negacyclicMulModQ poly x N Q]. *)
Theorem matrix_row_equivalence (poly x : list Z) (i : nat) :
  length poly = N -> length x = N -> (i < N)%nat ->
  Forall (fun c => 0 <= c < RLWE_Q) x ->
  exists row ip res,
    negacyclicMatrixRowModQ poly i N RLWE_Q = Some row /\
    innerProductInt row x = Some ip /\
    negacyclicMulModQ poly x N RLWE_Q = Some res /\
    res !! i = Some (ip mod RLWE_Q) /\
    ip mod RLWE_Q = Z.rem ip RLWE_Q.
Proof.
  intros Hp Hx Hi Hrange.
  destruct (matrix_row_product poly x N RLWE_Q i RLWE_Q_pos Hp Hx Hi)
    as (row & ip & res & Hrow & Hip & Hres & Hlook).
  exists row, ip, res. repeat split; try assumption.
  symmetry. apply Z.rem_mod_nonneg; [| apply RLWE_Q_pos].
  rewrite negacyclicMatrixRowModQ_spec in Hrow
    by (try apply RLWE_Q_pos; lia).
  injection Hrow as <-.
  rewrite innerProductInt_spec in Hip by (rewrite length_ringOf; lia).
  rewrite length_ringOf in Hip.
  assert (Hipe : ip = dot N (coef (ringOf N RLWE_Q (nrow N (coef poly) i)))
                          (coef x)) by congruence.
  rewrite Hipe. unfold dot.
  assert (Hnn : forall m, (m <= N)%nat ->
    0 <= sumZ m (fun j =>
           coef (ringOf N RLWE_Q (nrow N (coef poly) i)) j * coef x j)).
  { induction m as [| m IH]; intros Hm; cbn [sumZ]; [lia |].
    specialize (IH ltac:(lia)).
    rewrite coef_ringOf by lia.
    pose proof (Z.mod_pos_bound (nrow N (coef poly) i m) RLWE_Q RLWE_Q_pos).
    assert (0 <= coef x m).
    { unfold coef. destruct (x !! m) as [c |] eqn:E; cbn; [| lia].
      rewrite Forall_lookup in Hrange. apply (Hrange m c E). }
    nia. }
  apply Hnn. lia.
Qed.

Lemma matrix_row_equivalence_witness :
  let poly := replicate 1023 5 ++ [-7] in
  let x := replicate 1024 3 in
  exists row ip res,
    negacyclicMatrixRowModQ poly 2 N RLWE_Q = Some row /\
    innerProductInt row x = Some ip /\
    negacyclicMulModQ poly x N RLWE_Q = Some res /\
    res !! 2%nat = Some (ip mod RLWE_Q) /\
    ip mod RLWE_Q = Z.rem ip RLWE_Q.
Proof.
  apply (matrix_row_equivalence (replicate 1023 5 ++ [-7])
                                (replicate 1024 3) 2).
  - rewrite length_app, length_replicate. reflexivity.
  - rewrite length_replicate. reflexivity.
  - unfold N. lia.
  - apply Forall_replicate. unfold RLWE_Q. lia.
Defined.

(** * RLWE encryption *)

Lemma insert_all_32 (sx : list Z) (base : list Z) (off : nat) :
  length sx = 32%nat ->
  (off + 32 <= length base)%nat ->
  fold_left (fun m i => <[(off + i)%nat := nth i sx 0]> m) (seq 0 32) base
  = take off base ++ sx ++ drop (off + 32) base.
Proof.
  intros Hsx Hbase.
  assert (Hgen : forall k, (k <= 32)%nat ->
    fold_left (fun m i => <[(off + i)%nat := nth i sx 0]> m) (seq 0 k) base
    = take off base ++ take k sx ++ drop (off + k) base).
  { induction k as [| k IH]; intros Hk.
    - cbn. rewrite Nat.add_0_r. symmetry. apply take_drop.
    - rewrite seq_S, fold_left_app, IH by lia. cbn [fold_left].
      rewrite Nat.add_0_l.
      apply list_eq. intros p.
      destruct (decide (p = off + k)%nat) as [-> | Hne].
      + rewrite list_lookup_insert_eq
          by (rewrite !length_app, length_take, length_take, length_drop; lia).
        rewrite lookup_app_r by (rewrite length_take; lia).
        rewrite length_take.
        replace (off + k - off `min` length base)%nat with k by lia.
        rewrite lookup_app_l by (rewrite length_take; lia).
        rewrite lookup_take_lt by lia.
        destruct (lookup_lt_is_Some_2 sx k ltac:(lia)) as [v Hv].
        rewrite Hv. f_equal. apply nth_lookup_Some. exact Hv.
      + rewrite list_lookup_insert_ne by lia.
        destruct (decide (p < off)%nat) as [Hlt | Hge].
        * rewrite !lookup_app_l by (rewrite length_take; lia). reflexivity.
        * rewrite !(lookup_app_r (take off base))
            by (rewrite length_take; lia).
          rewrite length_take.
          replace (off `min` length base)%nat with off by lia.
          destruct (decide (p - off < k)%nat) as [Hlt2 | Hge2].
          -- rewrite !lookup_app_l by (rewrite length_take; lia).
             rewrite !lookup_take_lt by lia. reflexivity.
          -- rewrite !lookup_app_r by (rewrite length_take; lia).
             rewrite !length_take.
             replace (k `min` length sx)%nat with k by lia.
             replace (S k `min` length sx)%nat with (S k) by lia.
             rewrite !lookup_drop.
             replace (off + S k + (p - off - S k))%nat
               with (off + k + (p - off - k))%nat by lia.
             reflexivity. }
  rewrite Hgen by lia. rewrite (take_ge sx 32) by lia. reflexivity.
Qed.

Lemma length_encodeFieldToBytes (v : Z) (n : nat) :
  length (encodeFieldToBytes v n) = n.
Proof. unfold encodeFieldToBytes. rewrite length_map. apply length_seq. Qed.

Lemma encodeMsg_app (ownerX ownerY : Z) :
  encodeMsg ownerX ownerY
  = encodeFieldToBytes ownerX 32 ++ encodeFieldToBytes ownerY 32.
Proof.
  unfold encodeMsg.
  pose proof (length_encodeFieldToBytes ownerX 32) as HX.
  pose proof (length_encodeFieldToBytes ownerY 32) as HY.
  set (sx := encodeFieldToBytes ownerX 32) in *.
  set (sy := encodeFieldToBytes ownerY 32) in *.
  assert (H1 : fold_left (fun m i => <[i := nth i sx 0]> m) (seq 0 32)
                 (replicate MSG_SLOTS 0)
               = sx ++ replicate 32 0).
  { change (fun (m : list Z) (i : nat) => <[i := nth i sx 0]> m)
      with (fun (m : list Z) (i : nat) => <[(0 + i)%nat := nth i sx 0]> m).
    rewrite insert_all_32;
      [reflexivity | exact HX
       | rewrite length_replicate; unfold MSG_SLOTS; lia]. }
  rewrite H1.
  rewrite (insert_all_32 sy _ 32);
    [| exact HY | rewrite length_app, HX, length_replicate; lia].
  rewrite take_app_length' by (symmetry; exact HX).
  rewrite drop_ge; [rewrite app_nil_r; reflexivity |].
  rewrite length_app, HX, length_replicate. reflexivity.
Qed.

Lemma length_encodeMsg (ownerX ownerY : Z) :
  length (encodeMsg ownerX ownerY) = MSG_SLOTS.
Proof.
  rewrite encodeMsg_app, length_app, !length_encodeFieldToBytes. reflexivity.
Qed.

Lemma coef_encodeMsg (ownerX ownerY : Z) (i : nat) :
  (i < MSG_SLOTS)%nat ->
  coef (encodeMsg ownerX ownerY) i = msgOf ownerX ownerY i.
Proof.
  intros Hi. unfold MSG_SLOTS in Hi. rewrite encodeMsg_app.
  unfold coef, msgOf, encodeFieldToBytes.
  destruct (Nat.ltb_spec i 32) as [Hlt | Hge].
  - rewrite lookup_app_l by (rewrite length_map, length_seq; lia).
    rewrite list_lookup_fmap, lookup_seq_lt by lia. reflexivity.
  - rewrite lookup_app_r by (rewrite length_map, length_seq; lia).
    rewrite length_map, length_seq.
    rewrite list_lookup_fmap, lookup_seq_lt by lia. reflexivity.
Qed.

Lemma coef_map_jsmod (r : list Z) (q : Z) (j : nat) :
  0 < q -> coef (map (fun v => jsmod v q) r) j = coef r j mod q.
Proof.
  intros Hq. unfold coef. rewrite list_lookup_fmap.
  destruct (r !! j) as [v |]; cbn.
  - apply jsmod_mod; lia.
  - rewrite Zmod_0_l. reflexivity.
Qed.

(** The inner loop of both ciphertext components: row [i] of the matrix
    of [poly] against the reduced randomness. *)
Lemma encrypt_row_product (poly r : list Z) (i : nat) :
  (N <= length poly)%nat -> (N <= length r)%nat -> (i < N)%nat ->
  (row ← negacyclicMatrixRowModQ poly i N RLWE_Q;
   innerProductModQ row (map (fun v => jsmod v RLWE_Q) r))
  = Some (nconv N (coef poly) (coef r) i mod RLWE_Q).
Proof.
  intros Hp Hr Hi.
  rewrite negacyclicMatrixRowModQ_spec by (try apply RLWE_Q_pos; lia).
  cbn [mbind option_bind].
  rewrite innerProductModQ_spec
    by (rewrite ?length_ringOf, ?length_map; lia).
  apply f_equal. rewrite nconv_rows by lia.
  rewrite <- (dot_mod_l N RLWE_Q (nrow N (coef poly) i)).
  rewrite <- (dot_mod_r N RLWE_Q _ (coef r)).
  apply (f_equal (fun v => v mod RLWE_Q)). apply dot_ext.
  - intros j Hj. apply coef_ringOf. lia.
  - intros j Hj. apply coef_map_jsmod. apply RLWE_Q_pos.
Qed.

Lemma encrypt_c0_slot (pk : RlwePk) (ownerX ownerY : Z) (r e1 : list Z)
    (i : nat) :
  (N <= length (pk_b pk))%nat -> (N <= length r)%nat ->
  (MSG_SLOTS <= length e1)%nat -> (i < MSG_SLOTS)%nat ->
  (row ← negacyclicMatrixRowModQ (pk_b pk) i N RLWE_Q;
   ip ← innerProductModQ row (map (fun v => jsmod v RLWE_Q) r);
   e ← map (fun v => jsmod v RLWE_Q) e1 !! i;
   m ← encodeMsg ownerX ownerY !! i;
   Some (jsmod (ip + e + DELTA * m) RLWE_Q))
  = Some (encC0 (coef (pk_b pk)) (coef r) (coef e1) (msgOf ownerX ownerY) i).
Proof.
  intros Hb Hr He Hi.
  pose proof (encrypt_row_product (pk_b pk) r i Hb Hr
                ltac:(unfold N, MSG_SLOTS in *; lia)) as Hrow.
  destruct (negacyclicMatrixRowModQ (pk_b pk) i N RLWE_Q) as [row |];
    cbn [mbind option_bind] in *; [| discriminate].
  rewrite Hrow. cbn [mbind option_bind].
  rewrite (coef_lookup (map _ e1) i) by (rewrite length_map; lia).
  cbn [mbind option_bind].
  rewrite (coef_lookup (encodeMsg ownerX ownerY) i)
    by (rewrite length_encodeMsg; lia).
  cbn [mbind option_bind]. f_equal.
  rewrite jsmod_mod by apply RLWE_Q_pos.
  rewrite coef_map_jsmod by apply RLWE_Q_pos.
  rewrite coef_encodeMsg by lia. unfold encC0.
  rewrite <- Z.add_assoc, Zplus_mod_idemp_l.
  rewrite (Z.add_assoc (nconv _ _ _ _)), (Z.add_comm (nconv _ _ _ _)).
  rewrite <- Z.add_assoc, Zplus_mod_idemp_l.
  f_equal. lia.
Qed.

Lemma encrypt_c1_slot (pk : RlwePk) (r e2 : list Z) (i : nat) :
  (N <= length (pk_a pk))%nat -> (N <= length r)%nat ->
  (N <= length e2)%nat -> (i < N)%nat ->
  (row ← negacyclicMatrixRowModQ (pk_a pk) i N RLWE_Q;
   ip ← innerProductModQ row (map (fun v => jsmod v RLWE_Q) r);
   e ← map (fun v => jsmod v RLWE_Q) e2 !! i;
   Some (jsmod (ip + e) RLWE_Q))
  = Some (encC1 (coef (pk_a pk)) (coef r) (coef e2) i).
Proof.
  intros Ha Hr He Hi.
  pose proof (encrypt_row_product (pk_a pk) r i Ha Hr Hi) as Hrow.
  destruct (negacyclicMatrixRowModQ (pk_a pk) i N RLWE_Q) as [row |];
    cbn [mbind option_bind] in *; [| discriminate].
  rewrite Hrow. cbn [mbind option_bind].
  rewrite (coef_lookup (map _ e2) i) by (rewrite length_map; lia).
  cbn [mbind option_bind]. f_equal.
  rewrite jsmod_mod by apply RLWE_Q_pos.
  rewrite coef_map_jsmod by apply RLWE_Q_pos. unfold encC1.
  rewrite Zplus_mod_idemp_l, Zplus_mod_idemp_r. reflexivity.
Qed.

(** What [rlweEncrypt] returns on arrays of the expected lengths. *)
Lemma rlweEncrypt_spec (pk : RlwePk) (ownerX ownerY : Z) (r e1 e2 : list Z) :
  (N <= length (pk_a pk))%nat -> (N <= length (pk_b pk))%nat ->
  (N <= length r)%nat -> (MSG_SLOTS <= length e1)%nat ->
  (N <= length e2)%nat ->
  rlweEncrypt pk ownerX ownerY r e1 e2
  = Some {| c0Sparse :=
              map (encC0 (coef (pk_b pk)) (coef r) (coef e1)
                         (msgOf ownerX ownerY)) (seq 0 MSG_SLOTS);
            c1 := map (encC1 (coef (pk_a pk)) (coef r) (coef e2)) (seq 0 N);
            rSigned := r; e1Signed := e1; e2Signed := e2;
            msg := encodeMsg ownerX ownerY |}.
Proof.
  intros Ha Hb Hr He1 He2. unfold rlweEncrypt.
  rewrite (mapM_seq_Some _
             (encC0 (coef (pk_b pk)) (coef r) (coef e1) (msgOf ownerX ownerY))
             (seq 0 MSG_SLOTS)).
  2:{ intros i Hi. apply in_seq in Hi.
      apply encrypt_c0_slot; try assumption. lia. }
  cbn [mbind option_bind].
  rewrite (mapM_seq_Some _ (encC1 (coef (pk_a pk)) (coef r) (coef e2))
             (seq 0 N)).
  2:{ intros i Hi. apply in_seq in Hi.
      apply encrypt_c1_slot; try assumption. lia. }
  reflexivity.
Qed.

(** Whatever the inputs, the ciphertext that [rlweEncrypt] returns is
    reduced. *)
Lemma rlweEncrypt_range (pk : RlwePk) (ownerX ownerY : Z) (r e1 e2 : list Z)
    (ct : RlweEncryptResult) :
  rlweEncrypt pk ownerX ownerY r e1 e2 = Some ct ->
  Forall (fun c => 0 <= c < RLWE_Q) (c0Sparse ct) /\
  Forall (fun c => 0 <= c < RLWE_Q) (c1 ct).
Proof.
  unfold rlweEncrypt. intros Hrun.
  destruct (mapM _ (seq 0 MSG_SLOTS)) as [c0 |] eqn:E0;
    cbn [mbind option_bind] in Hrun; [| discriminate].
  destruct (mapM _ (seq 0 N)) as [c1v |] eqn:E1;
    cbn [mbind option_bind] in Hrun; [| discriminate].
  injection Hrun as <-. cbn [c0Sparse c1].
  apply mapM_Some_1 in E0. apply mapM_Some_1 in E1.
  split.
  - eapply Forall2_Forall_r; [exact E0 |].
    apply Forall_forall. intros i _ c Hc.
    destruct (negacyclicMatrixRowModQ _ _ _ _); cbn [mbind option_bind] in Hc; [| discriminate].
    destruct (innerProductModQ _ _); cbn [mbind option_bind] in Hc; [| discriminate].
    destruct (map _ e1 !! i); cbn [mbind option_bind] in Hc; [| discriminate].
    destruct (encodeMsg _ _ !! i); cbn [mbind option_bind] in Hc;
      [| discriminate].
    injection Hc as <-. apply jsmod_bound, RLWE_Q_pos.
  - eapply Forall2_Forall_r; [exact E1 |].
    apply Forall_forall. intros i _ c Hc.
    destruct (negacyclicMatrixRowModQ _ _ _ _); cbn [mbind option_bind] in Hc; [| discriminate].
    destruct (innerProductModQ _ _); cbn [mbind option_bind] in Hc; [| discriminate].
    destruct (map _ e2 !! i); cbn [mbind option_bind] in Hc; [| discriminate].
    injection Hc as <-. apply jsmod_bound, RLWE_Q_pos.
Qed.

(** * Quotient witnesses *)

Lemma innerProductInt_ringOf (n : nat) (q : Z) (g : nat -> Z) (r : list Z) :
  (n <= length r)%nat ->
  innerProductInt (ringOf n q g) r
  = Some (dot n (fun j => g j mod q) (coef r)).
Proof.
  intros Hr. unfold innerProductInt. rewrite length_ringOf.
  rewrite innerProductInt_loop by (rewrite ?length_ringOf; lia).
  apply f_equal. apply dot_ext; [| reflexivity].
  intros j Hj. apply coef_ringOf. lia.
Qed.

Lemma MSG_SLOTS_le_N : (MSG_SLOTS <= N)%nat.
Proof. unfold MSG_SLOTS, N. lia. Qed.

Lemma fullVal0_spec (pk : RlwePk) (r e1 m : list Z) (i : nat) :
  (N <= length (pk_b pk))%nat -> (N <= length r)%nat ->
  (MSG_SLOTS <= length e1)%nat -> (MSG_SLOTS <= length m)%nat ->
  (i < MSG_SLOTS)%nat ->
  fullVal0 pk r e1 m i
  = Some (full0 (coef (pk_b pk)) (coef r) (coef e1) (coef m) i).
Proof.
  unfold fullVal0, full0. pose proof MSG_SLOTS_le_N as Hmn. revert Hmn.
  generalize MSG_SLOTS, N. intros ms n Hmn Hb Hr He Hm Hi.
  rewrite negacyclicMatrixRowModQ_spec by (try apply RLWE_Q_pos; lia).
  cbn [mbind option_bind].
  rewrite innerProductInt_ringOf by lia.
  cbn [mbind option_bind].
  rewrite (coef_lookup e1 i), (coef_lookup m i) by lia.
  reflexivity.
Qed.

Lemma fullVal1_spec (pk : RlwePk) (r e2 : list Z) (i : nat) :
  (N <= length (pk_a pk))%nat -> (N <= length r)%nat ->
  (N <= length e2)%nat -> (i < N)%nat ->
  fullVal1 pk r e2 i = Some (full1 (coef (pk_a pk)) (coef r) (coef e2) i).
Proof.
  unfold fullVal1, full1. generalize N. intros n Ha Hr He Hi.
  rewrite negacyclicMatrixRowModQ_spec by (try apply RLWE_Q_pos; lia).
  cbn [mbind option_bind].
  rewrite innerProductInt_ringOf by lia.
  cbn [mbind option_bind].
  rewrite (coef_lookup e2 i) by lia.
  reflexivity.
Qed.

(** What [computeQuotients] returns on arrays of the expected lengths:
    the truncated quotients, whatever the remainders. *)
Lemma computeQuotients_spec (pk : RlwePk) (c0 c1v r e1 e2 m : list Z) :
  (N <= length (pk_a pk))%nat -> (N <= length (pk_b pk))%nat ->
  (MSG_SLOTS <= length c0)%nat -> (N <= length c1v)%nat ->
  (N <= length r)%nat -> (MSG_SLOTS <= length e1)%nat ->
  (N <= length e2)%nat -> (MSG_SLOTS <= length m)%nat ->
  computeQuotients pk c0 c1v r e1 e2 m
  = Some {| k0 := map (fun i =>
                         (full0 (coef (pk_b pk)) (coef r) (coef e1) (coef m) i
                          - coef c0 i) ÷ RLWE_Q) (seq 0 MSG_SLOTS);
            k1 := map (fun i =>
                         (full1 (coef (pk_a pk)) (coef r) (coef e2) i
                          - coef c1v i) ÷ RLWE_Q) (seq 0 N) |}.
Proof.
  intros Ha Hb Hc0 Hc1 Hr He1 He2 Hm. unfold computeQuotients.
  rewrite (mapM_seq_Some _
             (fun i => (full0 (coef (pk_b pk)) (coef r) (coef e1) (coef m) i
                        - coef c0 i) ÷ RLWE_Q) (seq 0 MSG_SLOTS)).
  2:{ intros i Hi. apply in_seq in Hi.
      rewrite fullVal0_spec by (try assumption; lia).
      cbn [mbind option_bind]. rewrite (coef_lookup c0 i) by lia.
      reflexivity. }
  cbn [mbind option_bind].
  rewrite (mapM_seq_Some _
             (fun i => (full1 (coef (pk_a pk)) (coef r) (coef e2) i
                        - coef c1v i) ÷ RLWE_Q) (seq 0 N)).
  2:{ intros i Hi. apply in_seq in Hi.
      rewrite fullVal1_spec by (try assumption; lia).
      cbn [mbind option_bind]. rewrite (coef_lookup c1v i) by lia.
      reflexivity. }
  reflexivity.
Qed.

Lemma quot_exact (z q : Z) :
  0 < q -> z mod q = 0 -> Z.rem z q = 0 /\ z ÷ q * q = z.
Proof.
  intros Hq Hz.
  assert (Hrem : Z.rem z q = 0).
  { apply Z.rem_divide; [lia |]. apply Z.mod_divide; [lia | exact Hz]. }
  split; [exact Hrem |].
  pose proof (Z.quot_rem' z q). lia.
Qed.

Lemma full0_congr (b r e1 m : nat -> Z) (i : nat) :
  (i < N)%nat ->
  (full0 b r e1 m i - encC0 b r e1 m i) mod RLWE_Q = 0.
Proof.
  intros Hi. unfold full0, encC0.
  rewrite Zminus_mod, Zmod_mod.
  rewrite nconv_rows by lia.
  rewrite <- !Z.add_assoc.
  rewrite (Zplus_mod (dot N (nrow N b i) r)).
  rewrite <- (dot_mod_l N RLWE_Q (nrow N b i)).
  rewrite <- Zplus_mod.
  rewrite Z.sub_diag. apply Zmod_0_l.
Qed.

Lemma full1_congr (a r e2 : nat -> Z) (i : nat) :
  (i < N)%nat ->
  (full1 a r e2 i - encC1 a r e2 i) mod RLWE_Q = 0.
Proof.
  intros Hi. unfold full1, encC1.
  rewrite Zminus_mod, Zmod_mod.
  rewrite nconv_rows by lia.
  rewrite (Zplus_mod (dot N (nrow N a i) r)).
  rewrite <- (dot_mod_l N RLWE_Q (nrow N a i)).
  rewrite <- Zplus_mod.
  rewrite Z.sub_diag. apply Zmod_0_l.
Qed.

(** C2 (as amended). For every ciphertext that [rlweEncrypt] produces from
    a key and noise vectors of the expected lengths, [computeQuotients] on
    the same inputs returns quotients with
    [k0[i] * Q = full0[i] - c0[i]] for [i < 64] and
    [k1[i] * Q = full1[i] - c1[i]] for [i < 1024], the divisions leaving
    remainder zero. *)
Theorem quotient_exactness (pk : RlwePk) (ownerX ownerY : Z)
    (r e1 e2 : list Z) :
  length (pk_a pk) = N -> length (pk_b pk) = N ->
  length r = N -> length e1 = MSG_SLOTS -> length e2 = N ->
  exists ct qr,
    rlweEncrypt pk ownerX ownerY r e1 e2 = Some ct /\
    computeQuotients pk (c0Sparse ct) (c1 ct) (rSigned ct) (e1Signed ct)
                     (e2Signed ct) (msg ct) = Some qr /\
    (forall i, (i < MSG_SLOTS)%nat ->
       exists full k c,
         fullVal0 pk r e1 (msg ct) i = Some full /\
         k0 qr !! i = Some k /\ c0Sparse ct !! i = Some c /\
         k * RLWE_Q = full - c /\ Z.rem (full - c) RLWE_Q = 0) /\
    (forall i, (i < N)%nat ->
       exists full k c,
         fullVal1 pk r e2 i = Some full /\
         k1 qr !! i = Some k /\ c1 ct !! i = Some c /\
         k * RLWE_Q = full - c /\ Z.rem (full - c) RLWE_Q = 0).
Proof.
  intros Ha Hb Hr He1 He2.
  eexists. eexists.
  split; [apply rlweEncrypt_spec; lia |].
  cbn [c0Sparse c1 rSigned e1Signed e2Signed msg].
  split.
  { apply computeQuotients_spec;
      rewrite ?length_map, ?length_seq, ?length_encodeMsg; lia. }
  cbn [k0 k1].
  split.
  - intros i Hi.
    rewrite fullVal0_spec by (rewrite ?length_encodeMsg; lia).
    do 3 eexists. split; [reflexivity |].
    rewrite !list_lookup_fmap, !lookup_seq_lt by lia.
    cbn [fmap option_fmap option_map].
    split; [reflexivity |]. split; [reflexivity |].
    rewrite coef_map by lia.
    pose proof (full0_congr (coef (pk_b pk)) (coef r) (coef e1)
                  (coef (encodeMsg ownerX ownerY)) i
                  ltac:(unfold N, MSG_SLOTS in *; lia)) as Hc.
    assert (Hmsg : encC0 (coef (pk_b pk)) (coef r) (coef e1)
                     (coef (encodeMsg ownerX ownerY)) i
                   = encC0 (coef (pk_b pk)) (coef r) (coef e1)
                       (msgOf ownerX ownerY) i).
    { unfold encC0. rewrite coef_encodeMsg by lia. reflexivity. }
    rewrite Hmsg in Hc.
    destruct (quot_exact _ RLWE_Q RLWE_Q_pos Hc) as [Hrem Hquot].
    split; [exact Hquot | exact Hrem].
  - intros i Hi.
    rewrite fullVal1_spec by lia.
    do 3 eexists. split; [reflexivity |].
    rewrite !list_lookup_fmap, !lookup_seq_lt by lia.
    cbn [fmap option_fmap option_map].
    split; [reflexivity |]. split; [reflexivity |].
    rewrite coef_map by lia.
    pose proof (full1_congr (coef (pk_a pk)) (coef r) (coef e2) i Hi) as Hc.
    destruct (quot_exact _ RLWE_Q RLWE_Q_pos Hc) as [Hrem Hquot].
    split; [exact Hquot | exact Hrem].
Qed.

Lemma quotient_exactness_witness :
  let pk := {| pk_a := replicate N 5; pk_b := replicate N 7 |} in
  exists ct qr,
    rlweEncrypt pk 11 13 (replicate N (-3)) (replicate MSG_SLOTS 2)
                (replicate N 1) = Some ct /\
    computeQuotients pk (c0Sparse ct) (c1 ct) (rSigned ct) (e1Signed ct)
                     (e2Signed ct) (msg ct) = Some qr.
Proof.
  destruct (quotient_exactness
              {| pk_a := replicate N 5; pk_b := replicate N 7 |} 11 13
              (replicate N (-3)) (replicate MSG_SLOTS 2) (replicate N 1))
    as (ct & qr & Henc & Hquot & _); try apply length_replicate.
  exists ct, qr. split; [exact Henc | exact Hquot].
Defined.

Lemma coef_replicate (n : nat) (v : Z) (j : nat) :
  (j < n)%nat -> coef (replicate n v) j = v.
Proof. intros Hj. unfold coef. rewrite lookup_replicate_2 by lia. reflexivity. Qed.

Lemma dot_zero_r (n : nat) (u v : nat -> Z) :
  (forall j, (j < n)%nat -> v j = 0) -> dot n u v = 0.
Proof.
  intros Hv. unfold dot. apply sumZ_zero. intros j Hj.
  rewrite Hv by lia. lia.
Qed.

(** [computeQuotients] does not look at the remainder: on a [c0] that is
    not congruent to [full0] it returns the truncated quotient, here
    [(0 - 1) / Q = 0], and no error. *)
Lemma quotient_remainder_unchecked :
  let pk := {| pk_a := replicate N 0; pk_b := replicate N 0 |} in
  let c0 := replicate MSG_SLOTS 1 in
  exists qr,
    computeQuotients pk c0 (replicate N 0) (replicate N 0)
                     (replicate MSG_SLOTS 0) (replicate N 0)
                     (replicate MSG_SLOTS 0) = Some qr /\
    fullVal0 pk (replicate N 0) (replicate MSG_SLOTS 0)
             (replicate MSG_SLOTS 0) 0 = Some 0 /\
    c0 !! 0%nat = Some 1 /\
    k0 qr !! 0%nat = Some 0 /\
    0 * RLWE_Q <> 0 - 1 /\
    Z.rem (0 - 1) RLWE_Q <> 0.
Proof.
  cbv zeta.
  assert (Hpos : (0 < MSG_SLOTS)%nat) by (unfold MSG_SLOTS; lia).
  pose proof MSG_SLOTS_le_N as Hmn.
  assert (Hfull :
    full0 (coef (replicate N 0)) (coef (replicate N 0))
          (coef (replicate MSG_SLOTS 0)) (coef (replicate MSG_SLOTS 0)) 0 = 0).
  { unfold full0. rewrite dot_zero_r
      by (intros j Hj; apply coef_replicate; exact Hj).
    rewrite !coef_replicate by exact Hpos. reflexivity. }
  eexists. split.
  { apply computeQuotients_spec; cbn [pk_a pk_b];
      rewrite length_replicate; lia. }
  cbn [k0 pk_a pk_b].
  split.
  { rewrite fullVal0_spec by (cbn [pk_b]; rewrite ?length_replicate; lia).
    cbn [pk_b]. rewrite Hfull. reflexivity. }
  split; [apply lookup_replicate_2; exact Hpos |].
  split.
  { rewrite list_lookup_fmap, lookup_seq_lt by exact Hpos.
    cbn [fmap option_fmap option_map Nat.add].
    rewrite Hfull. rewrite coef_replicate by exact Hpos. reflexivity. }
  split; [unfold RLWE_Q; lia | discriminate].
Qed.

(** * The ring structure of the negacyclic product *)

Lemma nconv_ext (n : nat) (a a' b b' : nat -> Z) (k : nat) :
  (forall i, (i < n)%nat -> a i = a' i) ->
  (forall j, (j < n)%nat -> b j = b' j) ->
  nconv n a b k = nconv n a' b' k.
Proof.
  intros Ha Hb. unfold nconv. apply sumZ_ext. intros i Hi.
  apply sumZ_ext. intros j Hj. rewrite Ha, Hb by assumption. reflexivity.
Qed.

Lemma nconv_comm (n : nat) (a b : nat -> Z) (k : nat) :
  nconv n a b k = nconv n b a k.
Proof.
  unfold nconv. rewrite sumZ_swap. apply sumZ_ext. intros i _.
  apply sumZ_ext. intros j _. rewrite (Nat.add_comm j i). ring.
Qed.

Lemma nconv_add_r (n : nat) (a b c : nat -> Z) (k : nat) :
  nconv n a (fun j => b j + c j) k = nconv n a b k + nconv n a c k.
Proof.
  unfold nconv. rewrite <- sumZ_add. apply sumZ_ext. intros i _.
  rewrite <- sumZ_add. apply sumZ_ext. intros j _. ring.
Qed.

Lemma nconv_add_l (n : nat) (a b c : nat -> Z) (k : nat) :
  nconv n (fun i => a i + b i) c k = nconv n a c k + nconv n b c k.
Proof.
  rewrite nconv_comm, nconv_add_r. rewrite (nconv_comm n c a), (nconv_comm n c b).
  reflexivity.
Qed.

Lemma nconv_mod_r (n : nat) (q : Z) (a b b' : nat -> Z) (k : nat) :
  (forall j, (j < n)%nat -> b j mod q = b' j mod q) ->
  nconv n a b k mod q = nconv n a b' k mod q.
Proof.
  intros Hb. unfold nconv. apply sumZ_mod_ext. intros i _.
  apply sumZ_mod_ext. intros j Hj.
  rewrite !(Z.mul_comm (wrapSign _ _ _)), <- !Z.mul_assoc.
  rewrite <- Zmult_mod_idemp_r.
  rewrite <- (Zmult_mod_idemp_l (b j)), (Hb j Hj), Zmult_mod_idemp_l.
  rewrite Zmult_mod_idemp_r. reflexivity.
Qed.

Lemma nconv_mod_l (n : nat) (q : Z) (a a' b : nat -> Z) (k : nat) :
  (forall i, (i < n)%nat -> a i mod q = a' i mod q) ->
  nconv n a b k mod q = nconv n a' b k mod q.
Proof.
  intros Ha. rewrite (nconv_comm n a b), (nconv_comm n a' b).
  apply nconv_mod_r. exact Ha.
Qed.

Lemma wrapSign_compose (n i j m k : nat) :
  (i < n)%nat -> (j < n)%nat -> (m < n)%nat -> (k < n)%nat ->
  sumZ n (fun l => wrapSign n (i + j) l * wrapSign n (l + m) k)
  = wrapSign3 n (i + j + m) k.
Proof.
  intros Hi Hj Hm Hk.
  destruct (Nat.lt_ge_cases (i + j) n) as [Hlt | Hge].
  - rewrite (sumZ_single n _ (i + j)%nat); [| lia |].
    + unfold wrapSign, wrapSign3. rewrite Nat.eqb_refl.
      destruct (Nat.eqb_spec (i + j + m) k); [lia |].
      destruct (Nat.eqb_spec (i + j + m) (k + n)); [lia |].
      destruct (Nat.eqb_spec (i + j + m) (k + 2 * n)); lia.
    + intros l Hl Hne. unfold wrapSign.
      destruct (Nat.eqb_spec (i + j) l); [lia |].
      destruct (Nat.eqb_spec (i + j) (l + n)); [lia |]. lia.
  - rewrite (sumZ_single n _ (i + j - n)%nat); [| lia |].
    + unfold wrapSign, wrapSign3.
      destruct (Nat.eqb_spec (i + j) (i + j - n)); [lia |].
      destruct (Nat.eqb_spec (i + j) (i + j - n + n)); [| lia].
      destruct (Nat.eqb_spec (i + j - n + m) k);
        destruct (Nat.eqb_spec (i + j - n + m) (k + n));
        destruct (Nat.eqb_spec (i + j + m) k);
        destruct (Nat.eqb_spec (i + j + m) (k + n));
        destruct (Nat.eqb_spec (i + j + m) (k + 2 * n)); lia.
    + intros l Hl Hne. unfold wrapSign.
      destruct (Nat.eqb_spec (i + j) l); [lia |].
      destruct (Nat.eqb_spec (i + j) (l + n)); [lia |]. lia.
Qed.

(** Both bracketings of a triple product are the same triple sum. *)
Lemma nconv_triple_l (n : nat) (a b c : nat -> Z) (k : nat) :
  (k < n)%nat ->
  nconv n (nconv n a b) c k
  = sumZ n (fun i => sumZ n (fun j => sumZ n (fun m =>
      wrapSign3 n (i + j + m) k * (a i * b j * c m)))).
Proof.
  intros Hk. unfold nconv at 1.
  (* expand the inner product and distribute *)
  rewrite (sumZ_ext n _
    (fun l => sumZ n (fun m => sumZ n (fun i => sumZ n (fun j =>
       wrapSign n (i + j) l * wrapSign n (l + m) k * (a i * b j * c m)))))).
  2:{ intros l _. apply sumZ_ext. intros m _. unfold nconv.
      rewrite <- sumZ_scale_r, <- sumZ_scale_l. apply sumZ_ext. intros i _.
      rewrite <- sumZ_scale_r, <- sumZ_scale_l. apply sumZ_ext. intros j _.
      ring. }
  (* bring the sum over l innermost *)
  rewrite sumZ_swap.
  rewrite (sumZ_ext n _
    (fun m => sumZ n (fun i => sumZ n (fun j => sumZ n (fun l =>
       wrapSign n (i + j) l * wrapSign n (l + m) k * (a i * b j * c m)))))).
  2:{ intros m _. rewrite sumZ_swap. apply sumZ_ext. intros i _.
      apply sumZ_swap. }
  (* collapse it *)
  rewrite (sumZ_ext n _
    (fun m => sumZ n (fun i => sumZ n (fun j =>
       wrapSign3 n (i + j + m) k * (a i * b j * c m))))).
  2:{ intros m Hm. apply sumZ_ext. intros i Hi. apply sumZ_ext. intros j Hj.
      rewrite sumZ_scale_r. rewrite wrapSign_compose by assumption.
      reflexivity. }
  (* and reorder the three sums *)
  rewrite sumZ_swap. apply sumZ_ext. intros i _. apply sumZ_swap.
Qed.

Lemma nconv_assoc (n : nat) (a b c : nat -> Z) (k : nat) :
  (k < n)%nat ->
  nconv n (nconv n a b) c k = nconv n a (nconv n b c) k.
Proof.
  intros Hk.
  rewrite nconv_triple_l by exact Hk.
  rewrite (nconv_comm n a (nconv n b c)).
  rewrite nconv_triple_l by exact Hk.
  (* sums over (j, m, i) against sums over (i, j, m) *)
  symmetry.
  rewrite (sumZ_ext n _
    (fun j => sumZ n (fun i => sumZ n (fun m =>
       wrapSign3 n (i + j + m) k * (a i * b j * c m))))).
  2:{ intros j _. rewrite sumZ_swap. apply sumZ_ext. intros i _.
      apply sumZ_ext. intros m _.
      replace (j + m + i)%nat with (i + j + m)%nat by lia. ring. }
  apply sumZ_swap.
Qed.

Lemma nrow_abs (n : nat) (a : nat -> Z) (A : Z) (k j : nat) :
  (forall i, (i < n)%nat -> Z.abs (a i) <= A) ->
  (k < n)%nat -> (j < n)%nat -> Z.abs (nrow n a k j) <= A.
Proof.
  intros Ha Hk Hj. unfold nrow.
  destruct (Nat.leb_spec j k).
  - apply Ha. lia.
  - rewrite Z.abs_opp. apply Ha. lia.
Qed.

Lemma nconv_abs (n : nat) (a b : nat -> Z) (A B : Z) (k : nat) :
  (forall i, (i < n)%nat -> Z.abs (a i) <= A) ->
  (forall j, (j < n)%nat -> Z.abs (b j) <= B) ->
  (k < n)%nat ->
  Z.abs (nconv n a b k) <= Z.of_nat n * (A * B).
Proof.
  intros Ha Hb Hk. rewrite nconv_rows by exact Hk. unfold dot.
  apply sumZ_abs_bound. intros j Hj. rewrite Z.abs_mul.
  pose proof (nrow_abs n a A k j Ha Hk Hj) as H1.
  pose proof (Hb j Hj) as H2.
  pose proof (Z.abs_nonneg (nrow n a k j)).
  pose proof (Z.abs_nonneg (b j)).
  apply Z.mul_le_mono_nonneg; assumption.
Qed.

(** * RLWE decryption and the round trip *)

Lemma round_core (k e' : Z) :
  -128 <= k <= 128 -> -327680 < e' < 327680 ->
  Z.rem
    (Z.rem
       (Z.rem
          ((((655360 * k + e') * 10) ÷ 655360
            + (if 0 <=? 655360 * k + e' then 5 else -5)) ÷ 10) 256)
       256 + 256) 256
  = k mod 256.
Proof.
  intros Hk He.
  assert (Hq : (((655360 * k + e') * 10) ÷ 655360
                + (if 0 <=? 655360 * k + e' then 5 else -5)) ÷ 10 = k).
  { set (c := 655360 * k + e') in *.
    destruct (Z.leb_spec 0 c) as [Hz | Hz]; cbv iota.
    - rewrite (Z.quot_div_nonneg (c * 10) 655360) by lia.
      assert (Hd : 10 * k - 5 <= c * 10 / 655360 <= 10 * k + 4).
      { split.
        - apply Z.div_le_lower_bound; lia.
        - assert (c * 10 / 655360 < 10 * k + 5); [| lia].
          apply Z.div_lt_upper_bound; lia. }
      set (d := c * 10 / 655360) in *.
      rewrite Z.quot_div_nonneg by lia.
      symmetry. apply Z.div_unique with (r := d + 5 - 10 * k); lia.
    - replace (c * 10) with (- (- c * 10)) by lia.
      rewrite Z.quot_opp_l by lia.
      rewrite (Z.quot_div_nonneg (- c * 10) 655360) by lia.
      assert (Hd : - 10 * k - 5 <= (- c * 10) / 655360 <= - 10 * k + 4).
      { split.
        - apply Z.div_le_lower_bound; lia.
        - assert ((- c * 10) / 655360 < - 10 * k + 5); [| lia].
          apply Z.div_lt_upper_bound; lia. }
      set (d := (- c * 10) / 655360) in *.
      replace (- d + -5) with (- (d + 5)) by lia.
      rewrite Z.quot_opp_l by lia.
      rewrite Z.quot_div_nonneg by lia.
      assert (Hk' : (d + 5) / 10 = - k); [| lia].
      symmetry. apply Z.div_unique with (r := d + 5 + 10 * k); lia. }
  rewrite Hq.
  assert (Hrem : Z.rem k 256 = k).
  { destruct (Z_le_gt_dec 0 k) as [Hpos | Hneg].
    - apply Z.rem_small. lia.
    - rewrite <- (Z.opp_involutive k) at 1.
      rewrite Z.rem_opp_l, Z.rem_small by lia. lia. }
  rewrite Hrem. fold (jsmod k 256). apply jsmod_mod. lia.
Qed.

Lemma recoverSlot_correct (m eps : Z) :
  0 <= m < 256 -> - 327678 <= eps <= 327678 ->
  recoverSlot ((DELTA * m + eps) mod RLWE_Q) = m.
Proof.
  intros Hm He. unfold recoverSlot.
  rewrite centeredMod_eq by apply RLWE_Q_pos. rewrite Zmod_mod.
  unfold PLAINTEXT_MOD. rewrite DELTA_value. unfold RLWE_Q.
  set (v := (655360 * m + eps) mod 167772161).
  assert (Hvb : 0 <= v < 167772161) by (apply Z.mod_pos_bound; lia).
  assert (Hv : v = 655360 * m + eps \/ v = 655360 * m + eps + 167772161).
  { unfold v.
    pose proof (Z.div_mod (655360 * m + eps) 167772161 ltac:(lia)) as Hdm.
    fold v in Hdm.
    assert (-1 <= (655360 * m + eps) / 167772161 <= 0); [| lia].
    split.
    - apply Z.div_le_lower_bound; lia.
    - assert ((655360 * m + eps) / 167772161 < 1); [| lia].
      apply Z.div_lt_upper_bound; lia. }
  change (167772161 / 2) with 83886080.
  destruct (Z.ltb_spec 83886080 v) as [Hhi | Hlo].
  - destruct Hv as [Hv | Hv].
    + replace (v - 167772161) with (655360 * (m - 256) + (eps - 1)) by lia.
      rewrite round_core by lia.
      replace (m - 256) with (m + (-1) * 256) by lia.
      rewrite Z.mod_add by lia. apply Z.mod_small. lia.
    + replace (v - 167772161) with (655360 * m + eps) by lia.
      rewrite round_core by lia. apply Z.mod_small. lia.
  - destruct Hv as [Hv | Hv]; [| lia].
    rewrite Hv. rewrite round_core by lia. apply Z.mod_small. lia.
Qed.

(** ** Bytes *)

Lemma byteOf_eq (v : Z) (i : nat) :
  byteOf v i = (v / 2 ^ Z.of_nat (i * 8)) mod 256.
Proof.
  unfold byteOf. rewrite Z.shiftr_div_pow2 by lia.
  change 255 with (Z.ones 8). rewrite Z.land_ones by lia. reflexivity.
Qed.

Lemma byteOf_range (v : Z) (i : nat) : 0 <= byteOf v i < 256.
Proof. rewrite byteOf_eq. apply Z.mod_pos_bound. lia. Qed.

Lemma land_255_byte (b : Z) : 0 <= b < 256 -> Z.land b 255 = b.
Proof.
  intros Hb. change 255 with (Z.ones 8). rewrite Z.land_ones by lia.
  apply Z.mod_small. lia.
Qed.

Lemma bytes_partial_sum (v : Z) (k : nat) :
  sumZ k (fun i => byteOf v i * 2 ^ Z.of_nat (i * 8))
  = v mod 2 ^ Z.of_nat (k * 8).
Proof.
  induction k as [| k IH]; cbn [sumZ].
  - change (2 ^ Z.of_nat (0 * 8)) with 1. rewrite Z.mod_1_r. reflexivity.
  - rewrite IH, byteOf_eq.
    replace (Z.of_nat (S k * 8)) with (Z.of_nat (k * 8) + 8) by lia.
    rewrite Z.pow_add_r by lia.
    change (2 ^ 8) with 256.
    rewrite Z.rem_mul_r by (try apply Z.pow_nonzero; lia).
    ring.
Qed.

Lemma bytes_roundtrip (v : Z) :
  0 <= v < 2 ^ 256 ->
  sumZ 32 (fun i => byteOf v i * 2 ^ Z.of_nat (i * 8)) = v.
Proof.
  intros Hv. rewrite bytes_partial_sum.
  change (Z.of_nat (32 * 8)) with 256. apply Z.mod_small. exact Hv.
Qed.

Lemma assembleBytes_loop (bytes : list Z) (off m : nat) :
  (off + m <= length bytes)%nat ->
  forM (fun i acc =>
          b ← bytes !! (off + i)%nat;
          Some (acc + Z.shiftl (Z.land b 255) (Z.of_nat (i * 8))))
       (seq 0 m) 0
  = Some (sumZ m (fun i =>
            Z.land (coef bytes (off + i)) 255 * 2 ^ Z.of_nat (i * 8))).
Proof.
  intros Hlen. induction m as [| m IH]; [reflexivity |].
  rewrite forM_snoc, IH by lia. cbn [mbind option_bind sumZ].
  rewrite (coef_lookup bytes (off + m)) by lia. cbn [mbind option_bind].
  rewrite Z.shiftl_mul_pow2 by lia. reflexivity.
Qed.

Lemma assembleBytes_spec (bytes : list Z) (off : nat) :
  (off + 32 <= length bytes)%nat ->
  assembleBytes bytes off
  = Some (bytesValue (fun i => Z.land (coef bytes i) 255) off).
Proof. apply assembleBytes_loop. Qed.

(** ** What [rlweDecrypt] returns *)

Lemma rlweDecrypt_spec (c0 c1v sk : list Z) :
  (MSG_SLOTS <= length c0)%nat -> (N <= length c1v)%nat ->
  (N <= length sk)%nat ->
  rlweDecrypt c0 c1v sk
  = Some (bytesValue
            (fun i => Z.land (decSlot (coef c0) (coef c1v) (coef sk) i) 255) 0,
          bytesValue
            (fun i => Z.land (decSlot (coef c0) (coef c1v) (coef sk) i) 255) 32).
Proof.
  unfold rlweDecrypt, decSlot, bytesValue.
  pose proof MSG_SLOTS_le_N as Hmn. revert Hmn.
  assert (H64 : MSG_SLOTS = 64%nat) by reflexivity. revert H64.
  generalize MSG_SLOTS, N. intros ms n H64 Hmn Hc0 Hc1 Hsk.
  rewrite negacyclicMulModQ_spec by (try apply RLWE_Q_pos; lia).
  cbn [mbind option_bind].
  rewrite (mapM_seq_Some _
             (fun i => recoverSlot
                         (Z.rem (coef c0 i
                                 + nconv n (coef sk) (coef c1v) i mod RLWE_Q)
                                RLWE_Q)) (seq 0 ms)).
  2:{ intros i Hi. apply in_seq in Hi.
      rewrite (coef_lookup c0 i) by lia. cbn [mbind option_bind].
      rewrite ringOf_lookup by lia. reflexivity. }
  cbn [mbind option_bind].
  rewrite !assembleBytes_spec by (rewrite length_map_seq; lia).
  cbn [mbind option_bind]. unfold bytesValue.
  apply f_equal. apply f_equal2.
  - apply sumZ_ext. intros i Hi. rewrite coef_map by lia. reflexivity.
  - apply sumZ_ext. intros i Hi. rewrite coef_map by lia. reflexivity.
Qed.

(** ** The noise of a decrypted slot *)

Lemma centeredMod_mod (v q : Z) : 0 < q -> centeredMod v q mod q = v mod q.
Proof. intros Hq. apply (centeredMod_spec v q Hq). Qed.

Lemma abs_small (B : Z) (l : list Z) (j : nat) :
  0 <= B -> Forall (fun v => - B <= v <= B) l -> Z.abs (coef l j) <= B.
Proof.
  intros HB Hall. unfold coef.
  destruct (l !! j) as [v |] eqn:E; cbn.
  - rewrite Forall_lookup in Hall. specialize (Hall j v E).
    cbn beta in Hall. lia.
  - lia.
Qed.

(** The slot that decryption sees is [DELTA * m] plus a noise made of
    [e * r], [s * e2] and [e1], where [s] and [e] are the centred secret
    key and key noise. *)
Lemma decrypt_noise (n : nat) (q : Z) (a b sk r e1 e2 m s e : nat -> Z)
    (D : Z) (i : nat) :
  0 < q -> (i < n)%nat ->
  (forall k, (k < n)%nat -> s k mod q = sk k mod q) ->
  (forall k, (k < n)%nat -> e k mod q = (b k + nconv n a sk k) mod q) ->
  ((nconv n b r i + e1 i + D * m i) mod q
   + nconv n sk (fun j => (nconv n a r j + e2 j) mod q) i mod q) mod q
  = (D * m i + (nconv n e r i + nconv n s e2 i + e1 i)) mod q.
Proof.
  intros Hq Hi Hs He.
  rewrite <- Zplus_mod.
  (* the product with the secret key, step by step modulo q *)
  assert (Hprod :
    nconv n sk (fun j => (nconv n a r j + e2 j) mod q) i mod q
    = (nconv n (nconv n a sk) r i + nconv n s e2 i) mod q).
  { rewrite (nconv_mod_r n q sk _ (fun j => nconv n a r j + e2 j))
      by (intros j _; apply Zmod_mod).
    rewrite nconv_add_r.
    rewrite Zplus_mod.
    rewrite (nconv_mod_l n q sk s e2) by (intros k Hk; symmetry; apply Hs; exact Hk).
    rewrite <- Zplus_mod.
    rewrite <- (nconv_assoc n sk a r i Hi).
    rewrite (nconv_ext n (nconv n sk a) (nconv n a sk) r r i);
      [reflexivity | | reflexivity].
    intros k _. apply nconv_comm. }
  rewrite Zplus_mod, Hprod, <- Zplus_mod.
  assert (Hkey :
    (nconv n b r i + nconv n (nconv n a sk) r i) mod q = nconv n e r i mod q).
  { rewrite <- nconv_add_l. symmetry. apply nconv_mod_l. exact He. }
  replace (nconv n b r i + e1 i + D * m i
           + (nconv n (nconv n a sk) r i + nconv n s e2 i))
    with ((nconv n b r i + nconv n (nconv n a sk) r i)
          + (D * m i + nconv n s e2 i + e1 i)) by ring.
  rewrite Zplus_mod, Hkey, <- Zplus_mod.
  apply (f_equal (fun v => v mod q)). ring.
Qed.

Lemma N_value : Z.of_nat N = 1024.
Proof. reflexivity. Qed.

Lemma msgOf_range (ownerX ownerY : Z) (i : nat) :
  0 <= msgOf ownerX ownerY i < 256.
Proof. unfold msgOf. destruct (i <? 32)%nat; apply byteOf_range. Qed.

(** A slot of an honest ciphertext decrypts to its message byte as long
    as the accumulated noise stays below half of [DELTA]. *)
Lemma decSlot_encrypt (pk : RlwePk) (skModQ r e1 e2 : list Z) (m : nat -> Z)
    (Bs Be : Z) (i : nat) :
  (i < MSG_SLOTS)%nat ->
  0 <= m i < 256 ->
  Forall (fun v => -3 <= v <= 3) r ->
  Forall (fun v => -3 <= v <= 3) e1 ->
  Forall (fun v => -3 <= v <= 3) e2 ->
  (forall k, (k < N)%nat -> Z.abs (secretCoef skModQ k) <= Bs) ->
  (forall k, (k < N)%nat -> Z.abs (keyNoise pk skModQ k) <= Be) ->
  3 * 1024 * (Bs + Be) + 3 <= 327678 ->
  decSlot
    (coef (map (encC0 (coef (pk_b pk)) (coef r) (coef e1) m)
               (seq 0 MSG_SLOTS)))
    (coef (map (encC1 (coef (pk_a pk)) (coef r) (coef e2)) (seq 0 N)))
    (coef skModQ) i
  = m i.
Proof.
  intros Hi Hm Hr He1 He2 Hs He Hbound.
  pose proof MSG_SLOTS_le_N as Hmn. pose proof RLWE_Q_pos as Hq.
  assert (HiN : (i < N)%nat) by lia.
  unfold decSlot. rewrite coef_map by exact Hi.
  rewrite (nconv_ext N (coef skModQ) (coef skModQ) _
             (fun j => (nconv N (coef (pk_a pk)) (coef r) j + coef e2 j)
                       mod RLWE_Q) i);
    [| reflexivity | intros j Hj; rewrite coef_map by exact Hj; reflexivity].
  unfold encC0.
  rewrite Z.rem_mod_nonneg.
  2:{ pose proof (Z.mod_pos_bound
                    (nconv N (coef (pk_b pk)) (coef r) i + coef e1 i
                     + DELTA * m i) RLWE_Q Hq).
      pose proof (Z.mod_pos_bound
                    (nconv N (coef skModQ)
                       (fun j => (nconv N (coef (pk_a pk)) (coef r) j
                                  + coef e2 j) mod RLWE_Q) i) RLWE_Q Hq).
      lia. }
  2:{ exact Hq. }
  rewrite (decrypt_noise N RLWE_Q (coef (pk_a pk)) (coef (pk_b pk))
             (coef skModQ) (coef r) (coef e1) (coef e2) m
             (secretCoef skModQ) (keyNoise pk skModQ) DELTA i Hq HiN).
  2:{ intros k _. apply centeredMod_mod. exact Hq. }
  2:{ intros k _. apply centeredMod_mod. exact Hq. }
  apply recoverSlot_correct; [exact Hm |].
  assert (HBs : 0 <= Bs).
  { pose proof (Hs 0%nat ltac:(unfold N; lia)).
    pose proof (Z.abs_nonneg (secretCoef skModQ 0)). lia. }
  assert (HBe : 0 <= Be).
  { pose proof (He 0%nat ltac:(unfold N; lia)).
    pose proof (Z.abs_nonneg (keyNoise pk skModQ 0)). lia. }
  pose proof (nconv_abs N (keyNoise pk skModQ) (coef r) Be 3 i He
                (fun j _ => abs_small 3 r j ltac:(lia) Hr) HiN) as H1.
  pose proof (nconv_abs N (secretCoef skModQ) (coef e2) Bs 3 i Hs
                (fun j _ => abs_small 3 e2 j ltac:(lia) He2) HiN) as H2.
  pose proof (abs_small 3 e1 i ltac:(lia) He1) as H3.
  rewrite N_value in H1, H2.
  clear - H1 H2 H3 Hbound HBs HBe. lia.
Qed.

(** C1 (as amended). Take a public key [(a, b)] and a secret key [s]
    (reduced modulo [Q]) such that [b + a * s] is small in
    [Z_Q[X]/(X^N + 1)], that is [b = -(a * s) + e]: the centred
    coefficients of [s] are bounded by [Bs], those of [b + a * s] by [Be],
    and [3 * 1024 * (Bs + Be) + 3 <= 327678] (below [DELTA / 2]).  Then for
    all [ownerX], [ownerY] of at most 256 bits (in particular all 254-bit
    field elements) and all noise vectors [r], [e1], [e2] with entries in
    [[-3, 3]], [rlweEncrypt] returns a ciphertext which [rlweDecrypt]
    under [s] maps back to exactly [(ownerX, ownerY)]. *)
Theorem rlwe_roundtrip (pk : RlwePk) (skModQ : list Z) (ownerX ownerY : Z)
    (r e1 e2 : list Z) (Bs Be : Z) :
  length (pk_a pk) = N -> length (pk_b pk) = N -> length skModQ = N ->
  length r = N -> length e1 = MSG_SLOTS -> length e2 = N ->
  0 <= ownerX < 2 ^ 256 -> 0 <= ownerY < 2 ^ 256 ->
  Forall (fun v => -3 <= v <= 3) r ->
  Forall (fun v => -3 <= v <= 3) e1 ->
  Forall (fun v => -3 <= v <= 3) e2 ->
  (forall k, (k < N)%nat -> Z.abs (secretCoef skModQ k) <= Bs) ->
  (forall k, (k < N)%nat -> Z.abs (keyNoise pk skModQ k) <= Be) ->
  3 * 1024 * (Bs + Be) + 3 <= 327678 ->
  exists ct,
    rlweEncrypt pk ownerX ownerY r e1 e2 = Some ct /\
    rlweDecrypt (c0Sparse ct) (c1 ct) skModQ = Some (ownerX, ownerY).
Proof.
  intros Ha Hb Hsk Hr He1 He2 HX HY Hrr He1r He2r Hs He Hbound.
  pose proof MSG_SLOTS_le_N as Hmn.
  eexists. split; [apply rlweEncrypt_spec; lia |].
  cbn [c0Sparse c1].
  rewrite rlweDecrypt_spec by (rewrite ?length_map_seq; lia).
  assert (Hslot : forall i, (i < MSG_SLOTS)%nat ->
    Z.land
      (decSlot
         (coef (map (encC0 (coef (pk_b pk)) (coef r) (coef e1)
                           (msgOf ownerX ownerY)) (seq 0 MSG_SLOTS)))
         (coef (map (encC1 (coef (pk_a pk)) (coef r) (coef e2)) (seq 0 N)))
         (coef skModQ) i) 255
    = msgOf ownerX ownerY i).
  { intros i Hi.
    rewrite (decSlot_encrypt pk skModQ r e1 e2 (msgOf ownerX ownerY) Bs Be i);
      try assumption; try apply msgOf_range.
    apply land_255_byte, msgOf_range. }
  assert (H64 : MSG_SLOTS = 64%nat) by reflexivity.
  apply f_equal. apply f_equal2.
  - etransitivity; [| apply (bytes_roundtrip ownerX HX)]. unfold bytesValue.
    apply sumZ_ext. intros i Hi. rewrite Hslot by lia.
    unfold msgOf. cbn [Nat.add].
    destruct (Nat.ltb_spec i 32); [reflexivity | lia].
  - etransitivity; [| apply (bytes_roundtrip ownerY HY)]. unfold bytesValue.
    apply sumZ_ext. intros i Hi. rewrite Hslot by lia.
    unfold msgOf.
    destruct (Nat.ltb_spec (32 + i) 32); [lia |].
    replace (32 + i - 32)%nat with i by lia. reflexivity.
Qed.

(** ** Keys whose [a] is a constant polynomial *)

Lemma nconv_const_l (n : nat) (a b : nat -> Z) (k : nat) :
  (forall i, (0 < i < n)%nat -> a i = 0) -> (k < n)%nat ->
  nconv n a b k = a 0%nat * b k.
Proof.
  intros Ha Hk. unfold nconv.
  rewrite (sumZ_single n _ 0%nat); [| lia |].
  - rewrite (sumZ_single n _ k); [| exact Hk |].
    + unfold wrapSign. cbn [Nat.add]. rewrite Nat.eqb_refl. ring.
    + intros j Hj Hne. unfold wrapSign. cbn [Nat.add].
      destruct (Nat.eqb_spec j k); [lia |].
      destruct (Nat.eqb_spec j (k + n)); [lia |]. ring.
  - intros i Hi Hne. apply sumZ_zero. intros j _.
    rewrite Ha by lia. ring.
Qed.

Lemma coef_cons_0 (v : Z) (l : list Z) : coef (v :: l) 0 = v.
Proof. reflexivity. Qed.

Lemma coef_cons_zeros (v : Z) (m i : nat) :
  (0 < i)%nat -> coef (v :: replicate m 0) i = 0.
Proof.
  intros Hi. destruct i as [| i]; [lia |]. unfold coef.
  change ((v :: replicate m 0) !! S i) with (replicate m 0 !! i).
  destruct (decide (i < m)%nat) as [Hlt | Hge].
  - rewrite (lookup_replicate_2 m 0 i Hlt). reflexivity.
  - rewrite lookup_ge_None_2 by (rewrite length_replicate; lia). reflexivity.
Qed.

Lemma rlwe_roundtrip_witness :
  let pk := {| pk_a := 12345 :: replicate 1023 0;
               pk_b := replicate N 167759818 |} in
  exists ct,
    rlweEncrypt pk (2 ^ 253 + 12345) 987654321 (replicate N (-3))
                (replicate MSG_SLOTS 3) (replicate N 2) = Some ct /\
    rlweDecrypt (c0Sparse ct) (c1 ct) (replicate N 1)
    = Some (2 ^ 253 + 12345, 987654321).
Proof.
  cbv zeta.
  apply (rlwe_roundtrip
           {| pk_a := 12345 :: replicate 1023 0;
              pk_b := replicate N 167759818 |}
           (replicate N 1) (2 ^ 253 + 12345) 987654321
           (replicate N (-3)) (replicate MSG_SLOTS 3) (replicate N 2) 1 2);
    try apply length_replicate; try reflexivity;
    try (apply Forall_replicate; lia); try lia.
  - intros k Hk. unfold secretCoef. rewrite coef_replicate by exact Hk.
    vm_compute. discriminate.
  - intros k Hk. unfold keyNoise. cbn [pk_a pk_b].
    rewrite nconv_const_l; [| | exact Hk].
    + rewrite coef_cons_0, !coef_replicate by exact Hk.
      vm_compute. discriminate.
    + intros i Hi. apply coef_cons_zeros. lia.
Defined.

Lemma byteOf_0 (i : nat) : byteOf 0 i = 0.
Proof. unfold byteOf. rewrite Z.shiftr_0_l. reflexivity. Qed.

Lemma msgOf_0 (i : nat) : msgOf 0 0 i = 0.
Proof. unfold msgOf. destruct (i <? 32)%nat; apply byteOf_0. Qed.

(** The claim as stated takes [b = a * s + e].  With that sign the two
    products add up instead of cancelling: for [a = 327680], [s = 1],
    [e = 0] (so [b = a]) and the noise [r = 1], [e1 = e2 = 0], the
    identity [(0, 0)] is encrypted and decrypted to [(1, 0)]. *)
Lemma rlwe_roundtrip_fails_for_b_as_plus_e :
  let a := 327680 :: replicate 1023 0 in
  let s := 1 :: replicate 1023 0 in
  let pk := {| pk_a := a; pk_b := a |} in
  negacyclicMulModQ a s N RLWE_Q = Some (pk_b pk) /\
  exists ct,
    rlweEncrypt pk 0 0 s (replicate MSG_SLOTS 0) (replicate N 0) = Some ct /\
    rlweDecrypt (c0Sparse ct) (c1 ct) s = Some (1, 0) /\
    Some (1, 0) <> Some (0, 0).
Proof.
  cbv zeta.
  set (a := 327680 :: replicate 1023 0).
  set (s := 1 :: replicate 1023 0).
  assert (Hla : length a = N) by reflexivity.
  assert (Hls : length s = N) by reflexivity.
  assert (Ha0 : forall i, (0 < i < N)%nat -> coef a i = 0)
    by (intros i Hi; apply coef_cons_zeros; lia).
  assert (Hs0 : forall i, (0 < i < N)%nat -> coef s i = 0)
    by (intros i Hi; apply coef_cons_zeros; lia).
  pose proof MSG_SLOTS_le_N as Hmn.
  assert (Hprod : forall k, (k < N)%nat ->
            nconv N (coef a) (coef s) k
            = if decide (k = 0%nat) then 327680 else 0).
  { intros k Hk. rewrite nconv_const_l by assumption.
    destruct (decide (k = 0%nat)) as [-> | Hne]; [reflexivity |].
    rewrite Hs0 by lia. ring. }
  split.
  { rewrite negacyclicMulModQ_spec by (try apply RLWE_Q_pos; lia).
    apply f_equal. cbn [pk_b]. apply list_eq. intros k.
    destruct (decide (k < N)%nat) as [Hk | Hk].
    - rewrite ringOf_lookup by exact Hk. rewrite Hprod by exact Hk.
      rewrite (coef_lookup a k) by lia.
      destruct (decide (k = 0%nat)) as [-> | Hne]; [reflexivity |].
      rewrite Ha0 by lia. reflexivity.
    - rewrite !lookup_ge_None_2; [reflexivity | lia |].
      rewrite length_ringOf. lia. }
  eexists. split.
  { apply rlweEncrypt_spec; cbn [pk_a pk_b]; rewrite ?length_replicate; lia. }
  cbn [c0Sparse c1 pk_a pk_b].
  rewrite rlweDecrypt_spec by (rewrite ?length_map_seq; lia).
  assert (Hslot : forall i, (i < MSG_SLOTS)%nat ->
    decSlot
      (coef (map (encC0 (coef a) (coef s) (coef (replicate MSG_SLOTS 0))
                        (msgOf 0 0)) (seq 0 MSG_SLOTS)))
      (coef (map (encC1 (coef a) (coef s) (coef (replicate N 0))) (seq 0 N)))
      (coef s) i
    = if decide (i = 0%nat) then 1 else 0).
  { intros i Hi. assert (HiN : (i < N)%nat) by lia.
    unfold decSlot. rewrite coef_map by exact Hi.
    rewrite (nconv_const_l N (coef s)) by assumption.
    rewrite coef_map by exact HiN.
    unfold encC0, encC1.
    rewrite Hprod by exact HiN.
    rewrite msgOf_0, !coef_replicate by assumption.
    destruct (decide (i = 0%nat)) as [-> | Hne]; vm_compute; reflexivity. }
  split; [| discriminate].
  apply f_equal. apply f_equal2.
  - unfold bytesValue. rewrite (sumZ_single 32 _ 0%nat); [| lia |].
    + cbn [Nat.add]. rewrite Hslot by (unfold MSG_SLOTS; lia).
      reflexivity.
    + intros j Hj Hne. cbn [Nat.add].
      rewrite Hslot by (unfold MSG_SLOTS; lia).
      destruct (decide (j = 0%nat)); [lia | reflexivity].
  - unfold bytesValue. apply sumZ_zero. intros j Hj.
    rewrite Hslot by (unfold MSG_SLOTS; lia).
    destruct (decide ((32 + j)%nat = 0%nat)); [lia | reflexivity].
Qed.

(** * [BN254_P] is prime *)

Lemma noDivisorFrom_sound (n : Z) (fuel : nat) : forall d,
  0 < d ->
  noDivisorFrom n d fuel = true ->
  forall k, d <= k -> k * k <= n -> ~ (k | n).
Proof.
  induction fuel as [| fuel IH]; intros d Hd Hrun k Hk Hkk; cbn in Hrun;
    [discriminate |].
  destruct (Z.ltb_spec n (d * d)) as [Hlt | Hge]; [nia |].
  destruct (Z.eqb_spec (n mod d) 0) as [Hz | Hnz]; [discriminate |].
  destruct (Z.eq_dec k d) as [-> | Hne].
  - intros Hdiv. apply Hnz. apply Z.mod_divide; [lia | exact Hdiv].
  - apply (IH (d + 1)); try assumption; lia.
Qed.

Lemma trialPrime_sound (n : Z) : trialPrime n = true -> Z.prime n.
Proof.
  unfold trialPrime. intros Hrun.
  apply andb_prop in Hrun. destruct Hrun as [H1 Hnd].
  apply Z.ltb_lt in H1.
  pose proof (noDivisorFrom_sound n _ 2 ltac:(lia) Hnd) as Hno.
  split; [exact H1 |]. intros m Hm [c Hc].
  assert (Hcpos : 1 < c < n) by nia.
  destruct (Z_le_gt_dec (m * m) n) as [Hle | Hgt].
  - apply (Hno m); [lia | exact Hle | exists c; exact Hc].
  - apply (Hno c); [lia | nia | exists m; lia].
Qed.

Lemma exists_prime_divisor (n : Z) :
  1 < n -> exists p, Z.prime p /\ (p | n).
Proof.
  assert (Hgen : forall k : nat, forall m, 1 < m -> m <= Z.of_nat k ->
                   exists p, Z.prime p /\ (p | m)).
  { induction k as [| k IH]; intros m Hm Hk; [lia |].
    destruct (prime_dec m) as [Hp | Hnp].
    - exists m. split; [apply prime_alt; exact Hp | apply Z.divide_refl].
    - destruct (not_prime_divide m Hm Hnp) as (d & Hd & Hdiv).
      destruct (IH d ltac:(lia) ltac:(lia)) as (p & Hp & Hpd).
      exists p. split; [exact Hp |].
      eapply Z.divide_trans; eauto. }
  intros Hn. apply (Hgen (Z.to_nat n)); lia.
Qed.

Lemma pow_mod_one (p x k : Z) :
  1 < p -> 0 <= k -> x mod p = 1 -> x ^ k mod p = 1.
Proof.
  intros Hp Hk Hx. rewrite Zpower_mod by lia. rewrite Hx.
  rewrite Z.pow_1_l by lia. apply Z.mod_1_l. lia.
Qed.

(** If [x^s] and [x^t] are 1 modulo [p], so is [x^gcd(s, t)]. *)
Lemma pow_gcd_one (p x : Z) :
  1 < p ->
  forall s t, 0 <= s -> 0 <= t ->
    x ^ s mod p = 1 -> x ^ t mod p = 1 -> x ^ Z.gcd s t mod p = 1.
Proof.
  intros Hp.
  assert (Hgen : forall k : nat, forall s t,
            0 <= s -> 0 <= t -> t < Z.of_nat k ->
            x ^ s mod p = 1 -> x ^ t mod p = 1 ->
            x ^ Z.gcd s t mod p = 1).
  { induction k as [| k IH]; intros s t Hs Ht Hk Hxs Hxt; [lia |].
    destruct (Z.eq_dec t 0) as [-> | Hnz].
    - rewrite Z.gcd_0_r, Z.abs_eq by lia. exact Hxs.
    - pose proof (Z.mod_pos_bound s t ltac:(lia)) as Hr.
      pose proof (Z.div_mod s t Hnz) as Hdm.
      assert (Hq : 0 <= s / t) by (apply Z.div_pos; lia).
      assert (Hxr : x ^ (s mod t) mod p = 1).
      { rewrite Hdm in Hxs.
        rewrite Z.pow_add_r in Hxs by nia.
        rewrite Z.pow_mul_r in Hxs by lia.
        rewrite Zmult_mod in Hxs.
        rewrite (pow_mod_one p (x ^ t) (s / t)) in Hxs by assumption.
        rewrite Z.mul_1_l, Zmod_mod in Hxs. exact Hxs. }
      rewrite (Z.gcd_comm s t), <- (Z.gcd_mod s t Hnz), Z.gcd_comm.
      apply IH; try assumption; lia. }
  intros s t Hs Ht. apply (Hgen (S (Z.to_nat t))); lia.
Qed.

(** A positive divisor of a prime power is that power or divides the
    previous one. *)
Lemma prime_power_divisor (q : Z) (e : nat) (g : Z) :
  Z.prime q -> 0 < g -> (g | q ^ Z.of_nat e) ->
  g = q ^ Z.of_nat e \/ ((0 < e)%nat /\ (g | q ^ Z.of_nat (e - 1))).
Proof.
  intros Hq. pose proof (Z.prime_ge_2 q Hq) as Hq2.
  revert g. induction e as [| e IH]; intros g Hg Hdiv.
  - left. cbn in *. apply Z.divide_1_r_nonneg in Hdiv; lia.
  - replace (S e - 1)%nat with e by lia.
    rewrite Nat2Z.inj_succ, Z.pow_succ_r in Hdiv by lia.
    destruct (Znumtheory.Zdivide_dec q g) as [[g' Hg'] | Hnd].
    + subst g. assert (Hg'pos : 0 < g') by nia.
      assert (Hd' : (g' | q ^ Z.of_nat e)).
      { destruct Hdiv as [c Hc]. exists c. nia. }
      destruct (IH g' Hg'pos Hd') as [-> | [He Hd'']].
      * left. rewrite Nat2Z.inj_succ, Z.pow_succ_r by lia. lia.
      * right. split; [lia |].
        replace (Z.of_nat e) with (Z.succ (Z.of_nat (e - 1))) by lia.
        rewrite Z.pow_succ_r by lia.
        rewrite (Z.mul_comm g' q). apply Z.mul_divide_mono_l. exact Hd''.
    + right. split; [lia |].
      apply (Z.gauss g q); [exact Hdiv |].
      rewrite Z.gcd_comm. apply Z.coprime_prime_l; assumption.
Qed.

Lemma mod_one_divide (p n x : Z) :
  1 < p -> (p | n) -> 0 < n -> x mod n = 1 -> x mod p = 1.
Proof.
  intros Hp [c Hc] Hn Hx.
  pose proof (Z.div_mod x n ltac:(lia)) as Hdm. rewrite Hx in Hdm.
  rewrite Hdm, Hc.
  replace (c * p * (x / (c * p)) + 1) with (1 + (c * (x / (c * p))) * p)
    by lia.
  rewrite Z.mod_add by lia. apply Z.mod_1_l. lia.
Qed.

Lemma unit_of_pow_one (p a k : Z) :
  1 < p -> 0 < k -> a ^ k mod p = 1 -> a mod p <> 0.
Proof.
  intros Hp Hk Ha Hz. rewrite Zpower_mod, Hz in Ha by lia.
  rewrite Z.pow_0_l in Ha by lia. rewrite Z.mod_0_l in Ha by lia. lia.
Qed.

Lemma divide_of_mod_one (p n x : Z) :
  1 < p -> 0 < n -> (p | n) -> x mod p = 1 -> (p | x mod n - 1).
Proof.
  intros Hp Hn [k Hk] Hx.
  pose proof (Z.div_mod x n ltac:(lia)) as Hdm.
  pose proof (Z.div_mod x p ltac:(lia)) as Hdp.
  rewrite Hx in Hdp.
  exists (x / p - k * (x / n)).
  rewrite Z.mul_sub_distr_r.
  replace (k * (x / n) * p) with (n * (x / n)) by (rewrite Hk; ring).
  lia.
Qed.

(** The heart of Pocklington's criterion: every prime factor [p] of [n] is
    1 modulo each certified prime power. *)
Lemma pocklington_factor (n p q a : Z) (e : nat) :
  1 < n -> Z.prime p -> (p | n) ->
  Z.prime q -> (0 < e)%nat -> (q ^ Z.of_nat e | n - 1) ->
  a ^ (n - 1) mod n = 1 ->
  Z.gcd (a ^ ((n - 1) / q) mod n - 1) n = 1 ->
  (q ^ Z.of_nat e | p - 1).
Proof.
  intros Hn Hp Hpn Hq He Hqe.
  pose proof (Z.prime_ge_2 p Hp) as Hp2.
  pose proof (Z.prime_ge_2 q Hq) as Hq2.
  assert (Hp1 : 1 < p) by lia.
  assert (Hp0 : 0 <= p - 1) by lia.
  assert (Hn0 : 0 < n) by lia.
  assert (Hn1 : 0 < n - 1) by lia.
  assert (Hq0 : q <> 0) by lia.
  assert (Hqepos : 0 < q ^ Z.of_nat e) by (apply Z.pow_pos_nonneg; lia).
  assert (Hqe1pos : 0 < q ^ Z.of_nat (e - 1))
    by (apply Z.pow_pos_nonneg; lia).
  assert (Hqe0 : 0 <= q ^ Z.of_nat e) by lia.
  assert (Hqe10 : 0 <= q ^ Z.of_nat (e - 1)) by lia.
  assert (Hsucc : q ^ Z.of_nat e = q * q ^ Z.of_nat (e - 1)).
  { replace (Z.of_nat e) with (Z.succ (Z.of_nat (e - 1))) by lia.
    apply Z.pow_succ_r. lia. }
  destruct Hqe as [m Hm].
  assert (Hmpos : 0 < m).
  { apply (Z.mul_pos_cancel_r _ (q ^ Z.of_nat e)); [exact Hqepos |].
    rewrite <- Hm. exact Hn1. }
  assert (Hm0 : 0 <= m) by lia.
  assert (Hdivq : (n - 1) / q = m * q ^ Z.of_nat (e - 1)).
  { rewrite Hm, Hsucc.
    replace (m * (q * q ^ Z.of_nat (e - 1)))
      with (m * q ^ Z.of_nat (e - 1) * q) by ring.
    apply Z.div_mul. exact Hq0. }
  assert (Hgpos : 0 < Z.gcd (q ^ Z.of_nat e) (p - 1)).
  { pose proof (Z.gcd_nonneg (q ^ Z.of_nat e) (p - 1)) as Hnn.
    destruct (Z.eq_dec (Z.gcd (q ^ Z.of_nat e) (p - 1)) 0) as [Hz | Hz].
    - apply Z.gcd_eq_0_l in Hz. rewrite Hz in Hqepos.
      exfalso. revert Hqepos. apply Z.lt_irrefl.
    - apply Z.le_neq. split; [exact Hnn | congruence]. }
  intros Ha Hg.
  (* a is a unit modulo p *)
  assert (Hap : a ^ (n - 1) mod p = 1)
    by (apply (mod_one_divide p n); assumption).
  pose proof (unit_of_pow_one p a (n - 1) Hp1 Hn1 Hap) as Hanz.
  pose proof (Z.fermat_nz p a Hp Hanz) as Hfermat.
  (* b = a^m has b^(q^e) = 1 and b^(p-1) = 1 modulo p *)
  assert (Hb1 : (a ^ m) ^ (q ^ Z.of_nat e) mod p = 1).
  { rewrite <- Z.pow_mul_r by assumption. rewrite <- Hm. exact Hap. }
  assert (Hb2 : (a ^ m) ^ (p - 1) mod p = 1).
  { rewrite <- Z.pow_mul_r by assumption.
    rewrite (Z.mul_comm m), Z.pow_mul_r by assumption.
    apply pow_mod_one; assumption. }
  pose proof (pow_gcd_one p (a ^ m) Hp1 (q ^ Z.of_nat e) (p - 1)
                Hqe0 Hp0 Hb1 Hb2) as Hbg.
  destruct (prime_power_divisor q e _ Hq Hgpos (Z.gcd_divide_l _ _))
    as [Heq | [_ Hdiv]].
  - rewrite <- Heq. apply Z.gcd_divide_r.
  - exfalso.
    (* then a^((n-1)/q) = 1 modulo p, against the gcd condition *)
    destruct Hdiv as [c Hc].
    assert (Hcpos : 0 <= c).
    { apply Z.lt_le_incl.
      apply (Z.mul_pos_cancel_r _ (Z.gcd (q ^ Z.of_nat e) (p - 1)));
        [exact Hgpos |]. rewrite <- Hc. exact Hqe1pos. }
    assert (Hb3 : (a ^ m) ^ (q ^ Z.of_nat (e - 1)) mod p = 1).
    { rewrite Hc, (Z.mul_comm c), Z.pow_mul_r
        by (assumption || apply Z.lt_le_incl; assumption).
      apply pow_mod_one; assumption. }
    assert (Hone : a ^ ((n - 1) / q) mod p = 1).
    { rewrite Hdivq, Z.pow_mul_r by assumption. exact Hb3. }
    pose proof (divide_of_mod_one p n _ Hp1 Hn0 Hpn Hone) as Hpd.
    assert (Hpone : (p | 1)).
    { rewrite <- Hg. apply Z.gcd_greatest; assumption. }
    apply Z.divide_1_r_nonneg in Hpone; [| clear - Hp1; lia].
    clear - Hpone Hp1. lia.
Qed.

Lemma divide_mul_coprime (a b c : Z) :
  Z.gcd a b = 1 -> (a | c) -> (b | c) -> (a * b | c).
Proof.
  intros Hg [k Hk] Hb. subst c.
  rewrite Z.mul_comm. apply Z.mul_divide_mono_r.
  apply (Z.gauss b a); [rewrite Z.mul_comm; exact Hb |].
  rewrite Z.gcd_comm. exact Hg.
Qed.

Lemma pockItems_divides (n p : Z) (cert : list (Z * nat * Z)) :
  1 < n -> Z.prime p -> (p | n) ->
  Forall (fun item => Z.prime (fst (fst item))) cert ->
  pockItems n cert = true ->
  (certF cert | p - 1).
Proof.
  intros Hn Hp Hpn.
  induction cert as [| [[q e] a] rest IH]; intros Hprimes Hrun.
  - cbn. apply Z.divide_1_l.
  - cbn [pockItems] in Hrun. cbn [certF fold_right].
    fold (certF rest).
    repeat (apply andb_prop in Hrun; destruct Hrun as [Hrun ?]).
    inversion Hprimes as [| ? ? Hq Hrest]; subst. cbn in Hq.
    apply divide_mul_coprime.
    + apply Z.eqb_eq. assumption.
    + apply (pocklington_factor n p q a e); try assumption.
      * apply Nat.ltb_lt. assumption.
      * apply Z.mod_divide; [| apply Z.eqb_eq; assumption].
        pose proof (Z.prime_ge_2 q Hq).
        apply Z.pow_nonzero; lia.
      * rewrite <- Zpow_mod_correct by lia. apply Z.eqb_eq. assumption.
      * rewrite <- Zpow_mod_correct by lia. apply Z.eqb_eq. assumption.
    + apply IH; assumption.
Qed.

Lemma certF_pos (cert : list (Z * nat * Z)) :
  Forall (fun item => Z.prime (fst (fst item))) cert -> 0 < certF cert.
Proof.
  induction 1 as [| [[q e] a] rest Hq _ IH]; cbn [certF fold_right]; [lia |].
  fold (certF rest). cbn in Hq. pose proof (Z.prime_ge_2 q Hq).
  apply Z.mul_pos_pos; [apply Z.pow_pos_nonneg; lia | exact IH].
Qed.

(** Pocklington's criterion, as a checkable certificate. *)
Lemma pockCheck_sound (n : Z) (cert : list (Z * nat * Z)) :
  Forall (fun item => Z.prime (fst (fst item))) cert ->
  pockCheck n cert = true ->
  Z.prime n.
Proof.
  intros Hprimes Hrun. unfold pockCheck in Hrun.
  apply andb_prop in Hrun. destruct Hrun as [Hrun Hitems].
  apply andb_prop in Hrun. destruct Hrun as [Hn HF].
  apply Z.ltb_lt in Hn. apply Z.ltb_lt in HF.
  assert (Hfactor : forall p, Z.prime p -> (p | n) -> certF cert < p).
  { intros p Hp Hpn.
    pose proof (pockItems_divides n p cert Hn Hp Hpn Hprimes Hitems) as Hd.
    pose proof (Z.prime_ge_2 p Hp).
    destruct (Z_le_gt_dec (certF cert) 0) as [Hle | Hgt]; [lia |].
    apply Z.divide_pos_le in Hd; lia. }
  split; [exact Hn |]. intros d Hd [c Hc].
  assert (Hc1 : 1 < c < n) by (clear - Hn Hd Hc; nia).
  destruct (exists_prime_divisor d ltac:(lia)) as (p1 & Hp1 & Hp1d).
  destruct (exists_prime_divisor c ltac:(lia)) as (p2 & Hp2 & Hp2c).
  assert (H1 : certF cert < p1).
  { apply Hfactor; [exact Hp1 |]. eapply Z.divide_trans; [exact Hp1d |].
    exists c. lia. }
  assert (H2 : certF cert < p2).
  { apply Hfactor; [exact Hp2 |]. eapply Z.divide_trans; [exact Hp2c |].
    exists d. lia. }
  apply Z.divide_pos_le in Hp1d; [| lia].
  apply Z.divide_pos_le in Hp2c; [| lia].
  pose proof (Z.prime_ge_2 p1 Hp1) as Hp1ge.
  pose proof (Z.prime_ge_2 p2 Hp2) as Hp2ge.
  pose proof (certF_pos cert Hprimes) as Hgt.
  assert (Hprod : certF cert * certF cert < d * c).
  { apply Z.le_lt_trans with (certF cert * p2).
    - apply Z.mul_le_mono_nonneg_l; lia.
    - apply Z.lt_le_trans with (p1 * p2).
      + apply Z.mul_lt_mono_pos_r; lia.
      + apply Z.mul_le_mono_nonneg; lia. }
  clear - Hprod HF Hc. lia.
Qed.

Lemma prime_by_trial (n : Z) : trialPrime n = true -> Z.prime n.
Proof. apply trialPrime_sound. Qed.

Lemma prime_7 : Z.prime 7.
Proof. apply prime_by_trial. vm_compute. reflexivity. Qed.
Lemma prime_13 : Z.prime 13.
Proof. apply prime_by_trial. vm_compute. reflexivity. Qed.
Lemma prime_29 : Z.prime 29.
Proof. apply prime_by_trial. vm_compute. reflexivity. Qed.
Lemma prime_107 : Z.prime 107.
Proof. apply prime_by_trial. vm_compute. reflexivity. Qed.
Lemma prime_661 : Z.prime 661.
Proof. apply prime_by_trial. vm_compute. reflexivity. Qed.
Lemma prime_983 : Z.prime 983.
Proof. apply prime_by_trial. vm_compute. reflexivity. Qed.
Lemma prime_11003 : Z.prime 11003.
Proof. apply prime_by_trial. vm_compute. reflexivity. Qed.
Lemma prime_237073 : Z.prime 237073.
Proof. apply prime_by_trial. vm_compute. reflexivity. Qed.
Lemma prime_405928799 : Z.prime 405928799.
Proof. apply prime_by_trial. vm_compute. reflexivity. Qed.

Lemma prime_12048837557 : Z.prime 12048837557.
Proof.
  apply (pockCheck_sound _ cert_12048837557).
  - repeat constructor; cbn [fst].
    + apply Z.prime_2.
    + apply prime_7.
    + apply prime_661.
  - vm_compute. reflexivity.
Qed.

Lemma prime_5156902474397 : Z.prime 5156902474397.
Proof.
  apply (pockCheck_sound _ cert_5156902474397).
  - repeat constructor; cbn [fst].
    + apply Z.prime_2.
    + apply prime_107.
    + apply prime_12048837557.
  - vm_compute. reflexivity.
Qed.

Lemma prime_1670836401704629 : Z.prime 1670836401704629.
Proof.
  apply (pockCheck_sound _ cert_1670836401704629).
  - repeat constructor; cbn [fst].
    + apply Z.prime_2.
    + apply Z.prime_3.
    + apply prime_5156902474397.
  - vm_compute. reflexivity.
Qed.

Theorem BN254_P_prime : Z.prime BN254_P.
Proof.
  apply (pockCheck_sound _ cert_BN254_P).
  - repeat constructor; cbn [fst].
    + apply Z.prime_2.
    + apply Z.prime_3.
    + apply prime_13.
    + apply prime_29.
    + apply prime_983.
    + apply prime_11003.
    + apply prime_237073.
    + apply prime_405928799.
    + apply prime_1670836401704629.
  - vm_compute. reflexivity.
Qed.

(** * Shamir reconstruction *)

Lemma rem_cong (a m : Z) : 0 < m -> Z.rem a m mod m = a mod m.
Proof.
  intros Hm. pose proof (Z.quot_rem' a m) as Hqr.
  rewrite Hqr at 2. rewrite Z.add_comm, Z.mul_comm, Z.mod_add by lia.
  reflexivity.
Qed.

Lemma modPow_loop_spec (m : Z) (e : positive) : forall result base,
  0 < m -> 0 <= result -> 0 <= base ->
  modPow_loop result base e m = (result * base ^ Zpos e) mod m.
Proof.
  induction e as [e IH | e IH |]; intros result base Hm Hr Hb;
    cbn [modPow_loop].
  - rewrite IH; try lia.
    2:{ rewrite Z.rem_mod_nonneg by nia. apply Z.mod_pos_bound. lia. }
    2:{ rewrite Z.rem_mod_nonneg by nia. apply Z.mod_pos_bound. lia. }
    rewrite !Z.rem_mod_nonneg by nia.
    rewrite Pos2Z.inj_xI.
    rewrite Z.pow_add_r, Z.pow_1_r, Z.pow_mul_r by lia.
    replace (base ^ 2) with (base * base) by ring.
    rewrite Zmult_mod, Zmod_mod.
    rewrite <- (Zpower_mod (base * base)) by lia.
    rewrite <- Zmult_mod.
    apply (f_equal (fun v => v mod m)). ring.
  - rewrite IH; try lia.
    2:{ rewrite Z.rem_mod_nonneg by nia. apply Z.mod_pos_bound. lia. }
    rewrite !Z.rem_mod_nonneg by nia.
    rewrite Pos2Z.inj_xO.
    rewrite Z.pow_mul_r by lia.
    replace (base ^ 2) with (base * base) by ring.
    rewrite Zmult_mod.
    rewrite <- (Zpower_mod (base * base)) by lia.
    rewrite <- Zmult_mod. reflexivity.
  - rewrite Z.rem_mod_nonneg by nia. rewrite Z.pow_1_r. reflexivity.
Qed.

Lemma modPow_spec (base e m : Z) :
  1 < m -> 0 <= e -> modPow base e m = base ^ e mod m.
Proof.
  intros Hm He. unfold modPow. fold (jsmod base m).
  destruct e as [| e | e]; [| | lia].
  - rewrite Z.pow_0_r, Z.mod_1_l by lia. reflexivity.
  - rewrite modPow_loop_spec; try lia.
    2:{ apply jsmod_bound. lia. }
    rewrite Z.mul_1_l, jsmod_mod by lia.
    symmetry. apply Zpower_mod. lia.
Qed.

(** [modPow d (p - 2) p] is the inverse of [d] modulo the prime [p]. *)
Lemma modPow_inverse (d : Z) :
  d mod BN254_P <> 0 ->
  (d * modPow d (BN254_P - 2) BN254_P) mod BN254_P = 1.
Proof.
  intros Hd. rewrite modPow_spec by (unfold BN254_P; lia).
  rewrite Zmult_mod_idemp_r.
  rewrite <- (Z.fermat_nz BN254_P d BN254_P_prime Hd).
  apply (f_equal (fun v => v mod BN254_P)).
  replace (BN254_P - 1) with (Z.succ (BN254_P - 2)) by lia.
  rewrite Z.pow_succ_r by (unfold BN254_P; lia). reflexivity.
Qed.

Lemma modPow_zero : modPow 0 (BN254_P - 2) BN254_P = 0.
Proof.
  rewrite modPow_spec by (unfold BN254_P; lia).
  rewrite Z.pow_0_l by (unfold BN254_P; lia). reflexivity.
Qed.

Lemma mod_eq_exists (a b m : Z) :
  m <> 0 -> a mod m = b mod m -> exists k, a = b + k * m.
Proof.
  intros Hm Hab. exists (a / m - b / m).
  pose proof (Z.div_mod a m Hm). pose proof (Z.div_mod b m Hm). nia.
Qed.

(** Lagrange interpolation at 0 through two points of a line, modulo a
    prime. *)
Lemma lagrange_two_points (p x1 x2 y1 y2 c0 c1 i12 i21 : Z) :
  Z.prime p ->
  (x1 - x2) mod p <> 0 ->
  y1 mod p = (c0 + c1 * x1) mod p ->
  y2 mod p = (c0 + c1 * x2) mod p ->
  ((x1 - x2) * i12) mod p = 1 ->
  ((x2 - x1) * i21) mod p = 1 ->
  (y1 * (- x2) * i12 + y2 * (- x1) * i21) mod p = c0 mod p.
Proof.
  intros Hp Hx Hy1 Hy2 Hi12 Hi21.
  pose proof (Z.prime_ge_2 p Hp) as Hp2.
  assert (Hp0 : p <> 0) by lia.
  rewrite <- (Z.mod_1_l p) in Hi12, Hi21 by lia.
  destruct (mod_eq_exists _ _ p Hp0 Hy1) as [k3 E3].
  destruct (mod_eq_exists _ _ p Hp0 Hy2) as [k4 E4].
  destruct (mod_eq_exists _ _ p Hp0 Hi12) as [k1 E1].
  destruct (mod_eq_exists _ _ p Hp0 Hi21) as [k2 E2].
  clear Hy1 Hy2 Hi12 Hi21.
  set (lhs := y1 * - x2 * i12 + y2 * - x1 * i21).
  assert (Hdiv : (p | (x1 - x2) * (lhs - c0))).
  { exists (- k3 * x2 + k4 * x1 - y1 * x2 * k1 + y2 * x1 * k2).
    replace ((x1 - x2) * (lhs - c0))
      with (- y1 * x2 * ((x1 - x2) * i12) + y2 * x1 * ((x2 - x1) * i21)
            - c0 * (x1 - x2)) by (unfold lhs; ring).
    rewrite E1, E2. subst y1 y2. ring. }
  assert (Hcop : Z.gcd p (x1 - x2) = 1).
  { apply Z.coprime_prime_l; [exact Hp |].
    intros Hd. apply Hx. apply Z.mod_divide; assumption. }
  apply Z.gauss in Hdiv; [| exact Hcop].
  destruct Hdiv as [k Hk].
  replace lhs with (c0 + k * p) by lia.
  apply Z.mod_add. exact Hp0.
Qed.
Lemma shamir_two (x1 y1 x2 y2 : Z) :
  shamirReconstructField [(x1, y1); (x2, y2)] 2 = Some (shamirTwo x1 y1 x2 y2).
Proof.
  with_strategy opaque [modPow BN254_P Z.rem Z.mul Z.add Z.sub Z.opp]
    reflexivity.
Qed.

(** With more than two shares required, the third abscissa is undefined
    and the first product with it raises. *)
Lemma shamir_over_threshold (s1 s2 : Z * Z) (t : nat) :
  (2 < t)%nat -> shamirReconstructField [s1; s2] t = None.
Proof.
  intros Ht. destruct t as [| [| [| t]]]; try lia.
  unfold shamirReconstructField.
  cbn [take map seq forM].
  with_strategy opaque [modPow BN254_P Z.rem Z.mul Z.add Z.sub Z.opp]
    reflexivity.
Qed.

Lemma reconstructSk_spec (s1 s2 : ShareFile) :
  threshold s1 = 2%nat ->
  (N <= length (coefficients s1))%nat ->
  (N <= length (coefficients s2))%nat ->
  reconstructSk s1 s2 = Some (map (skCoef s1 s2) (seq 0 N)).
Proof.
  unfold reconstructSk. generalize N. intros n Ht H1 H2. rewrite Ht.
  apply mapM_seq_Some. intros k Hk. apply in_seq in Hk.
  unfold skCoef, shareAt.
  destruct (lookup_lt_is_Some_2 (coefficients s1) k ltac:(lia)) as [c1 E1].
  destruct (lookup_lt_is_Some_2 (coefficients s2) k ltac:(lia)) as [c2 E2].
  rewrite E1, E2. cbn [mbind option_bind default].
  rewrite shamir_two. cbn [mbind option_bind]. unfold jsmod. reflexivity.
Qed.

(** With a threshold above the two share files it is given,
    [reconstructSk] raises at the first ring position. *)
Lemma reconstructSk_over_threshold (s1 s2 : ShareFile) :
  (2 < threshold s1)%nat -> reconstructSk s1 s2 = None.
Proof.
  intros Ht. unfold reconstructSk.
  replace N with (S (N - 1)) by (unfold N; lia).
  generalize (N - 1)%nat. intros n.
  cbn [seq mapM].
  destruct (coefficients s1 !! 0%nat) as [c1 |]; [| reflexivity].
  destruct (coefficients s2 !! 0%nat) as [c2 |]; [| reflexivity].
  cbn [mbind option_bind].
  rewrite shamir_over_threshold by exact Ht. reflexivity.
Qed.

Lemma lagrangeTerm_same_x (x0 y1 : Z) : lagrangeTerm x0 y1 x0 = 0.
Proof.
  unfold lagrangeTerm. rewrite Z.sub_diag.
  replace (Z.rem (Z.rem 0 BN254_P + BN254_P) BN254_P) with 0 by reflexivity.
  rewrite modPow_zero, Z.mul_0_r. reflexivity.
Qed.

Lemma shamirTwo_same_x (x0 y1 y2 : Z) : shamirTwo x0 y1 x0 y2 = 0.
Proof. unfold shamirTwo. rewrite !lagrangeTerm_same_x. reflexivity. Qed.

Lemma skCoef_same_x (s1 s2 : ShareFile) (k : nat) :
  x (shareAt s1 k) = x (shareAt s2 k) -> skCoef s1 s2 k = 0.
Proof.
  intros Hx. unfold skCoef. cbv zeta. rewrite Hx, shamirTwo_same_x.
  reflexivity.
Qed.

Lemma lagrangeTerm_cong (xi yi xj : Z) :
  (xi - xj) mod BN254_P <> 0 ->
  exists inv,
    ((xi - xj) * inv) mod BN254_P = 1 /\
    lagrangeTerm xi yi xj mod BN254_P = (yi * (- xj) * inv) mod BN254_P.
Proof.
  intros Hd. pose proof BN254_P_pos as Hp.
  set (d := Z.rem (Z.rem (xi - xj) BN254_P + BN254_P) BN254_P).
  assert (Hdmod : d = (xi - xj) mod BN254_P).
  { unfold d. fold (jsmod (xi - xj) BN254_P). apply jsmod_mod. exact Hp. }
  exists (modPow d (BN254_P - 2) BN254_P). split.
  - rewrite <- Zmult_mod_idemp_l, <- Hdmod.
    apply modPow_inverse. rewrite Hdmod, Zmod_mod. exact Hd.
  - unfold lagrangeTerm. fold d.
    rewrite rem_cong by exact Hp.
    rewrite <- Zmult_mod_idemp_l, rem_cong by exact Hp.
    rewrite Zmult_mod_idemp_l.
    rewrite <- (Zmult_mod_idemp_l (yi * _)).
    rewrite <- (Zmult_mod_idemp_r (Z.rem (- xj) BN254_P + BN254_P)).
    rewrite <- Zplus_mod_idemp_l, rem_cong by exact Hp.
    rewrite <- Zplus_mod_idemp_r, Z_mod_same_full, Z.add_0_r.
    rewrite Zmod_mod, Zmult_mod_idemp_r, Zmult_mod_idemp_l. reflexivity.
Qed.

Lemma shamirTwo_line (x1 y1 x2 y2 c0 c1 : Z) :
  (x1 - x2) mod BN254_P <> 0 ->
  y1 mod BN254_P = (c0 + c1 * x1) mod BN254_P ->
  y2 mod BN254_P = (c0 + c1 * x2) mod BN254_P ->
  shamirTwo x1 y1 x2 y2 mod BN254_P = c0 mod BN254_P.
Proof.
  intros Hx Hy1 Hy2. pose proof BN254_P_pos as Hp.
  assert (Hx' : (x2 - x1) mod BN254_P <> 0).
  { intros Hz. apply Hx.
    replace (x1 - x2) with (- (x2 - x1)) by ring.
    apply Z.mod_opp_l_z; [lia | exact Hz]. }
  destruct (lagrangeTerm_cong x1 y1 x2 Hx) as (i12 & Hi12 & Ht1).
  destruct (lagrangeTerm_cong x2 y2 x1 Hx') as (i21 & Hi21 & Ht2).
  unfold shamirTwo. rewrite rem_cong by exact Hp.
  rewrite <- Zplus_mod_idemp_l, rem_cong by exact Hp.
  rewrite Z.add_0_l, Zplus_mod_idemp_l.
  rewrite Zplus_mod, Ht1, Ht2, <- Zplus_mod.
  apply (lagrange_two_points BN254_P x1 x2 y1 y2 c0 c1 i12 i21);
    try assumption.
  apply BN254_P_prime.
Qed.

Lemma centeredMod_cong (v w q : Z) :
  0 < q -> v mod q = w mod q -> centeredMod v q = centeredMod w q.
Proof. intros Hq Hvw. rewrite !centeredMod_eq by exact Hq. rewrite Hvw. reflexivity. Qed.

Lemma skCoef_line (c0 c1 : nat -> Z) (s1 s2 : ShareFile) (k : nat) :
  onLine c0 c1 s1 -> onLine c0 c1 s2 -> distinctX s1 s2 -> (k < N)%nat ->
  skCoef s1 s2 k = jsmod (centeredMod (c0 k) BN254_P) RLWE_Q.
Proof.
  intros H1 H2 Hd Hk. unfold skCoef. cbv zeta.
  rewrite (centeredMod_cong _ (c0 k)); [reflexivity | apply BN254_P_pos |].
  apply (shamirTwo_line _ _ _ _ (c0 k) (c1 k)); [apply Hd | apply H1 | apply H2];
    exact Hk.
Qed.

(** C6. In a 2-of-n sharing whose shares, at every ring position, are
    points of one line over the BN254 scalar field, [reconstructSk] on any
    two shares with distinct abscissas returns the same ring of 1024
    coefficients, whichever two shares are chosen. *)
Theorem threshold_invariance (c0 c1 : nat -> Z) (sa sb sc sd : ShareFile) :
  threshold sa = 2%nat -> threshold sc = 2%nat ->
  length (coefficients sa) = N -> length (coefficients sb) = N ->
  length (coefficients sc) = N -> length (coefficients sd) = N ->
  onLine c0 c1 sa -> onLine c0 c1 sb ->
  onLine c0 c1 sc -> onLine c0 c1 sd ->
  distinctX sa sb -> distinctX sc sd ->
  exists sk,
    reconstructSk sa sb = Some sk /\
    reconstructSk sc sd = Some sk /\
    length sk = N.
Proof.
  intros Hta Htc Hla Hlb Hlc Hld Ha Hb Hc Hd Hab Hcd.
  exists (map (fun k => jsmod (centeredMod (c0 k) BN254_P) RLWE_Q) (seq 0 N)).
  split; [| split].
  - rewrite reconstructSk_spec by (assumption || lia).
    apply f_equal. apply map_ext_in. intros k Hk. apply in_seq in Hk.
    apply (skCoef_line c0 c1); try assumption. lia.
  - rewrite reconstructSk_spec by (assumption || lia).
    apply f_equal. apply map_ext_in. intros k Hk. apply in_seq in Hk.
    apply (skCoef_line c0 c1); try assumption. lia.
  - apply length_map_seq.
Qed.

Lemma shareAt_replicate (i t n m : nat) (c : ShareCoefficient) (k : nat) :
  (k < m)%nat ->
  shareAt {| share_index := i; threshold := t; num_shares := n;
             coefficients := replicate m c |} k = c.
Proof.
  intros Hk. unfold shareAt. cbn [coefficients].
  rewrite lookup_replicate_2 by exact Hk. reflexivity.
Qed.

Lemma threshold_invariance_witness :
  let share i xv yv :=
    {| share_index := i; threshold := 2; num_shares := 3;
       coefficients := replicate N {| x := xv; y := yv |} |} in
  exists sk,
    reconstructSk (share 1%nat 1 10) (share 2%nat 2 13) = Some sk /\
    reconstructSk (share 3%nat 3 16) (share 1%nat 1 10) = Some sk /\
    length sk = N.
Proof.
  cbv zeta.
  apply (threshold_invariance (fun _ => 7) (fun _ => 3));
    try reflexivity; try apply length_replicate;
    intros k Hk; rewrite !shareAt_replicate by exact Hk;
    cbn [x y]; vm_compute; congruence.
Defined.

Lemma reconstructSk_range (s1 s2 : ShareFile) (sk : list Z) :
  reconstructSk s1 s2 = Some sk ->
  Forall (fun c => 0 <= c < RLWE_Q) sk.
Proof.
  unfold reconstructSk. intros Hrun. apply mapM_Some_1 in Hrun.
  eapply Forall2_Forall_r; [exact Hrun |].
  apply Forall_forall. intros k _ c Hc.
  destruct (coefficients s1 !! k); cbn [mbind option_bind] in Hc;
    [| discriminate].
  destruct (coefficients s2 !! k); cbn [mbind option_bind] in Hc;
    [| discriminate].
  destruct (shamirReconstructField _ _); cbn [mbind option_bind] in Hc;
    [| discriminate].
  injection Hc as <-. apply (jsmod_bound _ RLWE_Q RLWE_Q_pos).
Qed.

(** C5 (as amended). [reconstructSk] validates nothing about the share
    set.  When the declared threshold exceeds the two share files it is
    given, it raises on the undefined third share and returns no ring.
    When the two shares have the same abscissa at a ring position (with
    threshold 2), it does not fail: the interpolated value there is 0. *)
Theorem reconstructSk_share_set (s1 s2 : ShareFile) :
  ((2 < threshold s1)%nat -> reconstructSk s1 s2 = None) /\
  (threshold s1 = 2%nat ->
   length (coefficients s1) = N -> length (coefficients s2) = N ->
   exists sk,
     reconstructSk s1 s2 = Some sk /\ length sk = N /\
     forall k, (k < N)%nat ->
       x (shareAt s1 k) = x (shareAt s2 k) -> sk !! k = Some 0).
Proof.
  split; [apply reconstructSk_over_threshold |].
  intros Ht H1 H2. exists (map (skCoef s1 s2) (seq 0 N)).
  split; [apply reconstructSk_spec; (assumption || lia) |].
  split; [apply length_map_seq |].
  intros k Hk Hx. rewrite list_lookup_fmap, lookup_seq_lt by exact Hk.
  cbn [fmap option_fmap option_map Nat.add].
  rewrite skCoef_same_x by exact Hx. reflexivity.
Qed.

Lemma reconstructSk_share_set_witness :
  let share t xv yv :=
    {| share_index := 1; threshold := t; num_shares := 3;
       coefficients := replicate N {| x := xv; y := yv |} |} in
  reconstructSk (share 3%nat 1 10) (share 3%nat 2 13) = None /\
  exists sk,
    reconstructSk (share 2%nat 1 10) (share 2%nat 1 13) = Some sk /\
    length sk = N /\ sk !! 5%nat = Some 0.
Proof.
  cbv zeta. split.
  - apply (proj1 (reconstructSk_share_set _ _)). cbn [threshold]. lia.
  - destruct (proj2 (reconstructSk_share_set
                       {| share_index := 1; threshold := 2; num_shares := 3;
                          coefficients := replicate N {| x := 1; y := 10 |} |}
                       {| share_index := 1; threshold := 2; num_shares := 3;
                          coefficients := replicate N {| x := 1; y := 13 |} |})
                eq_refl (length_replicate _ _) (length_replicate _ _))
      as (sk & Hsk & Hlen & Hzero).
    exists sk. split; [exact Hsk |]. split; [exact Hlen |].
    apply Hzero; [unfold N; lia |].
    rewrite !shareAt_replicate by (unfold N; lia). reflexivity.
Defined.

(** Two shares with the same abscissa at every position: below the
    threshold in distinct abscissas, a degenerate set, and yet a ring (of
    zeros) is returned. *)
Lemma reconstructSk_duplicate_x_returns :
  let s1 := {| share_index := 1; threshold := 2; num_shares := 3;
               coefficients := replicate N {| x := 1; y := 10 |} |} in
  let s2 := {| share_index := 1; threshold := 2; num_shares := 3;
               coefficients := replicate N {| x := 1; y := 13 |} |} in
  reconstructSk s1 s2 = Some (replicate N 0).
Proof.
  cbv zeta.
  rewrite reconstructSk_spec
    by (reflexivity || (cbn [coefficients]; rewrite length_replicate; lia)).
  apply f_equal. apply list_eq. intros k.
  destruct (decide (k < N)%nat) as [Hk | Hk].
  - rewrite list_lookup_fmap, lookup_seq_lt by exact Hk.
    rewrite lookup_replicate_2 by exact Hk.
    cbn [fmap option_fmap option_map Nat.add].
    rewrite skCoef_same_x; [reflexivity |].
    rewrite !shareAt_replicate by exact Hk. reflexivity.
  - rewrite !lookup_ge_None_2; [reflexivity | |].
    + rewrite length_replicate. lia.
    + rewrite length_map_seq. lia.
Qed.

(** * Normalised coefficients *)

(** C9. Every ring element the core produces has all its coefficients in
    [[0, Q)], [Q = 167772161]: the product [negacyclicMulModQ] returns,
    for arbitrary integer inputs; the two components [c0Sparse] and [c1]
    of the ciphertext [rlweEncrypt] returns; and the secret ring
    [reconstructSk] returns. *)
Theorem ring_coefficients_normalized :
  (forall (a b : list Z) (n : nat) (res : list Z),
     negacyclicMulModQ a b n RLWE_Q = Some res ->
     Forall (fun c => 0 <= c < 167772161) res) /\
  (forall (pk : RlwePk) (ownerX ownerY : Z) (r e1 e2 : list Z)
          (ct : RlweEncryptResult),
     rlweEncrypt pk ownerX ownerY r e1 e2 = Some ct ->
     Forall (fun c => 0 <= c < 167772161) (c0Sparse ct) /\
     Forall (fun c => 0 <= c < 167772161) (c1 ct)) /\
  (forall (s1 s2 : ShareFile) (sk : list Z),
     reconstructSk s1 s2 = Some sk ->
     Forall (fun c => 0 <= c < 167772161) sk).
Proof.
  change 167772161 with RLWE_Q.
  split; [| split].
  - intros a b n res Hrun.
    apply (negacyclicMulModQ_range a b n RLWE_Q res RLWE_Q_pos Hrun).
  - intros pk ownerX ownerY r e1 e2 ct Hrun.
    apply (rlweEncrypt_range pk ownerX ownerY r e1 e2 ct Hrun).
  - intros s1 s2 sk Hrun. apply (reconstructSk_range s1 s2 sk Hrun).
Qed.

Lemma ring_coefficients_normalized_witness :
  let pk := {| pk_a := replicate N 5; pk_b := replicate N (-7) |} in
  let share xv yv :=
    {| share_index := 1; threshold := 2; num_shares := 3;
       coefficients := replicate N {| x := xv; y := yv |} |} in
  (exists res,
     negacyclicMulModQ [3; -4; 5] [1; 2; 167772160] 3 RLWE_Q = Some res /\
     Forall (fun c => 0 <= c < 167772161) res) /\
  (exists ct,
     rlweEncrypt pk 11 13 (replicate N 3) (replicate MSG_SLOTS (-3))
                 (replicate N 2) = Some ct /\
     Forall (fun c => 0 <= c < 167772161) (c0Sparse ct) /\
     Forall (fun c => 0 <= c < 167772161) (c1 ct)) /\
  (exists sk,
     reconstructSk (share 1 10) (share 2 13) = Some sk /\
     Forall (fun c => 0 <= c < 167772161) sk).
Proof.
  cbv zeta.
  destruct ring_coefficients_normalized as (Hmul & Henc & Hsk).
  split; [| split].
  - eexists. split; [vm_compute; reflexivity |].
    apply (Hmul [3; -4; 5] [1; 2; 167772160] 3%nat). vm_compute. reflexivity.
  - eexists. split.
    + apply rlweEncrypt_spec; cbn [pk_a pk_b]; rewrite length_replicate; lia.
    + eapply Henc. apply rlweEncrypt_spec; cbn [pk_a pk_b];
        rewrite length_replicate; lia.
  - eexists. split.
    + apply reconstructSk_spec; try reflexivity;
        cbn [coefficients]; rewrite length_replicate; lia.
    + eapply Hsk. apply reconstructSk_spec; try reflexivity;
        cbn [coefficients]; rewrite length_replicate; lia.
Defined.

(** * Failing loops *)

Lemma forM_fails {S : Type} (body : nat -> S -> option S) (l : list nat)
    (j : nat) :
  In j l -> (forall s, body j s = None) -> forall s, forM body l s = None.
Proof.
  intros Hin Hfail. induction l as [| i l IH]; intros s; [destruct Hin |].
  cbn [forM]. destruct Hin as [-> | Hin].
  - rewrite Hfail. reflexivity.
  - destruct (body i s) as [s' |]; [| reflexivity]. cbn. apply IH, Hin.
Qed.

Lemma mapM_fails {A B : Type} (f : A -> option B) (l : list A) (a : A) :
  a ∈ l -> f a = None -> mapM f l = None.
Proof.
  intros Hin Hf. destruct (mapM f l) as [r |] eqn:E; [| reflexivity].
  exfalso. assert (Hsome : is_Some (mapM f l)) by (rewrite E; eauto).
  apply mapM_is_Some in Hsome. rewrite Forall_forall in Hsome.
  destruct (Hsome a Hin) as [b Hb]. cbn in Hb. congruence.
Qed.

Lemma negacyclicMatrixRowModQ_short (poly : list Z) (k n : nat) (q : Z) :
  (length poly < n)%nat -> negacyclicMatrixRowModQ poly k n q = None.
Proof.
  intros Hlen. unfold negacyclicMatrixRowModQ.
  destruct (decide (k < length poly)%nat) as [Hk | Hk].
  - (* column k + 1 reads index n - 1 *)
    apply (mapM_fails _ _ (S k)); [apply elem_of_seq; lia |].
    destruct (Nat.leb_spec (S k) k); [lia |].
    rewrite lookup_ge_None_2 by lia. reflexivity.
  - (* column 0 reads index k *)
    apply (mapM_fails _ _ 0%nat); [apply elem_of_seq; lia |].
    cbn [Nat.leb]. rewrite lookup_ge_None_2 by lia. reflexivity.
Qed.

Lemma innerProductModQ_short (row rModQ : list Z) :
  (length rModQ < N)%nat -> innerProductModQ row rModQ = None.
Proof.
  unfold innerProductModQ. generalize N. intros n Hlen.
  apply (forM_fails _ _ (length rModQ)); [apply in_seq; lia |].
  intros ip. destruct (row !! length rModQ) as [xv |]; [| reflexivity].
  cbn [mbind option_bind].
  rewrite (lookup_ge_None_2 rModQ (length rModQ)) by lia. reflexivity.
Qed.

Lemma N_pos : (0 < N)%nat.
Proof. unfold N. lia. Qed.

Lemma MSG_SLOTS_pos : (0 < MSG_SLOTS)%nat.
Proof. unfold MSG_SLOTS. lia. Qed.

(** * Further properties of the ring arithmetic *)

(** X1. [negacyclicMulModQ] is commutative on arrays of [n]
    coefficients. *)
Theorem negacyclicMulModQ_comm (a b : list Z) (n : nat) (q : Z) :
  0 < q -> length a = n -> length b = n ->
  negacyclicMulModQ a b n q = negacyclicMulModQ b a n q.
Proof.
  intros Hq Ha Hb.
  rewrite !negacyclicMulModQ_spec by (assumption || lia).
  apply f_equal. apply ringOf_ext. intros k _.
  rewrite nconv_comm. reflexivity.
Qed.

Lemma negacyclicMulModQ_comm_witness :
  negacyclicMulModQ [5; -2; 7] [1; 0; 16] 3 17
  = negacyclicMulModQ [1; 0; 16] [5; -2; 7] 3 17.
Proof. apply negacyclicMulModQ_comm; [lia | reflexivity | reflexivity]. Defined.

Lemma coef_unitPoly_0 (n : nat) : coef (unitPoly n) 0 = 1.
Proof. reflexivity. Qed.

Lemma coef_unitPoly_S (n i : nat) : (0 < i)%nat -> coef (unitPoly n) i = 0.
Proof. apply coef_cons_zeros. Qed.

Lemma length_unitPoly (n : nat) : (0 < n)%nat -> length (unitPoly n) = n.
Proof.
  intros Hn. unfold unitPoly. cbn [length]. rewrite length_replicate. lia.
Qed.

Lemma ringOf_coef (n : nat) (q : Z) (b : list Z) :
  length b = n -> ringOf n q (coef b) = map (fun v => v mod q) b.
Proof.
  intros Hb. apply list_eq. intros k.
  destruct (decide (k < n)%nat) as [Hk | Hk].
  - rewrite ringOf_lookup by exact Hk. rewrite list_lookup_fmap.
    rewrite (coef_lookup b k) by lia. reflexivity.
  - rewrite !lookup_ge_None_2; [reflexivity | |].
    + rewrite length_map. lia.
    + rewrite length_ringOf. lia.
Qed.

Lemma map_mod_small (q : Z) (b : list Z) :
  Forall (fun c => 0 <= c < q) b -> map (fun v => v mod q) b = b.
Proof.
  induction 1 as [| c b Hc _ IH]; [reflexivity |]. cbn [map].
  rewrite IH, Z.mod_small by exact Hc. reflexivity.
Qed.

(** X2. The array with 1 at position 0 and 0 elsewhere is the unit of
    [negacyclicMulModQ]: multiplying by it, on either side, returns the
    other operand reduced modulo [q], hence unchanged when its
    coefficients already lie in [[0, q)]. *)
Theorem negacyclicMulModQ_unit (b : list Z) (n : nat) (q : Z) :
  0 < q -> (0 < n)%nat -> length b = n ->
  negacyclicMulModQ (unitPoly n) b n q = Some (map (fun v => v mod q) b) /\
  negacyclicMulModQ b (unitPoly n) n q = Some (map (fun v => v mod q) b) /\
  (Forall (fun c => 0 <= c < q) b ->
   negacyclicMulModQ (unitPoly n) b n q = Some b /\
   negacyclicMulModQ b (unitPoly n) n q = Some b).
Proof.
  intros Hq Hn Hb.
  assert (Hl : negacyclicMulModQ (unitPoly n) b n q
               = Some (map (fun v => v mod q) b)).
  { rewrite negacyclicMulModQ_spec
      by (rewrite ?length_unitPoly; assumption || lia).
    apply f_equal. rewrite <- (ringOf_coef n q b Hb).
    apply ringOf_ext. intros k Hk.
    rewrite nconv_const_l;
      [| intros i Hi; apply coef_unitPoly_S; lia | exact Hk].
    rewrite coef_unitPoly_0, Z.mul_1_l. reflexivity. }
  assert (Hr : negacyclicMulModQ b (unitPoly n) n q
               = Some (map (fun v => v mod q) b)).
  { rewrite negacyclicMulModQ_spec
      by (rewrite ?length_unitPoly; assumption || lia).
    apply f_equal. rewrite <- (ringOf_coef n q b Hb).
    apply ringOf_ext. intros k Hk. rewrite nconv_comm.
    rewrite nconv_const_l;
      [| intros i Hi; apply coef_unitPoly_S; lia | exact Hk].
    rewrite coef_unitPoly_0, Z.mul_1_l. reflexivity. }
  split; [exact Hl |]. split; [exact Hr |].
  intros Hrange. rewrite Hl, Hr, map_mod_small by exact Hrange. auto.
Qed.

Lemma negacyclicMulModQ_unit_witness :
  negacyclicMulModQ (unitPoly 4) [3; 20; -1; 16] 4 17 = Some [3; 3; 16; 16] /\
  negacyclicMulModQ [3; 0; 16; 5] (unitPoly 4) 4 17 = Some [3; 0; 16; 5].
Proof.
  split.
  - apply (proj1 (negacyclicMulModQ_unit [3; 20; -1; 16] 4 17
                    ltac:(lia) ltac:(lia) eq_refl)).
  - apply (proj2 (proj2 (negacyclicMulModQ_unit [3; 0; 16; 5] 4 17
                           ltac:(lia) ltac:(lia) eq_refl))).
    repeat constructor; lia.
Defined.

(** X3. [negacyclicMulModQ] is associative on arrays of [n]
    coefficients. *)
Theorem negacyclicMulModQ_assoc (a b c : list Z) (n : nat) (q : Z) :
  0 < q -> length a = n -> length b = n -> length c = n ->
  (ab ← negacyclicMulModQ a b n q; negacyclicMulModQ ab c n q)
  = (bc ← negacyclicMulModQ b c n q; negacyclicMulModQ a bc n q).
Proof.
  intros Hq Ha Hb Hc.
  rewrite (negacyclicMulModQ_spec a b), (negacyclicMulModQ_spec b c)
    by (assumption || lia).
  cbn [mbind option_bind].
  rewrite !negacyclicMulModQ_spec
    by (rewrite ?length_ringOf; assumption || lia).
  apply f_equal. apply ringOf_ext. intros k Hk.
  rewrite (nconv_mod_l n q _ (nconv n (coef a) (coef b)) (coef c) k).
  2:{ intros i Hi. rewrite coef_ringOf by exact Hi. apply Zmod_mod. }
  rewrite (nconv_mod_r n q (coef a) _ (nconv n (coef b) (coef c)) k).
  2:{ intros i Hi. rewrite coef_ringOf by exact Hi. apply Zmod_mod. }
  rewrite nconv_assoc by exact Hk. reflexivity.
Qed.

Lemma negacyclicMulModQ_assoc_witness :
  (ab ← negacyclicMulModQ [5; -2; 7] [1; 4; 16] 3 17;
   negacyclicMulModQ ab [2; 2; 9] 3 17)
  = (bc ← negacyclicMulModQ [1; 4; 16] [2; 2; 9] 3 17;
     negacyclicMulModQ [5; -2; 7] bc 3 17).
Proof. apply negacyclicMulModQ_assoc; [lia | reflexivity ..]. Defined.

(** ** The integer convolution *)

Lemma intRingOf_lookup (n : nat) (g : nat -> Z) (k : nat) :
  (k < n)%nat -> intRingOf n g !! k = Some (g k).
Proof.
  intros Hk. unfold intRingOf. rewrite list_lookup_fmap.
  rewrite lookup_seq_lt by lia. reflexivity.
Qed.

Lemma length_intRingOf (n : nat) (g : nat -> Z) : length (intRingOf n g) = n.
Proof. apply length_map_seq. Qed.

Lemma intRingOf_ext (n : nat) (g g' : nat -> Z) :
  (forall k, (k < n)%nat -> g k = g' k) -> intRingOf n g = intRingOf n g'.
Proof.
  intros Hg. unfold intRingOf. apply map_ext_in. intros k Hk.
  apply in_seq in Hk. apply Hg. lia.
Qed.

Lemma intRingOf_insert (n : nat) (g g' : nat -> Z) (k0 : nat) (v : Z) :
  (k0 < n)%nat -> v = g' k0 ->
  (forall k, (k < n)%nat -> k <> k0 -> g' k = g k) ->
  <[k0 := v]> (intRingOf n g) = intRingOf n g'.
Proof.
  intros Hk0 Hv Hother. apply list_eq. intros k.
  destruct (decide (k < n)%nat) as [Hk | Hk].
  - rewrite (intRingOf_lookup n g') by lia.
    destruct (decide (k = k0)) as [-> | Hne].
    + rewrite list_lookup_insert_eq by (rewrite length_intRingOf; lia).
      congruence.
    + rewrite list_lookup_insert_ne by congruence.
      rewrite intRingOf_lookup by lia. rewrite Hother by lia. reflexivity.
  - rewrite !lookup_ge_None_2; [reflexivity | |].
    + rewrite length_intRingOf. lia.
    + rewrite length_insert, length_intRingOf. lia.
Qed.

Lemma forM_accum_int (n : nat) (body : nat -> list Z -> option (list Z))
    (d : nat -> nat -> Z) (m : nat) :
  (forall j g, (j < m)%nat ->
     body j (intRingOf n g) = Some (intRingOf n (fun k => g k + d j k))) ->
  forall g,
    forM body (seq 0 m) (intRingOf n g)
    = Some (intRingOf n (fun k => g k + sumZ m (fun j => d j k))).
Proof.
  induction m as [| m IH]; intros Hbody g.
  - cbn. apply f_equal. apply intRingOf_ext. intros k _. lia.
  - rewrite forM_snoc. rewrite IH by (intros j g' Hj; apply Hbody; lia).
    cbn. rewrite Hbody by lia. apply f_equal.
    apply intRingOf_ext. intros k _. lia.
Qed.

Lemma mulInt_step_spec (x y : Z) (i j n : nat) (g : nat -> Z) :
  (i < n)%nat -> (j < n)%nat ->
  mulInt_step x y i j n (intRingOf n g)
  = Some (intRingOf n (fun k => g k + wrapSign n (i + j) k * (x * y))).
Proof.
  intros Hi Hj. unfold mulInt_step.
  destruct (Nat.ltb_spec (i + j) n) as [Hlt | Hge].
  - rewrite intRingOf_lookup by lia. cbn. apply f_equal.
    apply intRingOf_insert; [lia | |].
    + unfold wrapSign. rewrite Nat.eqb_refl. lia.
    + intros k Hk Hne. unfold wrapSign.
      destruct (Nat.eqb_spec (i + j) k); [lia |].
      destruct (Nat.eqb_spec (i + j) (k + n)); lia.
  - rewrite intRingOf_lookup by lia. cbn. apply f_equal.
    apply intRingOf_insert; [lia | |].
    + unfold wrapSign.
      destruct (Nat.eqb_spec (i + j) (i + j - n)); [lia |].
      destruct (Nat.eqb_spec (i + j) (i + j - n + n)); lia.
    + intros k Hk Hne. unfold wrapSign.
      destruct (Nat.eqb_spec (i + j) k); [lia |].
      destruct (Nat.eqb_spec (i + j) (k + n)); lia.
Qed.

Lemma negacyclicMulInt_spec (a b : list Z) (n : nat) :
  (n <= length a)%nat -> (n <= length b)%nat ->
  negacyclicMulInt a b n = Some (intRingOf n (nconv n (coef a) (coef b))).
Proof.
  intros Ha Hb. unfold negacyclicMulInt.
  replace (replicate n 0) with (intRingOf n (fun _ => 0)).
  2:{ apply list_eq. intros k. destruct (decide (k < n)%nat) as [Hk | Hk].
      - rewrite intRingOf_lookup, lookup_replicate_2 by lia. reflexivity.
      - rewrite !lookup_ge_None_2; [reflexivity | |].
        + rewrite length_replicate. lia.
        + rewrite length_intRingOf. lia. }
  rewrite (forM_accum_int n _
             (fun i k =>
                sumZ n (fun j =>
                          wrapSign n (i + j) k * (coef a i * coef b j)))).
  - apply f_equal. apply intRingOf_ext. intros k _. reflexivity.
  - intros i g Hi. rewrite (coef_lookup a i) by lia.
    assert (Hinner :
      forM (fun j result =>
              match b !! j with
              | Some 0 => Some result
              | bj => x ← Some (coef a i); y ← bj;
                      mulInt_step x y i j n result
              end) (seq 0 n) (intRingOf n g)
      = Some (intRingOf n (fun k =>
                g k + sumZ n (fun j =>
                   wrapSign n (i + j) k * (coef a i * coef b j))))).
    { apply (forM_accum_int n _
               (fun j k => wrapSign n (i + j) k * (coef a i * coef b j))).
      intros j g' Hj. rewrite (coef_lookup b j) by lia.
      destruct (coef b j) eqn:Eb; cbn.
      - apply f_equal. apply intRingOf_ext. intros k _. lia.
      - apply mulInt_step_spec; lia.
      - apply mulInt_step_spec; lia. }
    destruct (coef a i) eqn:Ea.
    + apply f_equal. apply intRingOf_ext. intros k _.
      rewrite sumZ_zero; [lia |]. intros j _. lia.
    + exact Hinner.
    + exact Hinner.
Qed.

(** X4. On arrays of [n] coefficients [negacyclicMulInt] returns the exact
    negacyclic convolution: coefficient [k] is the sum of [a[k-j] * b[j]]
    over [j <= k] minus the sum of [a[k+n-j] * b[j]] over [j > k]; and
    [negacyclicMulModQ] returns that array reduced coefficient by
    coefficient. *)
Theorem negacyclicMulInt_exact (a b : list Z) (n : nat) (q : Z) :
  0 < q -> length a = n -> length b = n ->
  exists res,
    negacyclicMulInt a b n = Some res /\
    length res = n /\
    (forall k, (k < n)%nat ->
       res !! k = Some (dot n (nrow n (coef a) k) (coef b))) /\
    negacyclicMulModQ a b n q = Some (map (fun v => v mod q) res).
Proof.
  intros Hq Ha Hb. exists (intRingOf n (nconv n (coef a) (coef b))).
  split; [apply negacyclicMulInt_spec; lia |].
  split; [apply length_intRingOf |]. split.
  - intros k Hk. rewrite intRingOf_lookup by exact Hk.
    rewrite nconv_rows by exact Hk. reflexivity.
  - rewrite negacyclicMulModQ_spec by (assumption || lia).
    apply f_equal. unfold ringOf, intRingOf. rewrite map_map. reflexivity.
Qed.

Lemma negacyclicMulInt_exact_witness :
  exists res,
    negacyclicMulInt [5; -2; 7] [1; 4; 16] 3 = Some res /\
    negacyclicMulModQ [5; -2; 7] [1; 4; 16] 3 17
    = Some (map (fun v => v mod 17) res).
Proof.
  destruct (negacyclicMulInt_exact [5; -2; 7] [1; 4; 16] 3 17
              ltac:(lia) eq_refl eq_refl) as (res & H1 & _ & _ & H2).
  exists res. split; assumption.
Defined.

(** X5. [negacyclicMatrixRowModQ] returns a row for every row index
    [k < n] of a polynomial with at least [n] coefficients; whenever it
    returns, the row has [n] entries, all in [[0, q)]; and it raises
    (returns no row) when the polynomial has fewer than [n]
    coefficients. *)
Theorem negacyclicMatrixRowModQ_bounds (poly : list Z) (k n : nat) (q : Z) :
  0 < q ->
  ((n <= length poly)%nat -> (k < n)%nat ->
   is_Some (negacyclicMatrixRowModQ poly k n q)) /\
  (forall row, negacyclicMatrixRowModQ poly k n q = Some row ->
     length row = n /\ Forall (fun c => 0 <= c < q) row) /\
  ((length poly < n)%nat -> negacyclicMatrixRowModQ poly k n q = None).
Proof.
  intros Hq. split; [| split].
  - intros Hlen Hk. rewrite negacyclicMatrixRowModQ_spec by assumption.
    eauto.
  - intros row Hrun. unfold negacyclicMatrixRowModQ in Hrun.
    apply mapM_Some_1 in Hrun. split.
    + apply Forall2_length in Hrun. rewrite length_seq in Hrun. lia.
    + eapply Forall2_Forall_r; [exact Hrun |].
      apply Forall_forall. intros j _ c Hc.
      destruct (j <=? k)%nat.
      * destruct (poly !! (k - j)%nat); cbn in Hc; [| discriminate].
        injection Hc as <-. apply jsmod_bound. exact Hq.
      * destruct (poly !! (k + n - j)%nat); cbn in Hc; [| discriminate].
        injection Hc as <-. apply jsmod_bound. exact Hq.
  - apply negacyclicMatrixRowModQ_short.
Qed.

Lemma negacyclicMatrixRowModQ_bounds_witness :
  is_Some (negacyclicMatrixRowModQ [3; -4; 30] 1 3 17) /\
  (forall row, negacyclicMatrixRowModQ [3; -4; 30] 1 3 17 = Some row ->
     length row = 3%nat /\ Forall (fun c => 0 <= c < 17) row) /\
  negacyclicMatrixRowModQ [3; -4] 1 3 17 = None.
Proof.
  destruct (negacyclicMatrixRowModQ_bounds [3; -4; 30] 1 3 17 ltac:(lia))
    as (Hret & Hrange & _).
  destruct (negacyclicMatrixRowModQ_bounds [3; -4] 1 3 17 ltac:(lia))
    as (_ & _ & Hshort).
  split; [apply Hret; cbn; lia |]. split; [exact Hrange |].
  apply Hshort. cbn. lia.
Defined.

(** * Byte slots, field encodings and noise *)

Lemma coef_encodeFieldToBytes (v : Z) (n i : nat) :
  (i < n)%nat -> coef (encodeFieldToBytes v n) i = byteOf v i.
Proof.
  intros Hi. unfold encodeFieldToBytes. rewrite coef_map by exact Hi.
  reflexivity.
Qed.

(** X6. [encodeFieldToBytes] never fails and yields bytes in [[0, 256)];
    reassembling its 32 slots, as [rlweDecrypt] does, gives the value
    modulo 2^256: a value in [[0, 2^256)] is recovered exactly, anything
    larger (or negative) is silently truncated to its low 256 bits. *)
Theorem encodeFieldToBytes_reassemble (value : Z) (numBytes : nat) :
  Forall (fun b => 0 <= b < 256) (encodeFieldToBytes value numBytes) /\
  assembleBytes (encodeFieldToBytes value 32) 0 = Some (value mod 2 ^ 256) /\
  (0 <= value < 2 ^ 256 ->
   assembleBytes (encodeFieldToBytes value 32) 0 = Some value).
Proof.
  assert (Hre : assembleBytes (encodeFieldToBytes value 32) 0
                = Some (value mod 2 ^ 256)).
  { rewrite assembleBytes_spec by (rewrite length_encodeFieldToBytes; lia).
    apply f_equal. unfold bytesValue.
    change (value mod 2 ^ 256) with (value mod 2 ^ Z.of_nat (32 * 8)).
    rewrite <- (bytes_partial_sum value 32).
    apply sumZ_ext. intros i Hi. cbn [Nat.add].
    rewrite coef_encodeFieldToBytes by exact Hi.
    rewrite land_255_byte by apply byteOf_range. reflexivity. }
  split; [| split].
  - unfold encodeFieldToBytes. apply Forall_forall. intros b Hb.
    apply list_elem_of_fmap in Hb. destruct Hb as (i & -> & _).
    apply (byteOf_range value i).
  - exact Hre.
  - intros Hv. rewrite Hre, Z.mod_small by exact Hv. reflexivity.
Qed.

Lemma encodeFieldToBytes_reassemble_witness :
  assembleBytes (encodeFieldToBytes (2 ^ 255 + 77) 32) 0
  = Some (2 ^ 255 + 77).
Proof.
  apply (proj2 (proj2 (encodeFieldToBytes_reassemble (2 ^ 255 + 77) 32))).
  lia.
Defined.

Lemma BN254_P_half : BN254_P / 2 =
  10944121435919637611123202872628637544274182200208017171849102093287904247808.
Proof. reflexivity. Qed.

(** X7. [signedToBn254] maps every integer into [[0, P)], congruent to
    it; and [centeredMod(., BN254_P)], the conversion [reconstructSk]
    applies, undoes it on the signed range [-(P-1)/2 .. (P-1)/2]. *)
Theorem signedToBn254_centered (v : Z) :
  0 <= signedToBn254 v < BN254_P /\
  signedToBn254 v mod BN254_P = v mod BN254_P /\
  (- (BN254_P / 2) <= v <= BN254_P / 2 ->
   centeredMod (signedToBn254 v) BN254_P = v).
Proof.
  pose proof BN254_P_pos as Hp. unfold signedToBn254.
  split; [apply jsmod_bound; exact Hp |].
  rewrite jsmod_mod by exact Hp. split; [apply Z.mod_mod; lia |].
  intros Hv. rewrite centeredMod_eq by exact Hp.
  rewrite Z.mod_mod by lia.
  pose proof BN254_P_half as Hh.
  assert (HP : BN254_P = 2 * (BN254_P / 2) + 1) by reflexivity.
  revert Hv HP. generalize (BN254_P / 2). generalize BN254_P. clear.
  intros p h Hv HP.
  destruct (Z.ltb_spec h (v mod p)) as [Hlt | Hge].
  - assert (v < 0).
    { destruct (Z_lt_le_dec v 0) as [? | Hnn]; [assumption |].
      rewrite Z.mod_small in Hlt by lia. lia. }
    assert (v mod p = v + p); [| lia].
    symmetry. apply (Z.mod_unique v p (-1) (v + p)); lia.
  - assert (0 <= v).
    { destruct (Z_lt_le_dec v 0) as [Hneg | ?]; [| assumption].
      assert (v mod p = v + p); [| lia].
      symmetry. apply (Z.mod_unique v p (-1) (v + p)); lia. }
    apply Z.mod_small. lia.
Qed.

Lemma signedToBn254_centered_witness :
  centeredMod (signedToBn254 (-3)) BN254_P = -3.
Proof.
  apply (proj2 (proj2 (signedToBn254_centered (-3)))).
  rewrite BN254_P_half. lia.
Defined.

(** X8. For every byte, [smallNoise] lies in [[-3, 3]], and every value
    of that range is produced; the bytes do not split evenly: [-3 .. 0]
    are produced by 37 bytes each, [1 .. 3] by 36 each. *)
Theorem smallNoise_range :
  (forall byte, 0 <= byte < 256 -> -3 <= smallNoise byte <= 3) /\
  (forall v, -3 <= v <= 3 -> exists byte, 0 <= byte < 256 /\ smallNoise byte = v) /\
  map (fun v =>
         length (filter (fun byte => smallNoise byte = v)
                        (map Z.of_nat (seq 0 256))))
      [-3; -2; -1; 0; 1; 2; 3]
  = [37; 37; 37; 37; 36; 36; 36]%nat.
Proof.
  split; [| split].
  - intros byte Hb. unfold smallNoise.
    pose proof (Z.rem_bound_pos byte 7 ltac:(lia) ltac:(lia)). lia.
  - intros v Hv. exists (v + 3). unfold smallNoise.
    rewrite Z.rem_small by lia. lia.
  - vm_compute. reflexivity.
Qed.

Lemma smallNoise_range_witness :
  -3 <= smallNoise 255 <= 3 /\ exists byte, 0 <= byte < 256 /\ smallNoise byte = 2.
Proof.
  split.
  - apply (proj1 smallNoise_range). lia.
  - apply (proj1 (proj2 smallNoise_range)). lia.
Defined.

(** * Encryption with sampled noise, decryption from shares *)

Lemma Forall_map_smallNoise (bytes : list Z) :
  Forall (fun b => 0 <= b < 256) bytes ->
  Forall (fun v => -3 <= v <= 3) (map smallNoise bytes).
Proof.
  intros Hb. apply Forall_fmap. eapply Forall_impl; [exact Hb |].
  intros b Hrange. unfold compose, smallNoise. cbv beta in Hrange.
  pose proof (Z.rem_bound_pos b 7 ltac:(lia) ltac:(lia)). lia.
Qed.

(** Decryption of the ciphertext [rlweEncrypt] computes, under a key pair
    with small secret and small key noise. *)
Lemma decrypt_encrypted (pk : RlwePk) (skModQ : list Z) (ownerX ownerY : Z)
    (r e1 e2 : list Z) (Bs Be : Z) :
  length skModQ = N ->
  0 <= ownerX < 2 ^ 256 -> 0 <= ownerY < 2 ^ 256 ->
  Forall (fun v => -3 <= v <= 3) r ->
  Forall (fun v => -3 <= v <= 3) e1 ->
  Forall (fun v => -3 <= v <= 3) e2 ->
  (forall k, (k < N)%nat -> Z.abs (secretCoef skModQ k) <= Bs) ->
  (forall k, (k < N)%nat -> Z.abs (keyNoise pk skModQ k) <= Be) ->
  3 * 1024 * (Bs + Be) + 3 <= 327678 ->
  rlweDecrypt
    (map (encC0 (coef (pk_b pk)) (coef r) (coef e1) (msgOf ownerX ownerY))
         (seq 0 MSG_SLOTS))
    (map (encC1 (coef (pk_a pk)) (coef r) (coef e2)) (seq 0 N))
    skModQ
  = Some (ownerX, ownerY).
Proof.
  intros Hsk HX HY Hrr He1r He2r Hs He Hbound.
  pose proof MSG_SLOTS_le_N as Hmn.
  rewrite rlweDecrypt_spec by (rewrite ?length_map_seq; lia).
  assert (Hslot : forall i, (i < MSG_SLOTS)%nat ->
    Z.land
      (decSlot
         (coef (map (encC0 (coef (pk_b pk)) (coef r) (coef e1)
                           (msgOf ownerX ownerY)) (seq 0 MSG_SLOTS)))
         (coef (map (encC1 (coef (pk_a pk)) (coef r) (coef e2)) (seq 0 N)))
         (coef skModQ) i) 255
    = msgOf ownerX ownerY i).
  { intros i Hi.
    rewrite (decSlot_encrypt pk skModQ r e1 e2 (msgOf ownerX ownerY) Bs Be i);
      try assumption; try apply msgOf_range.
    apply land_255_byte, msgOf_range. }
  assert (H64 : MSG_SLOTS = 64%nat) by reflexivity.
  apply f_equal. apply f_equal2.
  - etransitivity; [| apply (bytes_roundtrip ownerX HX)]. unfold bytesValue.
    apply sumZ_ext. intros i Hi. rewrite Hslot by lia.
    unfold msgOf. cbn [Nat.add].
    destruct (Nat.ltb_spec i 32); [reflexivity | lia].
  - etransitivity; [| apply (bytes_roundtrip ownerY HY)]. unfold bytesValue.
    apply sumZ_ext. intros i Hi. rewrite Hslot by lia.
    unfold msgOf.
    destruct (Nat.ltb_spec (32 + i) 32); [lia |].
    replace (32 + i - 32)%nat with i by lia. reflexivity.
Qed.

(** X9. Whatever random bytes [crypto.getRandomValues] delivers,
    [rlweEncrypt] (sampling its noise with [smallNoise]) succeeds and
    [rlweDecrypt] recovers both coordinates, for every key pair whose
    secret key and key noise are within bounds [Bs], [Be] such that
    [3 * 1024 * (Bs + Be) + 3 <= 327678]. *)
Theorem rlweEncryptSampled_roundtrip (pk : RlwePk) (skModQ : list Z)
    (ownerX ownerY : Z) (rand : list Z) (Bs Be : Z) :
  length (pk_a pk) = N -> length (pk_b pk) = N -> length skModQ = N ->
  (N + MSG_SLOTS + N <= length rand)%nat ->
  Forall (fun b => 0 <= b < 256) rand ->
  0 <= ownerX < 2 ^ 256 -> 0 <= ownerY < 2 ^ 256 ->
  (forall k, (k < N)%nat -> Z.abs (secretCoef skModQ k) <= Bs) ->
  (forall k, (k < N)%nat -> Z.abs (keyNoise pk skModQ k) <= Be) ->
  3 * 1024 * (Bs + Be) + 3 <= 327678 ->
  exists ct,
    rlweEncryptSampled pk ownerX ownerY rand = Some ct /\
    Forall (fun v => -3 <= v <= 3) (rSigned ct) /\
    Forall (fun v => -3 <= v <= 3) (e1Signed ct) /\
    Forall (fun v => -3 <= v <= 3) (e2Signed ct) /\
    rlweDecrypt (c0Sparse ct) (c1 ct) skModQ = Some (ownerX, ownerY).
Proof.
  intros Ha Hb Hsk Hlen Hbytes HX HY Hs He Hbound.
  unfold rlweEncryptSampled, sampleNoise.
  set (r := map smallNoise (take N rand)).
  set (e1 := map smallNoise (take MSG_SLOTS (drop N rand))).
  set (e2 := map smallNoise (take N (drop MSG_SLOTS (drop N rand)))).
  assert (Hr : length r = N).
  { subst r. rewrite length_map, length_take. lia. }
  assert (He1 : length e1 = MSG_SLOTS).
  { subst e1. rewrite length_map, length_take, length_drop. lia. }
  assert (He2 : length e2 = N).
  { subst e2. rewrite length_map, length_take, !length_drop. lia. }
  assert (Hrr : Forall (fun v => -3 <= v <= 3) r).
  { apply Forall_map_smallNoise, Forall_take, Hbytes. }
  assert (He1r : Forall (fun v => -3 <= v <= 3) e1).
  { apply Forall_map_smallNoise, Forall_take, Forall_drop, Hbytes. }
  assert (He2r : Forall (fun v => -3 <= v <= 3) e2).
  { apply Forall_map_smallNoise, Forall_take, Forall_drop, Forall_drop,
      Hbytes. }
  clearbody r e1 e2.
  eexists. split; [apply rlweEncrypt_spec; lia |].
  cbn [rSigned e1Signed e2Signed c0Sparse c1].
  split; [exact Hrr |]. split; [exact He1r |]. split; [exact He2r |].
  apply (decrypt_encrypted pk skModQ ownerX ownerY r e1 e2 Bs Be);
    assumption.
Qed.

Lemma rlweEncryptSampled_roundtrip_witness :
  let pk := {| pk_a := 12345 :: replicate 1023 0;
               pk_b := replicate N 167759818 |} in
  exists ct,
    rlweEncryptSampled pk (2 ^ 253 + 12345) 987654321
                       (replicate (N + MSG_SLOTS + N) 200) = Some ct /\
    Forall (fun v => -3 <= v <= 3) (rSigned ct) /\
    Forall (fun v => -3 <= v <= 3) (e1Signed ct) /\
    Forall (fun v => -3 <= v <= 3) (e2Signed ct) /\
    rlweDecrypt (c0Sparse ct) (c1 ct) (replicate N 1)
    = Some (2 ^ 253 + 12345, 987654321).
Proof.
  cbv zeta.
  apply (rlweEncryptSampled_roundtrip
           {| pk_a := 12345 :: replicate 1023 0;
              pk_b := replicate N 167759818 |}
           (replicate N 1) (2 ^ 253 + 12345) 987654321
           (replicate (N + MSG_SLOTS + N) 200) 1 2);
    try apply length_replicate; try reflexivity;
    try (apply Forall_replicate; lia); try lia.
  - intros k Hk. unfold secretCoef. rewrite coef_replicate by exact Hk.
    vm_compute. discriminate.
  - intros k Hk. unfold keyNoise. cbn [pk_a pk_b].
    rewrite nconv_const_l; [| | exact Hk].
    + rewrite coef_cons_0, !coef_replicate by exact Hk.
      vm_compute. discriminate.
    + intros i Hi. apply coef_cons_zeros. lia.
Defined.

Lemma centeredMod_small (v q : Z) :
  0 < q -> - q < 2 * v <= q -> centeredMod v q = v.
Proof.
  intros Hq Hv. rewrite centeredMod_eq by exact Hq.
  pose proof (Z.div_mod q 2 ltac:(lia)) as Hdm.
  pose proof (Z.mod_pos_bound q 2 ltac:(lia)) as Hb2.
  destruct (Z_lt_le_dec v 0) as [Hneg | Hnn].
  - assert (Hm : v mod q = v + q).
    { symmetry. apply (Z.mod_unique v q (-1) (v + q)); lia. }
    rewrite Hm. destruct (Z.ltb_spec (q / 2) (v + q)); lia.
  - rewrite Z.mod_small by lia.
    destruct (Z.ltb_spec (q / 2) v); lia.
Qed.

Lemma coef_skCoef_line (c0 c1 : nat -> Z) (s1 s2 : ShareFile) (k : nat) :
  onLine c0 c1 s1 -> onLine c0 c1 s2 -> distinctX s1 s2 -> (k < N)%nat ->
  - BN254_P < 2 * c0 k <= BN254_P ->
  coef (map (skCoef s1 s2) (seq 0 N)) k = c0 k mod RLWE_Q.
Proof.
  intros H1 H2 Hd Hk Hsmall.
  rewrite coef_map by exact Hk.
  rewrite (skCoef_line c0 c1) by assumption.
  rewrite centeredMod_small by (apply BN254_P_pos || exact Hsmall).
  apply jsmod_mod, RLWE_Q_pos.
Qed.

(** X10. The whole decryption flow.  Let the two share files be points,
    with distinct abscissas, of lines whose constant terms [s k] are the
    signed coefficients of the secret key, [|s k| <= Bs], and let the
    public key satisfy [b + a * s = e] with [|e k| <= Be] and
    [3 * 1024 * (Bs + Be) + 3 <= 327678].  Then [decryptFromShares]
    recovers the coordinates that [rlweEncrypt] encrypted. *)
Theorem decryptFromShares_roundtrip (pk : RlwePk) (share1 share2 : ShareFile)
    (s slope : nat -> Z) (ownerX ownerY : Z) (r e1 e2 : list Z) (Bs Be : Z) :
  length (pk_a pk) = N -> length (pk_b pk) = N ->
  threshold share1 = 2%nat ->
  length (coefficients share1) = N -> length (coefficients share2) = N ->
  onLine s slope share1 -> onLine s slope share2 -> distinctX share1 share2 ->
  length r = N -> length e1 = MSG_SLOTS -> length e2 = N ->
  0 <= ownerX < 2 ^ 256 -> 0 <= ownerY < 2 ^ 256 ->
  Forall (fun v => -3 <= v <= 3) r ->
  Forall (fun v => -3 <= v <= 3) e1 ->
  Forall (fun v => -3 <= v <= 3) e2 ->
  (forall k, (k < N)%nat -> Z.abs (s k) <= Bs) ->
  (forall k, (k < N)%nat ->
     Z.abs (centeredMod
              (coef (pk_b pk) k + nconv N (coef (pk_a pk)) s k) RLWE_Q)
     <= Be) ->
  3 * 1024 * (Bs + Be) + 3 <= 327678 ->
  exists ct,
    rlweEncrypt pk ownerX ownerY r e1 e2 = Some ct /\
    decryptFromShares share1 share2 (c0Sparse ct) (c1 ct)
    = Some (ownerX, ownerY).
Proof.
  intros Ha Hb Ht Hl1 Hl2 Hon1 Hon2 Hdist Hr He1 He2 HX HY Hrr He1r He2r
         Hs He Hbound.
  pose proof MSG_SLOTS_le_N as Hmn.
  pose proof RLWE_Q_pos as Hq.
  assert (HBe : 0 <= Be).
  { pose proof (He 0%nat ltac:(unfold N; lia)) as H0.
    pose proof (Z.abs_nonneg
                  (centeredMod
                     (coef (pk_b pk) 0
                      + nconv N (coef (pk_a pk)) s 0) RLWE_Q)). lia. }
  assert (Hsmall : forall k, (k < N)%nat -> - 200 < s k < 200).
  { intros k Hk. pose proof (Hs k Hk). lia. }
  assert (Hcoef : forall k, (k < N)%nat ->
            coef (map (skCoef share1 share2) (seq 0 N)) k = s k mod RLWE_Q).
  { intros k Hk. apply (coef_skCoef_line s slope); try assumption.
    pose proof (Hsmall k Hk). unfold BN254_P. lia. }
  eexists. split; [apply rlweEncrypt_spec; lia |].
  cbn [c0Sparse c1]. unfold decryptFromShares.
  rewrite reconstructSk_spec by (assumption || lia).
  cbn [mbind option_bind].
  apply (decrypt_encrypted pk (map (skCoef share1 share2) (seq 0 N))
           ownerX ownerY r e1 e2 Bs Be (length_map_seq _ N)
           HX HY Hrr He1r He2r); [| | exact Hbound].
  - intros k Hk. unfold secretCoef. rewrite Hcoef by exact Hk.
    rewrite (centeredMod_cong (s k mod RLWE_Q) (s k))
      by (exact Hq || apply Z.mod_mod; lia).
    rewrite centeredMod_small; [apply Hs; exact Hk | exact Hq |].
    pose proof (Hsmall k Hk). unfold RLWE_Q. lia.
  - intros k Hk. unfold keyNoise.
    rewrite (centeredMod_cong _
               (coef (pk_b pk) k + nconv N (coef (pk_a pk)) s k));
      [apply He; exact Hk | exact Hq |].
    rewrite (Z.add_mod (coef (pk_b pk) k)) by lia.
    rewrite (Z.add_mod (coef (pk_b pk) k) (nconv N (coef (pk_a pk)) s k))
      by lia.
    rewrite (nconv_mod_r N RLWE_Q (coef (pk_a pk)) _ s k); [reflexivity |].
    intros j Hj. rewrite Hcoef by exact Hj. apply Z.mod_mod. lia.
Qed.

Lemma decryptFromShares_roundtrip_witness :
  let pk := {| pk_a := 12345 :: replicate 1023 0;
               pk_b := replicate N 167759818 |} in
  let share i xv yv :=
    {| share_index := i; threshold := 2; num_shares := 3;
       coefficients := replicate N {| x := xv; y := yv |} |} in
  exists ct,
    rlweEncrypt pk (2 ^ 253 + 12345) 987654321 (replicate N (-3))
                (replicate MSG_SLOTS 3) (replicate N 2) = Some ct /\
    decryptFromShares (share 1%nat 1 4) (share 2%nat 2 7)
                      (c0Sparse ct) (c1 ct)
    = Some (2 ^ 253 + 12345, 987654321).
Proof.
  cbv zeta.
  apply (decryptFromShares_roundtrip
           {| pk_a := 12345 :: replicate 1023 0;
              pk_b := replicate N 167759818 |}
           _ _ (fun _ => 1) (fun _ => 3)
           (2 ^ 253 + 12345) 987654321
           (replicate N (-3)) (replicate MSG_SLOTS 3) (replicate N 2) 1 2);
    try apply length_replicate; try reflexivity;
    try (apply Forall_replicate; lia); try lia.
  - intros k Hk. rewrite shareAt_replicate by exact Hk. reflexivity.
  - intros k Hk. rewrite shareAt_replicate by exact Hk. reflexivity.
  - intros k Hk. rewrite !shareAt_replicate by exact Hk.
    vm_compute. discriminate.
  - intros k Hk. cbn [pk_a pk_b].
    rewrite nconv_const_l; [| | exact Hk].
    + rewrite coef_cons_0, !coef_replicate by exact Hk.
      vm_compute. discriminate.
    + intros i Hi. apply coef_cons_zeros. lia.
Defined.

(** * Field inverses and interpolation *)

(** X11. For a modulus above 1 and a non-negative exponent [modPow]
    returns [base ^ exp mod m], for a base of either sign; for an
    exponent that is zero or negative it returns 1. *)
Theorem modPow_correct (base exp m : Z) :
  1 < m ->
  (0 <= exp -> modPow base exp m = base ^ exp mod m) /\
  (exp <= 0 -> modPow base exp m = 1).
Proof.
  intros Hm. split.
  - intros He. apply modPow_spec; assumption.
  - intros He. unfold modPow. destruct exp as [| e | e]; [reflexivity | | reflexivity].
    pose proof (Pos2Z.is_pos e). lia.
Qed.

Lemma modPow_correct_witness :
  modPow (-3) 5 7 = (-3) ^ 5 mod 7 /\ modPow 10 (-2) 7 = 1.
Proof.
  destruct (modPow_correct (-3) 5 7 ltac:(lia)) as [H1 _].
  destruct (modPow_correct 10 (-2) 7 ltac:(lia)) as [_ H2].
  split; [apply H1; lia | apply H2; lia].
Defined.

(** X12. [BN254_P] is prime, and the exponent [BN254_P - 2] that
    [shamirReconstructField] passes to [modPow] yields the field inverse:
    [d * modPow(d, P - 2, P)] is 1 modulo [P] for every [d] that is not
    a multiple of [P]; for a multiple of [P] the result is 0, without an
    error. *)
Theorem modPow_field_inverse (d : Z) :
  Z.prime BN254_P /\
  (d mod BN254_P <> 0 ->
   (d * modPow d (BN254_P - 2) BN254_P) mod BN254_P = 1) /\
  (d mod BN254_P = 0 -> modPow d (BN254_P - 2) BN254_P = 0).
Proof.
  split; [exact BN254_P_prime |]. split.
  - apply modPow_inverse.
  - intros Hd. rewrite modPow_spec by (unfold BN254_P; lia).
    rewrite Zpower_mod, Hd by (unfold BN254_P; lia).
    rewrite Z.pow_0_l by (unfold BN254_P; lia). reflexivity.
Qed.

Lemma modPow_field_inverse_witness :
  (12345 * modPow 12345 (BN254_P - 2) BN254_P) mod BN254_P = 1 /\
  modPow (3 * BN254_P) (BN254_P - 2) BN254_P = 0.
Proof.
  split.
  - apply (proj1 (proj2 (modPow_field_inverse 12345))).
    vm_compute. discriminate.
  - apply (proj2 (proj2 (modPow_field_inverse (3 * BN254_P)))).
    vm_compute. reflexivity.
Defined.

(** X13. With fewer shares than the threshold
    [shamirReconstructField] raises: the first Lagrange term already
    reads a share that is not there. *)
Theorem shamirReconstructField_too_few (shares : list (Z * Z))
    (threshold : nat) :
  (length shares < threshold)%nat ->
  shamirReconstructField shares threshold = None.
Proof.
  intros Hlen. unfold shamirReconstructField.
  rewrite take_ge by lia.
  apply (forM_fails _ _ 0%nat); [apply in_seq; lia |].
  intros secret.
  destruct (map snd shares !! 0%nat) as [y0 |] eqn:Ey; [| reflexivity].
  cbn [mbind option_bind].
  assert (Hpos : (0 < length shares)%nat).
  { apply lookup_lt_Some in Ey. rewrite length_map in Ey. exact Ey. }
  rewrite (forM_fails _ (seq 0 threshold) (length shares));
    [reflexivity | apply in_seq; lia |].
  intros num. destruct (decide (0%nat = length shares)) as [E | _]; [lia |].
  rewrite (lookup_ge_None_2 (map fst shares) (length shares))
    by (rewrite length_map; lia).
  reflexivity.
Qed.

Lemma shamirReconstructField_too_few_witness :
  shamirReconstructField [(1, 10); (2, 13)] 3 = None /\
  shamirReconstructField [] 1 = None.
Proof.
  split; apply shamirReconstructField_too_few; cbn; lia.
Defined.

Lemma modPow_nonneg (base e : Z) : 0 <= modPow base e BN254_P.
Proof.
  destruct (Z_lt_le_dec e 0) as [Hneg | Hnn].
  - unfold modPow. destruct e; lia.
  - rewrite modPow_spec by (unfold BN254_P; lia).
    apply Z.mod_pos_bound. apply BN254_P_pos.
Qed.

Lemma lagrangeTerm_range (xi yi xj : Z) :
  0 <= yi -> 0 <= lagrangeTerm xi yi xj < BN254_P.
Proof.
  intros Hy. unfold lagrangeTerm.
  pose proof BN254_P_pos as Hp.
  pose proof (modPow_nonneg
                (Z.rem (Z.rem (xi - xj) BN254_P + BN254_P) BN254_P)
                (BN254_P - 2)) as Hinv.
  revert Hinv. generalize (modPow
    (Z.rem (Z.rem (xi - xj) BN254_P + BN254_P) BN254_P)
    (BN254_P - 2) BN254_P). intros inv Hinv.
  assert (Hneg : 0 < Z.rem (- xj) BN254_P + BN254_P).
  { pose proof (Z.rem_bound_abs (- xj) BN254_P ltac:(lia)). lia. }
  revert Hneg. generalize (Z.rem (- xj) BN254_P + BN254_P). intros w Hw.
  assert (H1 : 0 <= Z.rem (yi * w) BN254_P).
  { apply Z.rem_nonneg; [lia |]. apply Z.mul_nonneg_nonneg; lia. }
  apply Z.rem_bound_pos; [| exact Hp].
  apply Z.mul_nonneg_nonneg; assumption.
Qed.

(** X14. Two shares with non-negative values and distinct abscissas that
    lie on the line [c0 + c1 * X] over the field reconstruct, with
    threshold 2, exactly [c0 mod P]; shares listed after the first two
    are not looked at. *)
Theorem shamirReconstructField_two_points (x1 y1 x2 y2 c0 c1 : Z)
    (rest : list (Z * Z)) :
  (x1 - x2) mod BN254_P <> 0 ->
  0 <= y1 -> 0 <= y2 ->
  y1 mod BN254_P = (c0 + c1 * x1) mod BN254_P ->
  y2 mod BN254_P = (c0 + c1 * x2) mod BN254_P ->
  shamirReconstructField ((x1, y1) :: (x2, y2) :: rest) 2
  = Some (c0 mod BN254_P).
Proof.
  intros Hx Hy1 Hy2 H1 H2.
  assert (Hrun : shamirReconstructField ((x1, y1) :: (x2, y2) :: rest) 2
                 = Some (shamirTwo x1 y1 x2 y2)).
  { with_strategy opaque [modPow BN254_P Z.rem Z.mul Z.add Z.sub Z.opp]
      reflexivity. }
  rewrite Hrun. apply f_equal.
  rewrite <- (shamirTwo_line x1 y1 x2 y2 c0 c1 Hx H1 H2).
  symmetry. apply Z.mod_small.
  unfold shamirTwo.
  pose proof (lagrangeTerm_range x1 y1 x2 Hy1) as HL1.
  pose proof (lagrangeTerm_range x2 y2 x1 Hy2) as HL2.
  revert HL1 HL2.
  generalize (lagrangeTerm x1 y1 x2), (lagrangeTerm x2 y2 x1).
  pose proof BN254_P_pos as Hp. revert Hp. generalize BN254_P.
  intros p Hp l1 l2 HL1 HL2.
  rewrite Z.add_0_l. rewrite (Z.rem_small l1 p) by lia.
  apply Z.rem_bound_pos; lia.
Qed.

Lemma shamirReconstructField_two_points_witness :
  shamirReconstructField [(1, 10); (2, 13); (3, 999)] 2
  = Some (7 mod BN254_P).
Proof.
  apply (shamirReconstructField_two_points 1 10 2 13 7 3);
    try lia; try reflexivity.
  vm_compute. discriminate.
Defined.

(** * Share files *)

(** X15. [reconstructSk] raises when either share file holds fewer than
    [N] coefficients. *)
Theorem reconstructSk_truncated (s1 s2 : ShareFile) :
  (length (coefficients s1) < N)%nat \/ (length (coefficients s2) < N)%nat ->
  reconstructSk s1 s2 = None.
Proof.
  unfold reconstructSk. generalize N. intros n Hlen.
  set (m := Nat.min (length (coefficients s1)) (length (coefficients s2))).
  apply (mapM_fails _ _ m).
  - apply elem_of_seq. lia.
  - destruct (coefficients s1 !! m) as [c1 |] eqn:E1; [| reflexivity].
    cbn [mbind option_bind].
    destruct (coefficients s2 !! m) as [c2 |] eqn:E2; [| reflexivity].
    apply lookup_lt_Some in E1, E2. lia.
Qed.

Lemma reconstructSk_truncated_witness :
  reconstructSk
    {| share_index := 1; threshold := 2; num_shares := 3;
       coefficients := replicate 1023 {| x := 1; y := 10 |} |}
    {| share_index := 2; threshold := 2; num_shares := 3;
       coefficients := replicate N {| x := 2; y := 13 |} |}
  = None.
Proof.
  apply reconstructSk_truncated. left. cbn [coefficients].
  rewrite length_replicate. unfold N. lia.
Defined.

Lemma centeredMod_0 (q : Z) : 0 < q -> centeredMod 0 q = 0.
Proof. intros Hq. apply centeredMod_small; lia. Qed.

(** X16. The threshold is whatever the first share file declares, and
    small values are accepted: with threshold 0 no share is used and the
    key is all zeros; with threshold 1 the key is read off the first
    file alone, whatever the second one holds. *)
Theorem reconstructSk_low_threshold (s1 s2 : ShareFile) :
  length (coefficients s1) = N -> length (coefficients s2) = N ->
  (threshold s1 = 0%nat -> reconstructSk s1 s2 = Some (replicate N 0)) /\
  (threshold s1 = 1%nat ->
   reconstructSk s1 s2
   = Some (map (fun k =>
                  jsmod (centeredMod (Z.rem (y (shareAt s1 k)) BN254_P)
                                     BN254_P) RLWE_Q)
               (seq 0 N))).
Proof.
  unfold reconstructSk. generalize N. intros n H1 H2. split; intros Ht.
  - rewrite Ht.
    rewrite (mapM_seq_Some _ (fun _ => 0)).
    + apply f_equal. clear. generalize 0%nat.
      induction n as [| n IH]; intros st; [reflexivity |].
      cbn [seq map replicate]. rewrite IH. reflexivity.
    + intros k Hk. apply in_seq in Hk.
      destruct (lookup_lt_is_Some_2 (coefficients s1) k ltac:(lia))
        as [c1 E1].
      destruct (lookup_lt_is_Some_2 (coefficients s2) k ltac:(lia))
        as [c2 E2].
      rewrite E1, E2. cbn [mbind option_bind].
      change (shamirReconstructField [(x c1, y c1); (x c2, y c2)] 0)
        with (Some 0).
      cbn [mbind option_bind].
      rewrite (centeredMod_0 BN254_P BN254_P_pos). reflexivity.
  - rewrite Ht. apply mapM_seq_Some.
    intros k Hk. apply in_seq in Hk. unfold shareAt.
    destruct (lookup_lt_is_Some_2 (coefficients s1) k ltac:(lia))
      as [c1 E1].
    destruct (lookup_lt_is_Some_2 (coefficients s2) k ltac:(lia))
      as [c2 E2].
    rewrite E1, E2. cbn [mbind option_bind default from_option].
    assert (Hrun : shamirReconstructField [(x c1, y c1); (x c2, y c2)] 1
                   = Some (Z.rem (0 + y c1) BN254_P)).
    { with_strategy opaque [modPow BN254_P Z.rem Z.mul Z.add Z.sub Z.opp]
        reflexivity. }
    rewrite Hrun. cbn [mbind option_bind]. rewrite Z.add_0_l.
    unfold jsmod. reflexivity.
Qed.

Lemma reconstructSk_low_threshold_witness :
  let share t xv yv :=
    {| share_index := 1; threshold := t; num_shares := 3;
       coefficients := replicate N {| x := xv; y := yv |} |} in
  reconstructSk (share 0%nat 1 10) (share 2%nat 2 13)
  = Some (replicate N 0).
Proof.
  cbv zeta.
  apply (proj1 (reconstructSk_low_threshold
                  {| share_index := 1; threshold := 0; num_shares := 3;
                     coefficients := replicate N {| x := 1; y := 10 |} |}
                  {| share_index := 1; threshold := 2; num_shares := 3;
                     coefficients := replicate N {| x := 2; y := 13 |} |}
                  (length_replicate N _) (length_replicate N _))).
  reflexivity.
Defined.

(** * Ranges of the decrypted values and of the quotients *)

Lemma land_255_range (b : Z) : 0 <= Z.land b 255 < 256.
Proof.
  change 255 with (Z.ones 8). rewrite Z.land_ones by lia.
  apply Z.mod_pos_bound. lia.
Qed.

Lemma bytes_sum_range (f : nat -> Z) (k : nat) :
  (forall i, (i < k)%nat -> 0 <= f i < 256) ->
  0 <= sumZ k (fun i => f i * 2 ^ Z.of_nat (i * 8)) < 2 ^ Z.of_nat (k * 8).
Proof.
  induction k as [| k IH]; intros Hf.
  - cbn. lia.
  - cbn [sumZ].
    specialize (IH (fun i Hi => Hf i ltac:(lia))).
    pose proof (Hf k ltac:(lia)) as Hk.
    replace (Z.of_nat (S k * 8)) with (Z.of_nat (k * 8) + 8) by lia.
    rewrite Z.pow_add_r by lia.
    change (2 ^ 8) with 256.
    revert IH. generalize (sumZ k (fun i => f i * 2 ^ Z.of_nat (i * 8))).
    assert (Hpow : 0 < 2 ^ Z.of_nat (k * 8)) by (apply Z.pow_pos_nonneg; lia).
    revert Hpow. generalize (2 ^ Z.of_nat (k * 8)). intros w Hw z Hz. nia.
Qed.

Lemma bytesValue_range (f : nat -> Z) (off : nat) :
  (forall i, 0 <= f i < 256) -> 0 <= bytesValue f off < 2 ^ 256.
Proof.
  intros Hf. unfold bytesValue.
  change (2 ^ 256) with (2 ^ Z.of_nat (32 * 8)).
  apply (bytes_sum_range (fun i => f (off + i)%nat) 32).
  intros i _. apply Hf.
Qed.

(** X17. [rlweDecrypt] returns for every ciphertext and key of the
    expected lengths, whatever their entries; whenever it returns, the
    two values lie in [[0, 2^256)] (they need not be below the field
    prime); and it raises when [c0Sparse] holds fewer than [MSG_SLOTS]
    entries. *)
Theorem rlweDecrypt_range (c0Sparse c1 skModQ : list Z) :
  ((MSG_SLOTS <= length c0Sparse)%nat -> (N <= length c1)%nat ->
   (N <= length skModQ)%nat ->
   is_Some (rlweDecrypt c0Sparse c1 skModQ)) /\
  (forall ownerX ownerY,
     rlweDecrypt c0Sparse c1 skModQ = Some (ownerX, ownerY) ->
     0 <= ownerX < 2 ^ 256 /\ 0 <= ownerY < 2 ^ 256) /\
  ((length c0Sparse < MSG_SLOTS)%nat ->
   rlweDecrypt c0Sparse c1 skModQ = None).
Proof.
  split.
  { intros H0 H1 H2. rewrite rlweDecrypt_spec by assumption. eauto. }
  unfold rlweDecrypt.
  assert (H64 : MSG_SLOTS = 64%nat) by reflexivity. revert H64.
  generalize MSG_SLOTS, N. intros ms n H64.
  destruct (negacyclicMulModQ skModQ c1 n RLWE_Q) as [skC1 |];
    cbn [mbind option_bind]; [| split; [discriminate | reflexivity]].
  split.
  - intros ownerX ownerY Hrun.
    destruct (mapM _ (seq 0 ms)) as [msgRecovered |] eqn:Em;
      cbn [mbind option_bind] in Hrun; [| discriminate].
    assert (Hlen : length msgRecovered = ms).
    { apply mapM_Some_1, Forall2_length in Em.
      rewrite length_seq in Em. lia. }
    rewrite !assembleBytes_spec in Hrun by lia.
    cbn [mbind option_bind] in Hrun.
    injection Hrun as <- <-.
    split; apply bytesValue_range; intros i; apply land_255_range.
  - intros Hshort.
    rewrite (mapM_fails _ (seq 0 ms) (length c0Sparse)); [reflexivity | |].
    + apply elem_of_seq. lia.
    + rewrite (lookup_ge_None_2 c0Sparse) by lia. reflexivity.
Qed.

Lemma rlweDecrypt_range_witness :
  is_Some (rlweDecrypt (replicate MSG_SLOTS 5) (replicate N (-1))
                       (replicate N 1)) /\
  rlweDecrypt (replicate 63 5) (replicate N 1) (replicate N 1) = None.
Proof.
  split.
  - apply (proj1 (rlweDecrypt_range (replicate MSG_SLOTS 5)
                    (replicate N (-1)) (replicate N 1)));
      rewrite length_replicate; lia.
  - apply (proj2 (proj2 (rlweDecrypt_range (replicate 63 5) (replicate N 1)
                           (replicate N 1)))).
    rewrite length_replicate. unfold MSG_SLOTS. lia.
Defined.

Lemma full_dot_bound (a : nat -> Z) (r : list Z) (i : nat) :
  Forall (fun v => -3 <= v <= 3) r ->
  Z.abs (dot N (fun j => nrow N a i j mod RLWE_Q) (coef r))
  <= 1024 * (3 * (RLWE_Q - 1)).
Proof.
  intros Hr. rewrite <- N_value. unfold dot. apply sumZ_abs_bound.
  intros j _. rewrite Z.abs_mul.
  pose proof (Z.mod_pos_bound (nrow N a i j) RLWE_Q RLWE_Q_pos) as Hrow.
  pose proof (abs_small 3 r j ltac:(lia) Hr) as Hrj.
  revert Hrow Hrj.
  generalize (nrow N a i j mod RLWE_Q), (coef r j).
  intros u v Hu Hv. rewrite (Z.abs_eq u) by lia.
  unfold RLWE_Q in *. nia.
Qed.

Lemma quot_abs_bound (z q B : Z) :
  0 < q -> Z.abs z < (B + 1) * q -> Z.abs (z ÷ q) <= B.
Proof.
  intros Hq Hz.
  assert (Hnn : forall w, 0 <= w -> w < (B + 1) * q -> 0 <= w ÷ q <= B).
  { intros w Hw Hlt. rewrite Z.quot_div_nonneg by lia.
    pose proof (Z.div_pos w q Hw Hq).
    assert (w / q < B + 1); [| lia].
    apply Z.div_lt_upper_bound; lia. }
  destruct (Z_lt_le_dec z 0) as [Hneg | Hpos].
  - replace z with (- (- z)) by lia. rewrite Z.quot_opp_l by lia.
    pose proof (Hnn (- z) ltac:(lia) ltac:(lia)). lia.
  - pose proof (Hnn z Hpos ltac:(lia)). lia.
Qed.

(** X18. For noise in [[-3, 3]] the quotients that [computeQuotients]
    derives from the ciphertext of [rlweEncrypt] are small: 64 values
    [k0] with [|k0[i]| <= 3073] and 1024 values [k1] with
    [|k1[i]| <= 3072]. *)
Theorem computeQuotients_bounds (pk : RlwePk) (ownerX ownerY : Z)
    (r e1 e2 : list Z) :
  length (pk_a pk) = N -> length (pk_b pk) = N ->
  length r = N -> length e1 = MSG_SLOTS -> length e2 = N ->
  Forall (fun v => -3 <= v <= 3) r ->
  Forall (fun v => -3 <= v <= 3) e1 ->
  Forall (fun v => -3 <= v <= 3) e2 ->
  exists ct qr,
    rlweEncrypt pk ownerX ownerY r e1 e2 = Some ct /\
    computeQuotients pk (c0Sparse ct) (c1 ct) (rSigned ct) (e1Signed ct)
                     (e2Signed ct) (msg ct) = Some qr /\
    length (k0 qr) = 64%nat /\ length (k1 qr) = 1024%nat /\
    Forall (fun k => Z.abs k <= 3073) (k0 qr) /\
    Forall (fun k => Z.abs k <= 3072) (k1 qr).
Proof.
  intros Ha Hb Hr He1 He2 Hrr He1r He2r.
  pose proof MSG_SLOTS_le_N as Hmn.
  eexists. eexists.
  split; [apply rlweEncrypt_spec; lia |].
  cbn [c0Sparse c1 rSigned e1Signed e2Signed msg].
  split.
  { apply computeQuotients_spec;
      rewrite ?length_map, ?length_seq, ?length_encodeMsg; lia. }
  cbn [k0 k1].
  split; [apply length_map_seq |]. split; [apply length_map_seq |].
  split.
  - apply Forall_forall. intros k Hk.
    apply list_elem_of_fmap in Hk. destruct Hk as (i & -> & Hi).
    apply elem_of_seq in Hi.
    rewrite coef_map by lia.
    apply quot_abs_bound; [apply RLWE_Q_pos |].
    unfold full0, encC0.
    pose proof (full_dot_bound (coef (pk_b pk)) r i Hrr) as Hdot.
    pose proof (abs_small 3 e1 i ltac:(lia) He1r) as He.
    rewrite coef_encodeMsg by lia.
    pose proof (msgOf_range ownerX ownerY i) as Hm.
    pose proof (Z.mod_pos_bound
                  (nconv N (coef (pk_b pk)) (coef r) i + coef e1 i
                   + DELTA * msgOf ownerX ownerY i) RLWE_Q RLWE_Q_pos) as Hc.
    rewrite DELTA_value in *.
    revert Hdot He Hm Hc.
    generalize (dot N (fun j => nrow N (coef (pk_b pk)) i j mod RLWE_Q)
                    (coef r)).
    generalize ((nconv N (coef (pk_b pk)) (coef r) i + coef e1 i
                 + 655360 * msgOf ownerX ownerY i) mod RLWE_Q).
    generalize (coef e1 i), (msgOf ownerX ownerY i).
    unfold RLWE_Q. clear. intros e m c d Hd He Hm Hc. lia.
  - apply Forall_forall. intros k Hk.
    apply list_elem_of_fmap in Hk. destruct Hk as (i & -> & Hi).
    apply elem_of_seq in Hi.
    rewrite coef_map by lia.
    apply quot_abs_bound; [apply RLWE_Q_pos |].
    unfold full1, encC1.
    pose proof (full_dot_bound (coef (pk_a pk)) r i Hrr) as Hdot.
    pose proof (abs_small 3 e2 i ltac:(lia) He2r) as He.
    pose proof (Z.mod_pos_bound
                  (nconv N (coef (pk_a pk)) (coef r) i + coef e2 i)
                  RLWE_Q RLWE_Q_pos) as Hc.
    revert Hdot He Hc.
    generalize (dot N (fun j => nrow N (coef (pk_a pk)) i j mod RLWE_Q)
                    (coef r)).
    generalize ((nconv N (coef (pk_a pk)) (coef r) i + coef e2 i)
                mod RLWE_Q).
    generalize (coef e2 i).
    unfold RLWE_Q. clear. intros e c d Hd He Hc. lia.
Qed.

Lemma computeQuotients_bounds_witness :
  let pk := {| pk_a := replicate N 5; pk_b := replicate N 7 |} in
  exists ct qr,
    rlweEncrypt pk 11 13 (replicate N (-3)) (replicate MSG_SLOTS 2)
                (replicate N 1) = Some ct /\
    computeQuotients pk (c0Sparse ct) (c1 ct) (rSigned ct) (e1Signed ct)
                     (e2Signed ct) (msg ct) = Some qr /\
    Forall (fun k => Z.abs k <= 3073) (k0 qr) /\
    Forall (fun k => Z.abs k <= 3072) (k1 qr).
Proof.
  destruct (computeQuotients_bounds
              {| pk_a := replicate N 5; pk_b := replicate N 7 |} 11 13
              (replicate N (-3)) (replicate MSG_SLOTS 2) (replicate N 1))
    as (ct & qr & Henc & Hquot & _ & _ & H0 & H1);
    try apply length_replicate; try (apply Forall_replicate; lia).
  exists ct, qr.
  split; [exact Henc |]. split; [exact Hquot |].
  split; [exact H0 | exact H1].
Defined.

(** * Further properties of the Merkle accumulator *)

Section MerkleFurther.
Variable H : Z -> Z -> Z.

Local Abbreviation node t := (calculateRootAtLevel H t).
Local Abbreviation dh t i := (nth i (defaultHashes t) 0).

(** A node depends only on the leaves below it. *)
Lemma node_local (t t' : ShieldedPoolMerkleTree) (i : nat) : forall k,
  (forall idx, (idx < (k + 1) * 2 ^ i)%nat ->
     default 0 (leaves t !! idx) = default 0 (leaves t' !! idx)) ->
  node t i k = node t' i k.
Proof.
  induction i as [| i IH]; intros k Hagree.
  - cbn [calculateRootAtLevel]. apply Hagree. cbn. lia.
  - cbn [calculateRootAtLevel].
    rewrite Nat.pow_succ_r' in Hagree.
    rewrite (IH (k * 2)%nat), (IH (k * 2 + 1)%nat); [reflexivity | |].
    + intros idx Hidx. apply Hagree. nia.
    + intros idx Hidx. apply Hagree. nia.
Qed.

(** The ladder of default hashes the constructor builds. *)
Lemma ladder_fold (m : nat) :
  let l := fold_left (fun dh i =>
                        let prev := nth (i - 1) dh 0 in
                        dh ++ [H prev prev]) (seq 1 m) [0] in
  length l = S m /\
  forall i, (i < m)%nat -> nth (S i) l 0 = H (nth i l 0) (nth i l 0).
Proof.
  induction m as [| m [IHlen IHnth]]; cbv zeta.
  - split; [reflexivity |]. intros i Hi. lia.
  - rewrite seq_S, fold_left_app. cbn [fold_left].
    set (l := fold_left _ (seq 1 m) [0]) in *.
    replace (1 + m - 1)%nat with m by lia.
    split; [rewrite length_app, IHlen; cbn; lia |].
    intros i Hi.
    destruct (decide (i < m)%nat) as [Hlt | Hge].
    + rewrite !app_nth1 by lia. apply IHnth, Hlt.
    + assert (i = m) by lia. subst i.
      rewrite app_nth2 by lia. rewrite IHlen, Nat.sub_diag. cbn [nth].
      rewrite app_nth1 by lia. reflexivity.
Qed.

Lemma treeOf_ladder (cs : list Z) (i : nat) :
  (i < TREE_DEPTH)%nat ->
  dh (treeOf H cs) (S i) = H (dh (treeOf H cs) i) (dh (treeOf H cs) i).
Proof.
  intros Hi. unfold treeOf.
  rewrite (proj2 (treeOf_fold cs (newTree H))).
  apply (proj2 (ladder_fold TREE_DEPTH)), Hi.
Qed.

Lemma empty_node (cs : list Z) (i : nat) : forall k,
  (i <= TREE_DEPTH)%nat -> (length cs <= k * 2 ^ i)%nat ->
  node (treeOf H cs) i k = dh (treeOf H cs) i.
Proof.
  induction i as [| i IH]; intros k Hi Hlen.
  - cbn [calculateRootAtLevel]. rewrite treeOf_leaves, treeOf_default0.
    rewrite lookup_ge_None_2; [reflexivity |]. cbn in Hlen. lia.
  - cbn [calculateRootAtLevel]. rewrite Nat.pow_succ_r' in Hlen.
    rewrite !IH by nia. symmetry. apply treeOf_ladder. lia.
Qed.

(** A membership path for any slot of the tree, occupied or not. *)
Lemma getProof_node (t : ShieldedPoolMerkleTree) (j : nat) :
  dh t 0 = 0 -> (j < 2 ^ TREE_DEPTH)%nat ->
  length (getProof H t j) = TREE_DEPTH /\
  getRoot H t = Some (recombine H (node t 0 j) j (getProof H t j)).
Proof.
  intros Hd Hj.
  destruct (proof_fold H TREE_DEPTH t TREE_DEPTH 0 [] j (leaves t)
              ltac:(lia) (levelInv_leaves H _ t Hd))
    as (path & idx' & cur' & Hfold & Hlen & Hidx & Hrec).
  { rewrite Nat.sub_0_r. exact Hj. }
  unfold getProof. rewrite Hfold. cbn [app].
  split; [exact Hlen |].
  rewrite (getRoot_node H) by exact Hd. apply f_equal.
  rewrite Nat.add_0_l, Nat.sub_diag in Hidx. cbn in Hidx.
  assert (idx' = 0%nat) by lia. subst idx'.
  rewrite Nat.add_0_l in Hrec.
  unfold getRootOptimized. rewrite <- Hrec. reflexivity.
Qed.

(** X19. [insert] returns the number of leaves inserted before, appends
    the commitment without touching the earlier leaves, and, while the
    tree is not full, [getProof] at the returned index is a membership
    path for the commitment under the new root. *)
Theorem insert_then_getProof (cs : list Z) (commitment : Z) :
  (length cs < 2 ^ 16)%nat ->
  let t' := fst (insert (treeOf H cs) commitment) in
  let index := snd (insert (treeOf H cs) commitment) in
  index = length cs /\
  leaves t' = cs ++ [commitment] /\
  length (getProof H t' index) = 16%nat /\
  getRoot H t'
  = Some (recombine H commitment index (getProof H t' index)).
Proof.
  intros Hlen. cbv zeta. unfold insert. cbn [fst snd].
  rewrite treeOf_leaves.
  set (t' := {| leaves := cs ++ [commitment];
                defaultHashes := defaultHashes (treeOf H cs) |}).
  assert (Hd : dh t' 0 = 0) by apply treeOf_default0.
  split; [reflexivity |]. split; [reflexivity |].
  destruct (getProof_node t' (length cs) Hd) as [Hl Hroot].
  { unfold TREE_DEPTH. exact Hlen. }
  split; [exact Hl |]. rewrite Hroot. apply f_equal.
  cbn [calculateRootAtLevel]. subst t'. cbn [leaves].
  rewrite lookup_app_r by lia. rewrite Nat.sub_diag. reflexivity.
Qed.

(** X20. A subtree of height [i <= 16] that holds no leaf hashes to
    [defaultHashes[i]]; in particular the root of the empty tree is
    [defaultHashes[16]]. *)
Theorem empty_subtree_default (cs : list Z) (i k : nat) :
  (i <= 16)%nat -> (length cs <= k * 2 ^ i)%nat ->
  calculateRootAtLevel H (treeOf H cs) i k
  = nth i (defaultHashes (treeOf H cs)) 0 /\
  getRoot H (treeOf H []) = Some (nth 16 (defaultHashes (treeOf H [])) 0).
Proof.
  intros Hi Hlen. split.
  - apply empty_node; [exact Hi | exact Hlen].
  - rewrite (getRoot_node H) by apply treeOf_default0. apply f_equal.
    unfold getRootOptimized. apply (empty_node [] TREE_DEPTH 0).
    + lia.
    + cbn. lia.
Qed.

(** X21. The commitment [0n] is indistinguishable from an empty slot:
    inserting it any number of times takes up indices but leaves the
    root as it was. *)
Theorem zero_leaf_is_empty (cs : list Z) (m : nat) :
  getRoot H (treeOf H (cs ++ replicate m 0)) = getRoot H (treeOf H cs) /\
  getRootOptimized H (treeOf H (cs ++ replicate m 0))
  = getRootOptimized H (treeOf H cs) /\
  length (leaves (treeOf H (cs ++ replicate m 0))) = (length cs + m)%nat.
Proof.
  assert (Hopt : getRootOptimized H (treeOf H (cs ++ replicate m 0))
                 = getRootOptimized H (treeOf H cs)).
  { unfold getRootOptimized. apply node_local. intros idx _.
    rewrite !treeOf_leaves.
    destruct (decide (idx < length cs)%nat) as [Hlt | Hge].
    - rewrite lookup_app_l by exact Hlt. reflexivity.
    - rewrite lookup_app_r by lia.
      rewrite (lookup_ge_None_2 cs) by lia.
      destruct (replicate m 0 !! (idx - length cs)%nat) as [v |] eqn:E;
        [| reflexivity].
      apply lookup_replicate in E. destruct E as [-> _]. reflexivity. }
  split; [| split].
  - rewrite !(getRoot_node H) by apply treeOf_default0.
    rewrite Hopt. reflexivity.
  - exact Hopt.
  - rewrite treeOf_leaves, length_app, length_replicate. reflexivity.
Qed.

(** X22. [insert] has no capacity check: past 2^16 leaves it still
    returns the next index, and the leaves beyond the capacity take no
    part in the root. *)
Theorem insert_past_capacity (cs extra : list Z) (commitment : Z) :
  (2 ^ 16 <= length cs)%nat ->
  snd (insert (treeOf H cs) commitment) = length cs /\
  getRoot H (treeOf H (cs ++ extra)) = getRoot H (treeOf H cs) /\
  getRootOptimized H (treeOf H (cs ++ extra))
  = getRootOptimized H (treeOf H cs).
Proof.
  intros Hfull.
  assert (Hopt : getRootOptimized H (treeOf H (cs ++ extra))
                 = getRootOptimized H (treeOf H cs)).
  { unfold getRootOptimized. apply node_local. intros idx Hidx.
    rewrite !treeOf_leaves.
    change ((0 + 1) * 2 ^ TREE_DEPTH)%nat with (2 ^ 16)%nat in Hidx.
    rewrite lookup_app_l by lia. reflexivity. }
  split; [| split].
  - unfold insert. cbn [snd]. rewrite treeOf_leaves. reflexivity.
  - rewrite !(getRoot_node H) by apply treeOf_default0.
    rewrite Hopt. reflexivity.
  - exact Hopt.
Qed.

(** X23. For an index past the last leaf, but inside the tree,
    [getProof] returns a path of 16 siblings that authenticates the
    value 0 under the root: every empty slot has a membership proof for
    0. *)
Theorem getProof_empty_slot (cs : list Z) (j : nat) :
  (length cs <= j)%nat -> (j < 2 ^ 16)%nat ->
  length (getProof H (treeOf H cs) j) = 16%nat /\
  getRoot H (treeOf H cs)
  = Some (recombine H 0 j (getProof H (treeOf H cs) j)).
Proof.
  intros Hge Hlt.
  destruct (getProof_node (treeOf H cs) j (treeOf_default0 H cs))
    as [Hl Hroot].
  { unfold TREE_DEPTH. exact Hlt. }
  split; [exact Hl |]. rewrite Hroot. apply f_equal.
  cbn [calculateRootAtLevel]. rewrite treeOf_leaves.
  rewrite lookup_ge_None_2 by lia. reflexivity.
Qed.

End MerkleFurther.

Lemma insert_then_getProof_witness :
  let t' := fst (insert (treeOf Z.add [5; 7]) 11) in
  let index := snd (insert (treeOf Z.add [5; 7]) 11) in
  index = 2%nat /\
  getRoot Z.add t' = Some (recombine Z.add 11 index (getProof Z.add t' index)).
Proof.
  destruct (insert_then_getProof Z.add [5; 7] 11) as (Hi & _ & _ & Hr).
  - cbn [length]. apply (Nat.lt_le_trans _ 4); [lia |].
    change 4%nat with (2 ^ 2)%nat. apply Nat.pow_le_mono_r; lia.
  - split; [exact Hi | exact Hr].
Defined.

Lemma empty_subtree_default_witness :
  calculateRootAtLevel Z.add (treeOf Z.add [5; 7; 11]) 2 1
  = nth 2 (defaultHashes (treeOf Z.add [5; 7; 11])) 0.
Proof.
  apply (proj1 (empty_subtree_default Z.add [5; 7; 11] 2 1
                  ltac:(lia) ltac:(cbn; lia))).
Defined.

Lemma insert_past_capacity_witness :
  snd (insert (treeOf Z.add (replicate (2 ^ 16) 1)) 9) 
  = length (replicate (2 ^ 16) 1) /\
  getRoot Z.add (treeOf Z.add (replicate (2 ^ 16) 1 ++ [9]))
  = getRoot Z.add (treeOf Z.add (replicate (2 ^ 16) 1)).
Proof.
  destruct (insert_past_capacity Z.add (replicate (2 ^ 16) 1) [9] 9)
    as (Hi & Hr & _).
  - rewrite length_replicate. lia.
  - split; [exact Hi | exact Hr].
Defined.

Lemma getProof_empty_slot_witness :
  getRoot Z.add (treeOf Z.add [5; 7; 11])
  = Some (recombine Z.add 0 6 (getProof Z.add (treeOf Z.add [5; 7; 11]) 6)).
Proof.
  apply (proj2 (getProof_empty_slot Z.add [5; 7; 11] 6 ltac:(cbn; lia)
                  (Nat.lt_le_trans 6 (2 ^ 3) (2 ^ 16) ltac:(cbn; lia)
                     (Nat.pow_le_mono_r 2 3 16 ltac:(lia) ltac:(lia))))).
Defined.

(** * Multiplication by [X], inner products, identity seeds *)

Lemma coef_xPoly (n i : nat) :
  coef (xPoly n) i = if (i =? 1)%nat then 1 else 0.
Proof.
  unfold xPoly. destruct i as [| [| i]]; [reflexivity | reflexivity |].
  cbn [Nat.eqb]. unfold coef. cbn [lookup list_lookup].
  destruct (replicate (n - 2) 0 !! i) as [v |] eqn:E; [| reflexivity].
  apply lookup_replicate in E. destruct E as [-> _]. reflexivity.
Qed.

Lemma nconv_xPoly (n : nat) (b : nat -> Z) (k : nat) :
  (2 <= n)%nat -> (k < n)%nat ->
  nconv n (coef (xPoly n)) b k
  = if (k =? 0)%nat then - b (n - 1)%nat else b (k - 1)%nat.
Proof.
  intros Hn Hk. unfold nconv.
  rewrite (sumZ_single n _ 1%nat); [| lia |].
  2:{ intros i Hi Hne. apply sumZ_zero. intros j Hj.
      rewrite coef_xPoly. destruct (Nat.eqb_spec i 1); [lia | ring]. }
  rewrite coef_xPoly. cbn [Nat.eqb].
  destruct (Nat.eqb_spec k 0) as [-> | Hk0].
  - rewrite (sumZ_single n _ (n - 1)%nat); [| lia |].
    + unfold wrapSign.
      destruct (Nat.eqb_spec (1 + (n - 1)) 0); [lia |].
      destruct (Nat.eqb_spec (1 + (n - 1)) (0 + n)); [ring | lia].
    + intros j Hj Hne. unfold wrapSign.
      destruct (Nat.eqb_spec (1 + j) 0); [lia |].
      destruct (Nat.eqb_spec (1 + j) (0 + n)); [lia | ring].
  - rewrite (sumZ_single n _ (k - 1)%nat); [| lia |].
    + unfold wrapSign.
      destruct (Nat.eqb_spec (1 + (k - 1)) k); [ring | lia].
    + intros j Hj Hne. unfold wrapSign.
      destruct (Nat.eqb_spec (1 + j) k); [lia |].
      destruct (Nat.eqb_spec (1 + j) (k + n)); [lia | ring].
Qed.

(** X24. The product is negacyclic: multiplying by the monomial [X]
    moves every coefficient one position up, and the top coefficient
    comes back at position 0 with its sign flipped ([X^n = -1]). *)
Theorem negacyclicMulModQ_shift (b : list Z) (n : nat) (q : Z) :
  0 < q -> (2 <= n)%nat -> length b = n ->
  exists res,
    negacyclicMulModQ (xPoly n) b n q = Some res /\
    length res = n /\
    res !! 0%nat = Some ((- coef b (n - 1)) mod q) /\
    forall k, (0 < k < n)%nat -> res !! k = Some (coef b (k - 1) mod q).
Proof.
  intros Hq Hn Hb.
  assert (Hx : length (xPoly n) = n).
  { unfold xPoly. cbn [length]. rewrite length_replicate. lia. }
  eexists. split; [apply negacyclicMulModQ_spec; lia |].
  split; [apply length_ringOf |]. split.
  - rewrite ringOf_lookup by lia. rewrite nconv_xPoly by lia. reflexivity.
  - intros k Hk. rewrite ringOf_lookup by lia.
    rewrite nconv_xPoly by lia.
    destruct (Nat.eqb_spec k 0); [lia | reflexivity].
Qed.

Lemma negacyclicMulModQ_shift_witness :
  exists res,
    negacyclicMulModQ (xPoly 3) [5; 6; 7] 3 17 = Some res /\
    res !! 0%nat = Some ((- 7) mod 17) /\
    res !! 1%nat = Some (5 mod 17).
Proof.
  destruct (negacyclicMulModQ_shift [5; 6; 7] 3 17
              ltac:(lia) ltac:(lia) eq_refl) as (res & Hr & _ & H0 & Hk).
  exists res. split; [exact Hr |]. split; [exact H0 |].
  apply (Hk 1%nat). lia.
Defined.

(** X25. [innerProductInt] runs over the length of [row]: it returns
    the sum of the products when [r] is at least as long, ignoring the
    further entries of [r], and raises when [r] is shorter. *)
Theorem innerProductInt_bounds (row r : list Z) :
  ((length row <= length r)%nat ->
   innerProductInt row r
   = Some (sumZ (length row) (fun i => coef row i * coef r i))) /\
  ((length r < length row)%nat -> innerProductInt row r = None).
Proof.
  split.
  - intros Hlen. rewrite innerProductInt_spec by exact Hlen. reflexivity.
  - intros Hlen. unfold innerProductInt.
    apply (forM_fails _ _ (length r)); [apply in_seq; lia |].
    intros sum.
    destruct (row !! length r) as [xv |]; [| reflexivity].
    cbn [mbind option_bind].
    rewrite (lookup_ge_None_2 r (length r)) by lia. reflexivity.
Qed.

Lemma innerProductInt_bounds_witness :
  innerProductInt [2; 3] [10; -1; 99] = Some (2 * 10 + 3 * -1) /\
  innerProductInt [2; 3; 4] [10; -1] = None.
Proof.
  split.
  - apply (proj1 (innerProductInt_bounds [2; 3] [10; -1; 99])). cbn. lia.
  - apply (proj2 (innerProductInt_bounds [2; 3; 4] [10; -1])). cbn. lia.
Defined.

Section IdentityFurther.
Variable Point : Type.
Variable BASE : Point.
Variable multiply : Point -> Z -> option Point.
Variable point_x point_y : Point -> Z.

(** X26. [generateIdentityKeypair] looks at its seed modulo 2^128 only:
    two non-negative seeds that differ by a multiple of 2^128 give the
    same keypair (or both raise); and the returned [secretKey], used as
    a seed, gives the same keypair again. *)
Theorem generateIdentityKeypair_seed_mod (seed : Z) :
  (forall k, 0 <= seed -> 0 <= k ->
     generateIdentityKeypair Point BASE multiply point_x point_y
                             (seed + k * 2 ^ 128)
     = generateIdentityKeypair Point BASE multiply point_x point_y seed) /\
  (forall kp,
     generateIdentityKeypair Point BASE multiply point_x point_y seed
     = Some kp ->
     generateIdentityKeypair Point BASE multiply point_x point_y
                             (secretKey kp)
     = Some kp).
Proof.
  assert (Hm : MAX_128_BIT + 1 = 2 ^ 128) by reflexivity.
  split.
  - intros k Hs Hk. unfold generateIdentityKeypair. rewrite Hm.
    rewrite Z.rem_add by nia. reflexivity.
  - intros kp Hrun. unfold generateIdentityKeypair in *. rewrite Hm in *.
    destruct (multiply BASE (Z.rem seed (2 ^ 128))) as [pk |] eqn:Epk;
      cbn [mbind option_bind] in Hrun; [| discriminate].
    injection Hrun as <-. cbn [secretKey].
    rewrite Z.rem_rem by lia. rewrite Epk. reflexivity.
Qed.

End IdentityFurther.

Lemma generateIdentityKeypair_seed_mod_witness :
  generateIdentityKeypair Z 1 toy_multiply id id (5 + 3 * 2 ^ 128)
  = generateIdentityKeypair Z 1 toy_multiply id id 5.
Proof.
  apply (proj1 (generateIdentityKeypair_seed_mod Z 1 toy_multiply id id 5));
    lia.
Defined.

(** * Field elements as text *)

Lemma hexValue_snoc (ds : list Z) (d : Z) :
  hexValue (ds ++ [d]) = 16 * hexValue ds + d.
Proof. unfold hexValue. rewrite fold_left_app. reflexivity. Qed.

Lemma hexValue_zeros (m : nat) (ds : list Z) :
  hexValue (replicate m 0 ++ ds) = hexValue ds.
Proof.
  unfold hexValue. rewrite fold_left_app. f_equal.
  induction m as [| m IH]; [reflexivity |]. cbn [replicate fold_left].
  exact IH.
Qed.

Lemma hexLoop_spec (fuel : nat) : forall v acc,
  0 <= v < 16 ^ Z.of_nat (S fuel) ->
  exists ds,
    hexLoop (S fuel) v acc = map hexDigit ds ++ acc /\
    Forall (fun d => 0 <= d < 16) ds /\
    hexValue ds = v /\
    (1 <= length ds <= S fuel)%nat /\
    (0 < v -> 16 ^ Z.of_nat (length ds - 1) <= v).
Proof.
  induction fuel as [| fuel IH]; intros v acc Hv.
  - exists [v]. cbn [hexLoop]. change (16 ^ Z.of_nat 1) with 16 in Hv.
    destruct (Z.ltb_spec v 16); [| lia].
    split; [reflexivity |]. split; [repeat constructor; lia |].
    split; [cbn; lia |]. split; [cbn; lia |]. intros Hpos. cbn. lia.
  - change (hexLoop (S (S fuel)) v acc)
      with (if v <? 16 then hexDigit v :: acc
            else hexLoop (S fuel) (v / 16) (hexDigit (v mod 16) :: acc)).
    destruct (Z.ltb_spec v 16) as [Hlt | Hge].
    + exists [v]. split; [reflexivity |].
      split; [repeat constructor; lia |].
      split; [cbn; lia |]. split; [cbn; lia |]. intros Hpos. cbn. lia.
    + assert (Hq : 0 <= v / 16 < 16 ^ Z.of_nat (S fuel)).
      { split; [apply Z.div_pos; lia |].
        apply Z.div_lt_upper_bound; [lia |].
        replace (Z.of_nat (S (S fuel))) with (Z.of_nat (S fuel) + 1) in Hv
          by lia.
        rewrite Z.pow_add_r in Hv by lia. lia. }
      destruct (IH (v / 16) (hexDigit (v mod 16) :: acc) Hq)
        as (ds & Hrun & Hrange & Hval & Hlen & Hlow).
      exists (ds ++ [v mod 16]). split.
      { rewrite Hrun, map_app, <- app_assoc. reflexivity. }
      split.
      { apply Forall_app. split; [exact Hrange |].
        repeat constructor; apply Z.mod_pos_bound; lia. }
      split.
      { rewrite hexValue_snoc, Hval. symmetry. apply Z.div_mod. lia. }
      split; [rewrite length_app; cbn [length]; lia |].
      intros Hpos. rewrite length_app. cbn [length].
      replace (length ds + 1 - 1)%nat with (S (length ds - 1)) by lia.
      rewrite Nat2Z.inj_succ, Z.pow_succ_r by lia.
      assert (0 < v / 16) by (apply Z.div_str_pos; lia).
      pose proof (Hlow ltac:(lia)).
      pose proof (Z.mul_div_le v 16 ltac:(lia)). lia.
Qed.

Lemma toString16_spec (v : Z) :
  0 < v ->
  exists ds,
    toString16 v = map hexDigit ds /\
    Forall (fun d => 0 <= d < 16) ds /\
    hexValue ds = v /\
    16 ^ Z.of_nat (length ds - 1) <= v.
Proof.
  intros Hv. unfold toString16.
  destruct (Z.ltb_spec v 0); [lia |].
  destruct (hexLoop_spec (Z.to_nat (Z.log2 v)) v []) as
    (ds & Hrun & Hrange & Hval & _ & Hlow).
  - split; [lia |].
    pose proof (Z.log2_spec v Hv) as [_ Hup].
    pose proof (Z.log2_nonneg v) as Hl.
    rewrite Nat2Z.inj_succ, Z2Nat.id by exact Hl.
    eapply Z.lt_le_trans; [exact Hup |].
    apply Z.pow_le_mono_l. lia.
  - exists ds. rewrite Hrun, app_nil_r. auto.
Qed.

Lemma formatField_mod (v : Z) :
  formatField v
  = if v mod BN254_P =? 0 then [34; 48; 34]
    else [34; 48; 120]
         ++ padStart (toString16 (v mod BN254_P)) 64 48 ++ [34].
Proof.
  unfold formatField. cbv zeta.
  change (Z.rem (Z.rem v BN254_P + BN254_P) BN254_P) with (jsmod v BN254_P).
  rewrite jsmod_mod by apply BN254_P_pos. reflexivity.
Qed.

Lemma hexDigit_inj (d d' : Z) :
  0 <= d < 16 -> 0 <= d' < 16 -> hexDigit d = hexDigit d' -> d = d'.
Proof.
  unfold hexDigit. intros Hd Hd'.
  destruct (Z.ltb_spec d 10), (Z.ltb_spec d' 10); lia.
Qed.

Lemma map_hexDigit_inj (ds ds' : list Z) :
  Forall (fun d => 0 <= d < 16) ds -> Forall (fun d => 0 <= d < 16) ds' ->
  map hexDigit ds = map hexDigit ds' -> ds = ds'.
Proof.
  intros Hds. revert ds'.
  induction Hds as [| d ds Hd _ IH]; intros ds' Hds' Heq.
  - destruct ds'; [reflexivity | discriminate].
  - destruct Hds' as [| d' ds' Hd' Hds']; [discriminate |].
    cbn [map] in Heq. injection Heq as H1 H2.
    rewrite (hexDigit_inj d d' Hd Hd' H1), (IH ds' Hds' H2). reflexivity.
Qed.

Lemma formatField_digits (v : Z) :
  v mod BN254_P <> 0 ->
  exists digits,
    formatField v = [34; 48; 120] ++ map hexDigit digits ++ [34] /\
    length digits = 64%nat /\
    Forall (fun d => 0 <= d < 16) digits /\
    hexValue digits = v mod BN254_P.
Proof.
  intros Hnz. rewrite formatField_mod.
  destruct (Z.eqb_spec (v mod BN254_P) 0) as [| _]; [contradiction |].
  pose proof (Z.mod_pos_bound v BN254_P BN254_P_pos) as Hm.
  destruct (toString16_spec (v mod BN254_P) ltac:(lia))
    as (ds & Hrun & Hrange & Hval & Hlow).
  assert (Hlen : (length ds <= 64)%nat).
  { destruct (le_lt_dec (length ds) 64) as [Hle | Hgt]; [exact Hle |].
    exfalso.
    assert (16 ^ 64 <= 16 ^ Z.of_nat (length ds - 1))
      by (apply Z.pow_le_mono_r; lia).
    assert (BN254_P < 16 ^ 64) by reflexivity. lia. }
  exists (replicate (64 - length ds) 0 ++ ds).
  split.
  { rewrite Hrun. unfold padStart. rewrite length_map.
    rewrite map_app. apply f_equal. apply (f_equal (fun l => l ++ [34])).
    apply (f_equal (fun l => l ++ map hexDigit ds)).
    generalize (64 - length ds)%nat. intros m.
    induction m as [| m IH]; [reflexivity |].
    cbn [replicate map]. rewrite <- IH. reflexivity. }
  split; [rewrite length_app, length_replicate; lia |].
  split.
  { apply Forall_app. split; [| exact Hrange].
    apply Forall_replicate. lia. }
  rewrite hexValue_zeros. exact Hval.
Qed.

(** X27. [formatField] renders the canonical representative of its
    argument: the three characters ["0"] (quotes included) for a
    multiple of [P], and otherwise a quoted [0x] followed by exactly 64
    lower-case hexadecimal digits that denote [v mod P]; two integers
    are rendered alike exactly when they are congruent modulo [P], so
    normalising with [signedToBn254] first changes nothing. *)
Theorem formatField_canonical (v w : Z) :
  (v mod BN254_P = 0 -> formatField v = [34; 48; 34]) /\
  (v mod BN254_P <> 0 ->
   length (formatField v) = 68%nat /\
   exists digits,
     formatField v = [34; 48; 120] ++ map hexDigit digits ++ [34] /\
     length digits = 64%nat /\
     Forall (fun d => 0 <= d < 16) digits /\
     hexValue digits = v mod BN254_P) /\
  (formatField v = formatField w <-> v mod BN254_P = w mod BN254_P) /\
  formatField (signedToBn254 v) = formatField v.
Proof.
  assert (Hcongr : forall a b, a mod BN254_P = b mod BN254_P ->
                               formatField a = formatField b).
  { intros a b Hab. rewrite !formatField_mod, Hab. reflexivity. }
  assert (Hlen : forall a, a mod BN254_P <> 0 ->
                           length (formatField a) = 68%nat).
  { intros a Ha. destruct (formatField_digits a Ha) as (ds & -> & Hl & _).
    rewrite !length_app, length_map, Hl. reflexivity. }
  split; [| split; [| split]].
  - intros Hz. rewrite formatField_mod, Hz. reflexivity.
  - intros Hnz. split; [apply Hlen, Hnz | apply formatField_digits, Hnz].
  - split; [| apply Hcongr].
    intros Heq.
    destruct (Z.eq_dec (v mod BN254_P) 0) as [Hv | Hv];
      destruct (Z.eq_dec (w mod BN254_P) 0) as [Hw | Hw].
    + congruence.
    + exfalso. pose proof (Hlen w Hw) as Hl. rewrite <- Heq in Hl.
      rewrite formatField_mod, Hv in Hl. discriminate.
    + exfalso. pose proof (Hlen v Hv) as Hl. rewrite Heq in Hl.
      rewrite formatField_mod, Hw in Hl. discriminate.
    + destruct (formatField_digits v Hv) as (dv & Ev & _ & Rv & Vv).
      destruct (formatField_digits w Hw) as (dw & Ew & _ & Rw & Vw).
      rewrite Ev, Ew in Heq. apply app_inv_head in Heq.
      apply app_inv_tail in Heq.
      apply (map_hexDigit_inj dv dw Rv Rw) in Heq. congruence.
  - apply Hcongr. unfold signedToBn254.
    rewrite jsmod_mod by apply BN254_P_pos.
    apply Z.mod_mod. pose proof BN254_P_pos. lia.
Qed.

Lemma formatField_canonical_witness :
  formatField BN254_P = [34; 48; 34] /\
  length (formatField (-1)) = 68%nat /\
  formatField (-1) = formatField (BN254_P - 1).
Proof.
  destruct (formatField_canonical BN254_P 0) as (Hz & _).
  destruct (formatField_canonical (-1) (BN254_P - 1))
    as (_ & Hnz & Hiff & _).
  split; [apply Hz; vm_compute; reflexivity |].
  split.
  - apply Hnz. vm_compute. discriminate.
  - apply Hiff. vm_compute. reflexivity.
Defined.

(** * When encryption returns *)

(** X28. [rlweEncrypt] returns a ciphertext exactly when the key holds
    at least [N] coefficients in both components and the noise vectors
    hold at least [N], [MSG_SLOTS] and [N] samples; with any of them
    shorter it raises. *)
Theorem rlweEncrypt_returns (pk : RlwePk) (ownerX ownerY : Z)
    (r e1 e2 : list Z) :
  is_Some (rlweEncrypt pk ownerX ownerY r e1 e2) <->
  (N <= length (pk_a pk))%nat /\ (N <= length (pk_b pk))%nat /\
  (N <= length r)%nat /\ (MSG_SLOTS <= length e1)%nat /\
  (N <= length e2)%nat.
Proof.
  split.
  - intros Hrun.
    pose proof N_pos as HN. pose proof MSG_SLOTS_pos as HM.
    assert (Hnone : forall P : Prop,
              (~ P -> rlweEncrypt pk ownerX ownerY r e1 e2 = None) ->
              Decision P -> P).
    { intros P Hfail [HP | HnP]; [exact HP |].
      rewrite (Hfail HnP) in Hrun. destruct Hrun as [? Hrun]. discriminate. }
    assert (Hb : (N <= length (pk_b pk))%nat).
    { apply Hnone; [| apply _]. intros Hshort. unfold rlweEncrypt.
      rewrite (mapM_fails _ (seq 0 MSG_SLOTS) 0%nat); [reflexivity | |].
      - apply elem_of_seq. lia.
      - rewrite negacyclicMatrixRowModQ_short by lia. reflexivity. }
    assert (Hr : (N <= length r)%nat).
    { apply Hnone; [| apply _]. intros Hshort. unfold rlweEncrypt.
      rewrite (mapM_fails _ (seq 0 MSG_SLOTS) 0%nat); [reflexivity | |].
      - apply elem_of_seq. lia.
      - destruct (negacyclicMatrixRowModQ (pk_b pk) 0 N RLWE_Q) as [row |];
          [| reflexivity].
        cbn [mbind option_bind].
        rewrite innerProductModQ_short by (rewrite length_map; lia).
        reflexivity. }
    assert (He1 : (MSG_SLOTS <= length e1)%nat).
    { apply Hnone; [| apply _]. intros Hshort. unfold rlweEncrypt.
      rewrite (mapM_fails _ (seq 0 MSG_SLOTS) (length e1));
        [reflexivity | |].
      - apply elem_of_seq. lia.
      - destruct (negacyclicMatrixRowModQ (pk_b pk) (length e1) N RLWE_Q)
          as [row |]; [| reflexivity].
        cbn [mbind option_bind].
        destruct (innerProductModQ row _) as [ip |]; [| reflexivity].
        cbn [mbind option_bind].
        rewrite (lookup_ge_None_2 (map (fun v => jsmod v RLWE_Q) e1)
                   (length e1))
          by (rewrite length_map; lia).
        reflexivity. }
    assert (Ha : (N <= length (pk_a pk))%nat).
    { apply Hnone; [| apply _]. intros Hshort. unfold rlweEncrypt.
      destruct (mapM _ (seq 0 MSG_SLOTS)) as [c0 |]; [| reflexivity].
      cbn [mbind option_bind].
      rewrite (mapM_fails _ (seq 0 N) 0%nat); [reflexivity | |].
      - apply elem_of_seq. lia.
      - rewrite negacyclicMatrixRowModQ_short by lia. reflexivity. }
    assert (He2 : (N <= length e2)%nat).
    { apply Hnone; [| apply _]. intros Hshort. unfold rlweEncrypt.
      destruct (mapM _ (seq 0 MSG_SLOTS)) as [c0 |]; [| reflexivity].
      cbn [mbind option_bind].
      rewrite (mapM_fails _ (seq 0 N) (length e2)); [reflexivity | |].
      - apply elem_of_seq. lia.
      - destruct (negacyclicMatrixRowModQ (pk_a pk) (length e2) N RLWE_Q)
          as [row |]; [| reflexivity].
        cbn [mbind option_bind].
        destruct (innerProductModQ row _) as [ip |]; [| reflexivity].
        cbn [mbind option_bind].
        rewrite (lookup_ge_None_2 (map (fun v => jsmod v RLWE_Q) e2)
                   (length e2))
          by (rewrite length_map; lia).
        reflexivity. }
    auto.
  - intros (Ha & Hb & Hr & He1 & He2).
    rewrite rlweEncrypt_spec by assumption. eauto.
Qed.

Lemma rlweEncrypt_returns_witness :
  let pk := {| pk_a := replicate N 5; pk_b := replicate N 7 |} in
  is_Some (rlweEncrypt pk 11 13 (replicate N 1) (replicate MSG_SLOTS 2)
                       (replicate N 1)) /\
  rlweEncrypt pk 11 13 (replicate 1023 1) (replicate MSG_SLOTS 2)
              (replicate N 1) = None.
Proof.
  cbv zeta. split.
  - apply (proj2 (rlweEncrypt_returns
                    {| pk_a := replicate N 5; pk_b := replicate N 7 |}
                    11 13 (replicate N 1) (replicate MSG_SLOTS 2)
                    (replicate N 1))).
    cbn [pk_a pk_b]. rewrite !length_replicate. lia.
  - destruct (rlweEncrypt _ 11 13 (replicate 1023 1) _ _) as [ct |] eqn:E;
      [exfalso | reflexivity].
    destruct (proj1 (rlweEncrypt_returns _ _ _ _ _ _) (ex_intro _ ct E))
      as (_ & _ & Hr & _).
    rewrite length_replicate in Hr. unfold N in Hr. lia.
Defined.

(** * Order of the share files, decoding margin *)

Lemma lagrangeTerm_abs (xi yi xj : Z) :
  Z.abs (lagrangeTerm xi yi xj) < BN254_P.
Proof.
  unfold lagrangeTerm. pose proof BN254_P_pos as Hp.
  match goal with
  | |- Z.abs (Z.rem ?a _) < _ =>
      pose proof (Z.rem_bound_abs a BN254_P ltac:(lia)) as Hb
  end.
  rewrite (Z.abs_eq BN254_P) in Hb by lia. exact Hb.
Qed.

Lemma shamirTwo_sym (x1 y1 x2 y2 : Z) :
  shamirTwo x1 y1 x2 y2 = shamirTwo x2 y2 x1 y1.
Proof.
  unfold shamirTwo.
  pose proof (lagrangeTerm_abs x1 y1 x2) as H1.
  pose proof (lagrangeTerm_abs x2 y2 x1) as H2.
  revert H1 H2.
  generalize (lagrangeTerm x1 y1 x2), (lagrangeTerm x2 y2 x1).
  pose proof BN254_P_pos as Hp. revert Hp. generalize BN254_P.
  intros p Hp l1 l2 H1 H2. rewrite !Z.add_0_l.
  rewrite (proj2 (Z.rem_small_iff l1 p ltac:(lia))) by lia.
  rewrite (proj2 (Z.rem_small_iff l2 p ltac:(lia))) by lia.
  rewrite Z.add_comm. reflexivity.
Qed.

(** X29. The order of the two share files does not matter: when both
    declare threshold 2 and hold [N] coefficients, [reconstructSk]
    returns the same key for [(share1, share2)] and [(share2, share1)],
    whatever the shares are. *)
Theorem reconstructSk_symmetric (share1 share2 : ShareFile) :
  threshold share1 = 2%nat -> threshold share2 = 2%nat ->
  length (coefficients share1) = N -> length (coefficients share2) = N ->
  reconstructSk share1 share2 = reconstructSk share2 share1.
Proof.
  intros Ht1 Ht2 Hl1 Hl2.
  rewrite !reconstructSk_spec by (assumption || lia).
  apply f_equal. apply map_ext. intros k.
  unfold skCoef. rewrite shamirTwo_sym. reflexivity.
Qed.

Lemma reconstructSk_symmetric_witness :
  let share i xv yv :=
    {| share_index := i; threshold := 2; num_shares := 3;
       coefficients := replicate N {| x := xv; y := yv |} |} in
  reconstructSk (share 1%nat 1 10) (share 2%nat 2 13)
  = reconstructSk (share 2%nat 2 13) (share 1%nat 1 10).
Proof.
  cbv zeta.
  apply reconstructSk_symmetric;
    try reflexivity; apply length_replicate.
Defined.

(** X30. The rounding of [rlweDecrypt] has a margin just below
    [DELTA / 2 = 327680]: a slot holding [DELTA * m + eps] modulo [Q],
    for a byte [m] and [|eps| <= 327678], decodes to [m]; with
    [eps = 327680] the byte 0 already decodes to 1. *)
Theorem recoverSlot_margin (m eps : Z) :
  (0 <= m < 256 -> - 327678 <= eps <= 327678 ->
   recoverSlot ((DELTA * m + eps) mod RLWE_Q) = m) /\
  recoverSlot ((DELTA * 0 + 327680) mod RLWE_Q) = 1.
Proof.
  split; [| vm_compute; reflexivity].
  intros Hm He. apply recoverSlot_correct; assumption.
Qed.

Lemma recoverSlot_margin_witness :
  recoverSlot ((DELTA * 200 + -327678) mod RLWE_Q) = 200.
Proof.
  apply (proj1 (recoverSlot_margin 200 (-327678))); lia.
Defined.
